(** * Rain of hearts: the simulation and rendering core of
      [relationship_animation.py]

    The development embeds the pure parts of the script as Rocq functions:
    the overlap test, the particle update, the cull, the spawn ramp, the
    spawn pass, the sprite rasterizer and the frame compositor.

    Conventions of the embedding.
    - A Python [int] is a [Z]; [//] is [Z.div] (both round towards minus
      infinity); [int(f)] on a number is truncation towards zero.
    - A Python [float] is an exact rational [Q]: every constant of the
      script is a decimal literal and every operation a field operation or a
      comparison, so [Q] is closed under them.  Rounding of binary floating
      point is outside the model.
    - A Python [str] is the list of its code points ([list N]), so that
      [len] counts code points as Python does.
    - The [random] module is a parameter: a generator state threaded through
      the calls, with the documented ranges of [random()] and [uniform] as
      hypotheses.  Clock readings and terminal sizes are inputs. *)

From Stdlib Require Import String Ascii ZArith QArith Qround Qminmax List Bool
  Sorted Lia Lqa.
Import ListNotations.

Local Open Scope Z_scope.

(** ** Python values *)

Definition pystr := list N.

(** An ASCII literal of the script as a Python string. *)
Definition py (s : string) : pystr := map N_of_ascii (list_ascii_of_string s).
Arguments py s%_string.

Definition len {A : Type} (l : list A) : Z := Z.of_nat (length l).

Fixpoint pystr_eqb (a b : pystr) : bool :=
  match a, b with
  | [], [] => true
  | c :: a', d :: b' => N.eqb c d && pystr_eqb a' b'
  | _, _ => false
  end.

(** [range(n)]: empty when [n <= 0]. *)
Definition range (n : Z) : list Z := map Z.of_nat (seq 0 (Z.to_nat n)).

(** [int(f)]: truncation towards zero. *)
Definition py_int (q : Q) : Z := Z.quot (Qnum q) (Z.pos (Qden q)).

Definition Qlt_bool (a b : Q) : bool := negb (Qle_bool b a).

(** [min(a, b)] of Python keeps its first argument unless the second is
    strictly smaller. *)
Definition py_min (a b : Q) : Q := if Qlt_bool b a then b else a.

(** [max(a, b)] keeps its first argument unless the second is strictly
    larger. *)
Definition py_max (a b : Q) : Q := if Qlt_bool a b then b else a.

(** Values returned by a choice from a sequence need an inhabitant of their
    type, whatever the generator does. *)
Class Default (A : Type) : Type := default : A.
#[export] Instance Default_list {A : Type} : Default (list A) := [].
#[export] Instance Default_Z : Default Z := 0.

(** ** ANSI helpers and glyph pools *)

Definition ESC : N := 27%N.
Definition CSI : pystr := ESC :: py "[".
Definition RESET : pystr := CSI ++ py "0m".
Definition HIDE_CURSOR : pystr := CSI ++ py "?25l".
Definition SHOW_CURSOR : pystr := CSI ++ py "?25h".
Definition ALT_SCREEN_ON : pystr := CSI ++ py "?1049h".
Definition ALT_SCREEN_OFF : pystr := CSI ++ py "?1049l".
Definition BOLD : pystr := ESC :: py "[1m".
Definition FAINT : pystr := ESC :: py "[2m".

Definition PINKS : list pystr :=
  [ ESC :: py "[38;5;198m"; ESC :: py "[38;5;199m"; ESC :: py "[38;5;200m";
    ESC :: py "[38;5;205m"; ESC :: py "[38;5;206m"; ESC :: py "[38;5;213m";
    ESC :: py "[38;5;219m" ].

(** U+2661, U+2765, U+10E6. *)
Definition HEARTS_SMALL : list pystr := [ [0x2661%N]; [0x2765%N]; [0x10E6%N] ].
(** U+2665. *)
Definition HEARTS_MED : list pystr := [ [0x2665%N] ].

Definition MESSAGES : list pystr :=
  [ py "Compiling feelings...";
    py "Deploying emotions...";
    py "FlirtingAPI initializing...";
    py "Authenticating chemistry...";
    py "Encrypting heartbeats...";
    py "Loading love language pack...";
    py "Spinning up butterflies...";
    py "Warming up smile engine...";
    py "Negotiating date protocol..." ].

(** ** The particle *)

Module Heart.

Record t : Type := mk {
  x : Z;
  y : Q;
  color : pystr;
  speed : Q;
  size : pystr;
  style : pystr;
  sprite : list pystr;
  w : Z;
  h : Z;
  twinkle_phase : Z;
  twinkle_next : Q
}.

Definition set_y (p : t) (v : Q) : t :=
  mk (x p) v (color p) (speed p) (size p) (style p) (sprite p) (w p) (h p)
     (twinkle_phase p) (twinkle_next p).

Definition set_twinkle (p : t) (phase : Z) (next : Q) : t :=
  mk (x p) (y p) (color p) (speed p) (size p) (style p) (sprite p) (w p)
     (h p) phase next.

(** [Heart.step]: [self.y += self.speed]. *)
Definition step (p : t) : t := set_y p (y p + speed p)%Q.

End Heart.

(** Bounds of the bounding box, as [hearts_overlap] computes them. *)
Definition box_left (p : Heart.t) : Z := Heart.x p - Heart.w p / 2.
Definition box_right (p : Heart.t) : Z := box_left p + Heart.w p.
Definition box_top (p : Heart.t) : Z := py_int (Heart.y p).
Definition box_bottom (p : Heart.t) : Z := box_top p + Heart.h p.

Definition hearts_overlap (h1 h2 : Heart.t) : bool :=
  let h1_left := Heart.x h1 - Heart.w h1 / 2 in
  let h1_right := h1_left + Heart.w h1 in
  let h1_top := py_int (Heart.y h1) in
  let h1_bottom := h1_top + Heart.h h1 in
  let h2_left := Heart.x h2 - Heart.w h2 / 2 in
  let h2_right := h2_left + Heart.w h2 in
  let h2_top := py_int (Heart.y h2) in
  let h2_bottom := h2_top + Heart.h h2 in
  negb ((h1_right <? h2_left) || (h1_left >? h2_right)
        || (h1_bottom <? h2_top) || (h1_top >? h2_bottom)).

(** The screen cells a particle paints in [draw_frame]: rows
    [top .. top + h - 1], columns [left .. left + w - 1]. *)
Definition occupies (p : Heart.t) (r c : Z) : Prop :=
  box_top p <= r < box_top p + Heart.h p /\
  box_left p <= c < box_left p + Heart.w p.

(** No two particles of the live set, at different positions of the list,
    overlap. *)
Definition no_overlap (hearts : list Heart.t) : Prop :=
  forall i j p q, i <> j ->
    nth_error hearts i = Some p -> nth_error hearts j = Some q ->
    hearts_overlap p q = false.

(** [get_size]: the reported size clamped to at least 20 columns and 10
    lines. *)
Definition get_size (columns lines : Z) : Z * Z :=
  (Z.max 20 columns, Z.max 10 lines).

(** ** The random source

    [random.random], [random.uniform], [random.choice] and
    [random.choices(..., k=1)[0]] of the standard library, over an explicit
    generator state. *)

Class Random (G : Type) : Type := {
  random : G -> Q * G;
  uniform : Q -> Q -> G -> Q * G;
  choice : forall {A : Type} `{Default A}, list A -> G -> A * G;
  choices : forall {A : Type} `{Default A}, list A -> list Z -> G -> A * G
}.

(** The documented contracts: [random()] lies in [[0, 1)], [uniform(a, b)]
    in [[a, b]] when [a <= b], and [choice] returns an element of a
    non-empty sequence. *)
Class RandomSpec (G : Type) `{Random G} : Prop := {
  random_range : forall g, (0 <= fst (random g))%Q /\ (fst (random g) < 1)%Q;
  uniform_range : forall a b g,
    (a <= b)%Q -> (a <= fst (uniform a b g))%Q /\ (fst (uniform a b g) <= b)%Q;
  choice_in : forall (A : Type) (d : Default A) (l : list A) g,
    l <> [] -> In (fst (choice l g)) l
}.

(** Computations that draw from the generator. *)
Definition Rand (G A : Type) : Type := G -> A * G.

Definition ret {G A : Type} (a : A) : Rand G A := fun g => (a, g).

Definition bind {G A B : Type} (c : Rand G A) (k : A -> Rand G B) : Rand G B :=
  fun g => let (a, g') := c g in k a g'.

Notation "x <- c ;; k" := (bind c (fun x => k))
  (at level 61, c at next level, right associativity).

(** [for a in l: s = body(s, a)]. *)
Fixpoint for_each {G A S : Type} (l : list A) (body : S -> A -> Rand G S)
    (s : S) : Rand G S :=
  match l with
  | [] => ret s
  | a :: l' => s' <- body s a ;; for_each l' body s'
  end.

(** [for h in hearts: h = f(h)], in list order. *)
Fixpoint map_rand {G A B : Type} (f : A -> Rand G B) (l : list A)
    : Rand G (list B) :=
  match l with
  | [] => ret []
  | a :: l' => b <- f a ;; bs <- map_rand f l' ;; ret (b :: bs)
  end.

(** A small deterministic generator, to run the model on concrete inputs:
    a linear congruential state, [random()] its residue modulo 1000 over
    1000. *)
Definition lcg_next (g : Z) : Z := (g * 1103515245 + 12345) mod 2147483648.

Definition lcg_random (g : Z) : Q * Z := (Qmake (g mod 1000) 1000, lcg_next g).

Definition lcg_pick {A : Type} `{Default A} (l : list A) (g : Z) : A * Z :=
  (nth (Z.to_nat (g mod len l)) l default, lcg_next g).

#[export] Instance Random_lcg : Random Z := {
  random := lcg_random;
  uniform := fun a b g =>
    let (u, g') := lcg_random g in ((a + (b - a) * u)%Q, g');
  choice := fun A _ l g => lcg_pick l g;
  choices := fun A _ l _ g => lcg_pick l g
}.

(** ** The animation step ([main], lines 330-405) *)

Definition target_spawn_chance_per_col : Q := 0.03.
Definition ramp_duration : Q := 10.0.
Definition base_min_speed : Q := 0.06.
Definition base_max_speed : Q := 0.35.
Definition msg_duration : Q := 2.4.

Section Simulation.

Context {G : Type} `{Random G}.

(** The body of [for h in hearts]: the position advances by the speed, and
    the twinkle phase is drawn again when its time has come. *)
Definition advance (now : Q) (p : Heart.t) : Rand G Heart.t :=
  let p1 := Heart.set_y p (Heart.y p + Heart.speed p)%Q in
  if Qle_bool (Heart.twinkle_next p1) now then
    phase <- choice [0; 1; 2] ;;
    d <- uniform 0.15 0.6 ;;
    ret (Heart.set_twinkle p1 phase (now + d)%Q)
  else ret p1.

Definition step_hearts (now : Q) (hearts : list Heart.t)
    : Rand G (list Heart.t) :=
  map_rand (advance now) hearts.

(** [hearts = [h for h in hearts if h.y < height]]. *)
Definition cull (height : Z) (hearts : list Heart.t) : list Heart.t :=
  filter (fun p => Qlt_bool (Heart.y p) (inject_Z height)) hearts.

(** The ramp of the spawn chance, with the target and the ramp duration as
    in [main]. *)
Definition spawn_chance (target ramp elapsed : Q) : Q :=
  if Qlt_bool 0 ramp then py_min target (target * (elapsed / ramp))%Q
  else target.

Definition spawn_chance_per_col (elapsed : Q) : Q :=
  spawn_chance target_spawn_chance_per_col ramp_duration elapsed.

(** The candidate built for a column whose trial succeeded. *)
Definition new_heart (now : Q) (col : Z) : Rand G Heart.t :=
  size_choice <- choices [py "small"; py "medium"] [6; 4] ;;
  style_choice <- choices [py "filled"; py "outline"] [6; 4] ;;
  ch <- (if pystr_eqb size_choice (py "small") then
           let pool := if pystr_eqb style_choice (py "outline")
                       then HEARTS_SMALL else HEARTS_MED in
           choice pool
         else choice HEARTS_MED) ;;
  let sprite := [ch] in
  let hgt := 1 in
  let wid := len ch in
  speed <- (if pystr_eqb size_choice (py "small") then
              uniform base_min_speed (base_min_speed + 0.08)%Q
            else
              uniform (base_min_speed + 0.06)%Q (base_min_speed + 0.22)%Q) ;;
  color <- choice PINKS ;;
  twinkle_phase <- choice [0; 1; 2] ;;
  delay <- uniform 0.1 0.7 ;;
  ret (Heart.mk col 2.0 color speed size_choice style_choice sprite wid hgt
         twinkle_phase (now + delay)%Q).

(** A particle that some column's trial could build at time [now]. *)
Definition candidate_of (now : Q) (c : Heart.t) : Prop :=
  exists col g, c = fst (new_heart now col g).

(** [for existing in hearts: if hearts_overlap(new_heart, existing): ...
    break]. *)
Definition collision (candidate : Heart.t) (hearts : list Heart.t) : bool :=
  existsb (fun existing => hearts_overlap candidate existing) hearts.

(** The body of [for col in range(width)]. *)
Definition spawn_column (now chance : Q) (hearts : list Heart.t) (col : Z)
    : Rand G (list Heart.t) :=
  u <- random ;;
  if Qlt_bool u chance then
    candidate <- new_heart now col ;;
    if negb (collision candidate hearts) then ret (hearts ++ [candidate])
    else ret hearts
  else ret hearts.

(** One spawn-planning pass over the columns. *)
Definition spawn_pass (now chance : Q) (width : Z) (hearts : list Heart.t)
    : Rand G (list Heart.t) :=
  for_each (range width) (spawn_column now chance) hearts.

(** Step, cull and spawn of one iteration of the main loop. *)
Definition tick (anim_start now : Q) (width height : Z)
    (hearts : list Heart.t) : Rand G (list Heart.t) :=
  stepped <- step_hearts now hearts ;;
  let live := cull height stepped in
  let elapsed := (now - anim_start)%Q in
  spawn_pass now (spawn_chance_per_col elapsed) width live.

End Simulation.

(** ** The shape rasterizer ([heart_mask], [mask_to_sprite],
       [make_heart_sprite]) *)

(** The inside test of one sub-sample: [v*v*v - x*x*(y*y*y) <= threshold]
    with [v = x*x + y*y - 1]. *)
Definition heart_inside (x y base_threshold : Q) : bool :=
  let v := (x * x + y * y - 1.0)%Q in
  Qle_bool (v * v * v - x * x * (y * y * y))%Q base_threshold.

(** The sub-sample [(sr, sc)] of cell [(row, col)], mapped to the frame of
    the curve. *)
Definition sample_inside (width height row col sr sc : Z) : bool :=
  let x_scale : Q := (if width <=? 9 then 1.18 else 1.12)%Q in
  let y_scale : Q := 1.0%Q in
  let shrink : Q := (if width <=? 7 then 0.90 else 0.95)%Q in
  let base_threshold : Q := (if width <=? 7 then 0.01 else 0.0)%Q in
  let ss : Z := if width <=? 9 then 4 else 3 in
  let inv : Q := (1.0 / inject_Z ss)%Q in
  let fr := ((inject_Z row + (inject_Z sr + 0.5) * inv)
             / py_max 1.0 (inject_Z height - 1.0))%Q in
  let fc := ((inject_Z col + (inject_Z sc + 0.5) * inv)
             / py_max 1.0 (inject_Z width - 1.0))%Q in
  let y := (1.0 - 2.0 * fr)%Q in
  let x := (-1.0 + 2.0 * fc)%Q in
  let x := (x * (x_scale * shrink))%Q in
  let y := (y * (y_scale * shrink))%Q in
  heart_inside x y base_threshold.

(** [inside_count] after the two sub-sample loops of one cell. *)
Definition inside_count (width height row col : Z) : Z :=
  let ss : Z := if width <=? 9 then 4 else 3 in
  fold_left
    (fun count sr =>
       fold_left
         (fun count sc =>
            if sample_inside width height row col sr sc then count + 1
            else count)
         (range ss) count)
    (range ss) 0.

Definition cell_coverage (width height row col : Z) : Q :=
  let ss : Z := if width <=? 9 then 4 else 3 in
  (inject_Z (inside_count width height row col) / inject_Z (ss * ss))%Q.

Definition heart_mask (width height : Z) : list (list Q) :=
  map (fun row => map (fun col => cell_coverage width height row col)
                      (range width))
      (range height).

Definition space : N := 32%N.
Definition fill_char : N := 0x2022%N.
Definition mid_char : N := 0xB7%N.
Definition outline_char : N := 0xB7%N.

(** The characters that [str.strip] and [str.rstrip] remove: the Unicode
    white space of Python. *)
Definition py_isspace (c : N) : bool :=
  (((9 <=? c) && (c <=? 13)) || ((28 <=? c) && (c <=? 32))
   || (c =? 0x85) || (c =? 0xA0) || (c =? 0x1680)
   || ((0x2000 <=? c) && (c <=? 0x200A))
   || (c =? 0x2028) || (c =? 0x2029) || (c =? 0x202F) || (c =? 0x205F)
   || (c =? 0x3000))%N.

Fixpoint drop_while {A : Type} (f : A -> bool) (l : list A) : list A :=
  match l with
  | [] => []
  | a :: l' => if f a then drop_while f l' else l
  end.

Definition lstrip (s : pystr) : pystr := drop_while py_isspace s.
Definition rstrip (s : pystr) : pystr := rev (drop_while py_isspace (rev s)).
Definition strip (s : pystr) : pystr := lstrip (rstrip s).

(** [row.strip() == ""]. *)
Definition blank_row (s : pystr) : bool := pystr_eqb (strip s) [].

Definition char_from_coverage (cov : Q) (mode : pystr) : N :=
  if pystr_eqb mode (py "outline") then
    if Qle_bool 0.25 cov && Qle_bool cov 0.75 then outline_char
    else (if Qlt_bool cov 0.25 then space else space)
  else if Qle_bool 0.66 cov then fill_char
  else if Qle_bool 0.3 cov then mid_char
  else space.

(** [seq[i]] for a list or a string: negative indices count from the end,
    and an index out of range raises ([None]). *)
Definition getitem {A : Type} (l : list A) (i : Z) : option A :=
  let k := if i <? 0 then i + len l else i in
  if (0 <=? k) && (k <? len l) then nth_error l (Z.to_nat k) else None.

Fixpoint update {A : Type} (n : nat) (v : A) (l : list A) : list A :=
  match l, n with
  | [], _ => []
  | _ :: l', O => v :: l'
  | a :: l', S n' => a :: update n' v l'
  end.

(** [seq[i] = v]. *)
Definition setitem {A : Type} (l : list A) (i : Z) (v : A) : option (list A) :=
  let k := if i <? 0 then i + len l else i in
  if (0 <=? k) && (k <? len l) then Some (update (Z.to_nat k) v l) else None.

(** [seq[:n]]: a negative [n] counts from the end. *)
Definition slice_to {A : Type} (l : list A) (n : Z) : list A :=
  if n <? 0 then firstn (Z.to_nat (len l + n)) l else firstn (Z.to_nat n) l.

(** A loop whose body may raise. *)
Fixpoint for_opt {A S : Type} (l : list A) (body : S -> A -> option S) (s : S)
    : option S :=
  match l with
  | [] => Some s
  | a :: l' =>
      match body s a with
      | Some s' => for_opt l' body s'
      | None => None
      end
  end.

(** One row of the sprite before trimming of rows: the characters of the
    coverages [mask[r][0 .. w-1]], joined and right-stripped. *)
Definition sprite_row (mask : list (list Q)) (style : pystr) (w r : Z)
    : option pystr :=
  match for_opt (range w)
          (fun line_chars c =>
             match getitem mask r with
             | Some line =>
                 match getitem line c with
                 | Some cov => Some (line_chars ++ [char_from_coverage cov style])
                 | None => None
                 end
             | None => None
             end) [] with
  | Some line_chars => Some (rstrip line_chars)
  | None => None
  end.

(** [while rows and rows[0].strip() == "": rows.pop(0)]. *)
Definition pop_leading (rows : list pystr) : list pystr :=
  drop_while blank_row rows.

(** [while rows and rows[-1].strip() == "": rows.pop()]. *)
Definition pop_trailing (rows : list pystr) : list pystr :=
  rev (drop_while blank_row (rev rows)).

(** [max(iterable, default=d)]. *)
Definition max_default (l : list Z) (d : Z) : Z :=
  match l with
  | [] => d
  | a :: l' => fold_left Z.max l' a
  end.

(** [r + " " * (maxw - len(r))]. *)
Definition pad_row (maxw : Z) (r : pystr) : pystr :=
  r ++ repeat space (Z.to_nat (maxw - len r)).

Definition mask_to_sprite (mask : list (list Q)) (style : pystr)
    : option (list pystr) :=
  let h := len mask in
  let w := match mask with [] => 0 | line :: _ => len line end in
  match for_opt (range h)
          (fun rows r =>
             match sprite_row mask style w r with
             | Some row => Some (rows ++ [row])
             | None => None
             end) [] with
  | Some rows =>
      let rows := pop_leading rows in
      let rows := pop_trailing rows in
      let maxw := max_default (map len rows) 0 in
      Some (map (pad_row maxw) rows)
  | None => None
  end.

Definition make_heart_sprite (size style : pystr) : option (list pystr) :=
  let '(w, h) :=
    if pystr_eqb size (py "small") then (9, 8)
    else if pystr_eqb size (py "medium") then (13, 11)
    else (17, 15) in
  mask_to_sprite (heart_mask w h) style.

(** ** The frame compositor ([center_text], [draw_frame]) *)

Definition center_text (text : pystr) (width : Z) : pystr :=
  if len text >=? width then slice_to text width
  else
    let pad := (width - len text) / 2 in
    repeat space (Z.to_nat pad) ++ text.

(** The screen buffer: rows of cells, each cell a string (one character, or
    a styled glyph with its escape sequences). *)
Definition screen := list (list pystr).

(** [buffer[r][c] = v]. *)
Definition set_cell (buffer : screen) (r c : Z) (v : pystr) : option screen :=
  match getitem buffer r with
  | Some row =>
      match setitem row c v with
      | Some row' => setitem buffer r row'
      | None => None
      end
  | None => None
  end.

(** [for i, ch in enumerate(text): buffer[line][i] = ch]. *)
Definition overlay (buffer : screen) (line : Z) (text : pystr) : option screen :=
  for_opt (combine (range (len text)) text)
    (fun buffer ich => set_cell buffer line (fst ich) [snd ich]) buffer.

(** The body of [for h in hearts] in [draw_frame]. *)
Definition draw_heart (width height : Z) (buffer : screen) (h : Heart.t)
    : option screen :=
  let top := py_int (Heart.y h) in
  if top >=? height then Some buffer
  else
    let left := Heart.x h - Heart.w h / 2 in
    let ansi_style :=
      if Heart.twinkle_phase h =? 1 then BOLD
      else if Heart.twinkle_phase h =? 2 then FAINT
      else [] in
    for_opt (range (Heart.h h))
      (fun buffer r =>
         let screen_r := top + r in
         if (screen_r <? 2) || (screen_r >=? height) then Some buffer
         else
           match getitem (Heart.sprite h) r with
           | Some row_str =>
               for_opt (range (Heart.w h))
                 (fun buffer c =>
                    match getitem row_str c with
                    | Some ch =>
                        if N.eqb ch space then Some buffer
                        else
                          let screen_c := left + c in
                          if (0 <=? screen_c) && (screen_c <? width) then
                            set_cell buffer screen_r screen_c
                              (ansi_style ++ Heart.color h ++ [ch] ++ RESET)
                          else Some buffer
                    | None => None
                    end) buffer
           | None => None
           end) buffer.

Definition title : pystr := py "Relationship Module: Rain of Hearts".

(** The buffer [draw_frame] builds for a screen of the given size, before it
    is written out; [None] when an index is out of range.  A message that is
    [None] or empty is not drawn. *)
Definition frame_buffer (hearts : list Heart.t) (msg : option pystr)
    (width height : Z) : option screen :=
  let buffer : screen :=
    map (fun _ => repeat [space] (Z.to_nat width)) (range height) in
  let hud_line := 0 in
  let msg_line := 1 in
  match for_opt hearts (draw_heart width height) buffer with
  | Some buffer =>
      let hud_text :=
        (ESC :: py "[96m") ++ title ++ RESET ++ py "  |  Press Ctrl+C to exit" in
      let hud_text :=
        if len title + 22 <? width then hud_text
        else py "Press Ctrl+C to exit" in
      let hud_text := slice_to hud_text width in
      match overlay buffer hud_line hud_text with
      | Some buffer =>
          match msg with
          | Some ((_ :: _) as m) =>
              let msg_colored := (ESC :: py "[95m") ++ m ++ RESET in
              let centered := center_text msg_colored width in
              overlay buffer msg_line (slice_to centered width)
          | _ => Some buffer
          end
      | None => None
      end
  | None => None
  end.

(** ["sep".join(parts)]. *)
Fixpoint join (sep : pystr) (parts : list pystr) : pystr :=
  match parts with
  | [] => []
  | [a] => a
  | a :: rest => a ++ sep ++ join sep rest
  end.

Definition newline : N := 10%N.

(** What the device receives. *)
Inductive event : Type :=
| Write (s : pystr)
| Flush.

(** [draw_frame] on a terminal that reports [columns] by [lines]: the writes
    of one frame, or [None] when building the buffer raised. *)
Definition draw_frame (hearts : list Heart.t) (msg : option pystr)
    (columns lines : Z) : option (list event) :=
  let '(width, height) := get_size columns lines in
  match frame_buffer hearts msg width height with
  | Some buffer =>
      let out_lines := map (join []) buffer in
      Some [ Write (CSI ++ py "H" ++ CSI ++ py "2J");
             Write (join [newline] out_lines);
             Flush ]
  | None => None
  end.

(** ** The animation loop and its teardown ([main]) *)

Inductive exn : Type :=
| KeyboardInterrupt
| IndexError
| OtherError (name : string).

(** How a block ends: normally, or by an exception that propagates. *)
Inductive outcome (A : Type) : Type :=
| Normal (a : A)
| Raised (e : exn).
Arguments Normal {A} a.
Arguments Raised {A} e.

(** What the environment supplies to one iteration of a loop: the clock at
    the top of the iteration, the terminal size reported to [main] and to
    [draw_frame], the clock at the message rotation, and possibly an
    exception (an interrupt or a failure of the device), raised once the
    first [k] events of the iteration's frame have been emitted ([k = 0]:
    before anything is written; [k >= 3]: after the frame, during the
    sleep). *)
Record tick_env : Type := {
  env_now : Q;
  env_size : Z * Z;
  env_draw_size : Z * Z;
  env_t : Q;
  env_fault : option (nat * exn)
}.

Record run_env : Type := {
  intro_start : Q;
  intro_ticks : nat -> tick_env;
  anim_start : Q;
  main_ticks : nat -> tick_env
}.

Record anim_state : Type := {
  hearts : list Heart.t;
  next_msg_time : Q;
  current_msg : option pystr
}.

(** [a % b] on floats, for [b > 0]. *)
Definition py_fmod (a b : Q) : Q := (a - b * inject_Z (Qfloor (a / b)))%Q.

(** The events of a frame and how the iteration ends, given the fault the
    environment injects. *)
Definition emit {A : Type} (frame : option (list event))
    (fault : option (nat * exn)) (next : A) : list event * outcome A :=
  match frame with
  | None => ([], Raised IndexError)
  | Some events =>
      match fault with
      | Some (k, e) => (firstn k events, Raised e)
      | None => (events, Normal next)
      end
  end.

Definition intro_total : Q := 7.0.

(** The intro loop, from iteration [i] on: [Normal] is its [break]. *)
Fixpoint intro_loop (fuel : nat) (env : run_env) (i : nat) (msg_index : Z)
    (last : Q) : option (list event * outcome unit) :=
  match fuel with
  | O => None
  | S fuel' =>
      let e := intro_ticks env i in
      let now := env_now e in
      if Qle_bool intro_total (now - intro_start env) then
        Some ([], Normal tt)
      else
        let dots :=
          repeat 46%N
            (Z.to_nat (py_int (py_fmod ((now - intro_start env) * 3) 4))) in
        match getitem MESSAGES (msg_index mod len MESSAGES) with
        | None => Some ([], Raised IndexError)
        | Some m =>
            let intro_msg := m ++ dots in
            let msg_index :=
              msg_index + (if Qlt_bool 0.6 (now - last) then 1 else 0) in
            let last := now in
            let frame :=
              draw_frame [] (Some intro_msg) (fst (env_draw_size e))
                (snd (env_draw_size e)) in
            match emit frame (env_fault e) tt with
            | (events, Normal _) =>
                match intro_loop fuel' env (S i) msg_index last with
                | Some (rest, out) => Some (events ++ rest, out)
                | None => None
                end
            | (events, Raised x) => Some (events, Raised x)
            end
        end
  end.

Definition exit_message : pystr :=
  [newline] ++ CSI ++ py "2K" ++ [13%N] ++ (ESC :: py "[92m")
  ++ py "Exiting love loop... See you next heartbeat! " ++ [0x1F49A%N]
  ++ RESET ++ [newline].

(** What [main] writes before the [try]. *)
Definition setup : list event := [Write (ALT_SCREEN_ON ++ HIDE_CURSOR); Flush].

(** What the [finally] block writes. *)
Definition teardown : list event :=
  [Write (SHOW_CURSOR ++ ALT_SCREEN_OFF); Flush].

(** The exceptions that the environment raises outside the loops (an
    interrupt, or a write or flush that the device refuses): in the two
    statements before the [try], in the handler of the interrupt, and in
    the [finally] block.  As in [tick_env], a fault [(k, e)] raises [e]
    once the first [k] events of the block have been emitted. *)
Record guard_env : Type := {
  setup_fault : option (nat * exn);
  handler_fault : option (nat * exn);
  finally_fault : option (nat * exn)
}.

(** A block of writes under a possible fault: what is emitted, and the
    exception raised, if any. *)
Definition attempt (events : list event) (fault : option (nat * exn))
    : list event * option exn :=
  match fault with
  | Some (k, e) => (firstn k events, Some e)
  | None => (events, None)
  end.

(** The [except KeyboardInterrupt] clause applied to the outcome of the
    body: the handler writes the exit message (and may itself raise); any
    other exception stays pending. *)
Definition handle {A : Type} (genv : guard_env) (out : outcome A)
    : list event * option exn :=
  match out with
  | Normal _ => ([], None)
  | Raised KeyboardInterrupt => attempt [Write exit_message] (handler_fault genv)
  | Raised e => ([], Some e)
  end.

(** The [try: ... except KeyboardInterrupt: ... finally: ...] of [main]
    around a body that has run to its end: the [finally] block runs in all
    cases, after the handler if the body was interrupted; an exception
    raised in the [finally] block replaces the pending one. *)
Definition protect {A : Type} (genv : guard_env)
    (body : list event * outcome A) : list event * option exn :=
  let (trace, out) := body in
  let (handled, pending) := handle genv out in
  let (final, raised) := attempt teardown (finally_fault genv) in
  (trace ++ handled ++ final,
   match raised with
   | Some e => Some e
   | None => pending
   end).

Definition is_teardown_write (e : event) : bool :=
  match e with
  | Write s => pystr_eqb s (SHOW_CURSOR ++ ALT_SCREEN_OFF)
  | Flush => false
  end.

(** How many times the teardown sequence was written. *)
Definition teardown_count (trace : list event) : nat :=
  List.length (filter is_teardown_write trace).

Section Loop.

Context {G : Type} `{Random G}.

(** One iteration of the main loop. *)
Definition main_iteration (start : Q) (e : tick_env) (st : anim_state)
    : Rand G (list event * outcome anim_state) :=
  let '(width, height) := get_size (fst (env_size e)) (snd (env_size e)) in
  live <- tick start (env_now e) width height (hearts st) ;;
  let t := env_t e in
  st' <- (if Qle_bool (next_msg_time st) t then
            m <- choice MESSAGES ;;
            d <- uniform 0.8 2.2 ;;
            ret {| hearts := live;
                   next_msg_time := (t + msg_duration + d)%Q;
                   current_msg := Some m |}
          else
            ret {| hearts := live;
                   next_msg_time := next_msg_time st;
                   current_msg := current_msg st |}) ;;
  let frame :=
    draw_frame (hearts st') (current_msg st') (fst (env_draw_size e))
      (snd (env_draw_size e)) in
  ret (emit frame (env_fault e) st').

(** The main loop ([while True]) from iteration [i] on: it ends only by an
    exception. *)
Fixpoint main_loop (fuel : nat) (env : run_env) (i : nat) (st : anim_state)
    (g : G) : option (list event * outcome unit) :=
  match fuel with
  | O => None
  | S fuel' =>
      match main_iteration (anim_start env) (main_ticks env i) st g with
      | ((events, Normal st'), g') =>
          match main_loop fuel' env (S i) st' g' with
          | Some (rest, out) => Some (events ++ rest, out)
          | None => None
          end
      | ((events, Raised x), _) => Some (events, Raised x)
      end
  end.

(** The body of the [try]: the intro, then the main loop. *)
Definition animation (fuel : nat) (env : run_env) (g : G)
    : option (list event * outcome unit) :=
  match intro_loop fuel env 0 0 (intro_start env) with
  | Some (events, Normal _) =>
      let st := {| hearts := []; next_msg_time := 0.0;
                   current_msg := None |} in
      match main_loop fuel env 0 st g with
      | Some (rest, out) => Some (events ++ rest, out)
      | None => None
      end
  | Some (events, Raised x) => Some (events, Raised x)
  | None => None
  end.

(** [main]: everything written to the device and the exception that
    leaves [main], if any; [None] while the animation is still running
    when the fuel is spent.  An exception in the setup, which precedes the
    [try], leaves [main] at once. *)
Definition main (fuel : nat) (env : run_env) (genv : guard_env) (g : G)
    : option (list event * option exn) :=
  match attempt setup (setup_fault genv) with
  | (written, Some e) => Some (written, Some e)
  | (written, None) =>
      match animation fuel env g with
      | Some body =>
          let (trace, pending) := protect genv body in
          Some (written ++ trace, pending)
      | None => None
      end
  end.

End Loop.

(** An environment for concrete runs: a clock that advances by 1/14 per
    iteration, an 80 by 24 terminal, and an interrupt during the sleep of
    main-loop iteration [n]. *)
Definition quiet_tick (start : Q) (i : nat) : tick_env :=
  {| env_now := (start + inject_Z (Z.of_nat i) / 14)%Q;
     env_size := (80, 24);
     env_draw_size := (80, 24);
     env_t := (start + inject_Z (Z.of_nat i) / 14)%Q;
     env_fault := None |}.

Definition interrupted_at (n : nat) : run_env :=
  {| intro_start := 0;
     intro_ticks := quiet_tick 0;
     anim_start := 7;
     main_ticks := fun i =>
       if Nat.eqb i n then
         {| env_now := env_now (quiet_tick 7 i);
            env_size := (80, 24);
            env_draw_size := (80, 24);
            env_t := env_t (quiet_tick 7 i);
            env_fault := Some (3%nat, KeyboardInterrupt) |}
       else quiet_tick 7 i |}.

(** Two one-cell particles in neighbouring columns of row 2. *)
Definition heart_at (col : Z) : Heart.t :=
  Heart.mk col 2.0 (ESC :: py "[38;5;198m") 0.1 (py "medium") (py "filled")
    [[0x2665%N]] 1 1 0 100.

(** ** Notions used in the statements *)

(** A row shows something: one of its characters is not white space. *)
Definition row_visible (r : pystr) : Prop :=
  exists c, In c r /\ py_isspace c = false.

(** A sprite is tight and rectangular: its rows have one common length,
    some row fills that length without padding, and its first and last
    rows show something. *)
Definition sprite_well_formed (sprite : list pystr) : Prop :=
  (exists n, Forall (fun r => len r = n) sprite /\
             (sprite <> [] -> Exists (fun r => len (rstrip r) = n) sprite)) /\
  (forall r, hd_error sprite = Some r -> row_visible r) /\
  (forall r, hd_error (rev sprite) = Some r -> row_visible r).

(** No row of the mask is shorter than the first. *)
Definition rows_reach_first {A : Type} (mask : list (list A)) : Prop :=
  forall line, In line mask ->
    (match mask with [] => O | first :: _ => length first end
     <= length line)%nat.

(** The buffer has [height] rows of [width] cells. *)
Definition screen_dims (width height : Z) (buffer : screen) : Prop :=
  length buffer = Z.to_nat height /\
  Forall (fun row => length row = Z.to_nat width) buffer.

(** A row of the screen that shows [text] from its first column on, blank
    cells after it. *)
Definition text_row (width : Z) (text : pystr) : list pystr :=
  map (fun ch => [ch]) text
  ++ repeat [space] (Z.to_nat width - length text).

(** The sprite of the particle has the rows and columns its stored height
    and width announce, so that [draw_frame] can index it. *)
Definition drawable (p : Heart.t) : Prop :=
  forall r, 0 <= r < Heart.h p ->
    exists row, nth_error (Heart.sprite p) (Z.to_nat r) = Some row /\
                Heart.w p <= len row.

(** The text [draw_frame] writes over row 0: the title line when
    [len(title) + 22 < width], the short hint otherwise, cut to the width. *)
Definition hud_text (width : Z) : pystr :=
  slice_to
    (if len title + 22 <? width
     then (ESC :: py "[96m") ++ title ++ RESET
          ++ py "  |  Press Ctrl+C to exit"
     else py "Press Ctrl+C to exit")
    width.

(** The message with its colour code before it and the reset after it. *)
Definition msg_colored (m : pystr) : pystr := (ESC :: py "[95m") ++ m ++ RESET.

(** The text [draw_frame] writes over row 1: nothing for no message or an
    empty one. *)
Definition message_text (msg : option pystr) (width : Z) : pystr :=
  match msg with
  | Some ((_ :: _) as m) => slice_to (center_text (msg_colored m) width) width
  | _ => []
  end.

(** The rows reserved for the title and the message. *)
Definition hud_rows_of (b : screen) : option (list pystr) * option (list pystr)
  := (nth_error b 0, nth_error b 1).

(** An environment whose intro is already over at its first clock reading
    and whose main loop is interrupted during the sleep of iteration [n]. *)
Definition short_run (n : nat) : run_env :=
  {| intro_start := 0;
     intro_ticks := quiet_tick 7;
     anim_start := 7;
     main_ticks := main_ticks (interrupted_at n) |}.

(** No exception outside the loops. *)
Definition quiet_guard : guard_env :=
  {| setup_fault := None; handler_fault := None; finally_fault := None |}.

(** The [finally] block got its write through: no fault, or a fault after
    the write. *)
Definition teardown_written (genv : guard_env) : bool :=
  match finally_fault genv with
  | Some (O, _) => false
  | _ => true
  end.

(** A particle at column 10, row 2, falling 0.2 cells per tick. *)
Definition falling_heart : Heart.t :=
  Heart.mk 10 2.0 (ESC :: py "[38;5;198m") 0.2 (py "small") (py "filled")
    [[0x2665%N]] 1 1 0 100.

(** An environment whose clock advances by 3.5 seconds per iteration of the
    intro, without any exception. *)
Definition coarse_clock : run_env :=
  {| intro_start := 0;
     intro_ticks := fun i => quiet_tick 0 (49 * i);
     anim_start := 7;
     main_ticks := quiet_tick 7 |}.

(** The index [i] is next to the middle of a grid of [n] cells: with the
    middle of the frame at [(n - 1) / 2], these are the cell that contains
    it and the cell before it. *)
Definition near_centre (n i : Z) : Prop := n - 3 <= 2 * i <= n.

(** A row of a sprite is padded: what follows its last visible character
    are the spaces that bring it to the length [n]. *)
Definition padded_to (n : Z) (r : pystr) : Prop :=
  len r = n /\ r = rstrip r ++ repeat space (Z.to_nat (n - len (rstrip r))).

(** The three events of a frame whose text is [text]. *)
Definition frame_events (text : pystr) : list event :=
  [Write (CSI ++ py "H" ++ CSI ++ py "2J"); Write text; Flush].

(** [text] is the text of a frame that [draw_frame] builds from a drawable
    live set on the terminal of the tick [e]. *)
Definition frame_text_at (e : tick_env) (text : pystr) : Prop :=
  exists hs msg,
    Forall drawable hs /\
    draw_frame hs msg (fst (env_draw_size e)) (snd (env_draw_size e))
    = Some (frame_events text).

(** [texts] are the texts of the frames of the main-loop iterations
    [i], [i + 1], ... in this order. *)
Fixpoint frames_from (env : run_env) (i : nat) (texts : list pystr) : Prop :=
  match texts with
  | [] => True
  | text :: rest =>
      frame_text_at (main_ticks env i) text /\ frames_from env (S i) rest
  end.

(** The environment raises a [KeyboardInterrupt] outside the loops. *)
Definition interrupt_outside (genv : guard_env) : Prop :=
  exists k, setup_fault genv = Some (k, KeyboardInterrupt) \/
            handler_fault genv = Some (k, KeyboardInterrupt) \/
            finally_fault genv = Some (k, KeyboardInterrupt).

(** A guard whose handler cannot write the exit message (a device that
    cannot encode its last character). *)
Definition mute_handler : guard_env :=
  {| setup_fault := None;
     handler_fault := Some (O, OtherError "UnicodeEncodeError");
     finally_fault := None |}.

(** * Properties *)

(** ** Arithmetic of the embedding *)

Lemma Qlt_bool_iff (a b : Q) : Qlt_bool a b = true <-> (a < b)%Q.
Proof.
  unfold Qlt_bool. rewrite negb_true_iff.
  split; intro Hab.
  - apply Qnot_le_lt. intro Hle. apply Qle_bool_iff in Hle. congruence.
  - destruct (Qle_bool b a) eqn:E; [|reflexivity].
    apply Qle_bool_iff in E. exfalso. exact (Qlt_not_le _ _ Hab E).
Qed.

Lemma Qlt_bool_false_iff (a b : Q) : Qlt_bool a b = false <-> (b <= a)%Q.
Proof.
  unfold Qlt_bool. rewrite negb_false_iff. apply Qle_bool_iff.
Qed.

(** For a non-negative number, [int] is the floor: the top row is at least
    [height] exactly when the position is. *)
Lemma py_int_ge_iff (q : Q) (height : Z) :
  (0 <= q)%Q -> (height <= py_int q <-> (inject_Z height <= q)%Q).
Proof.
  destruct q as [n d]. unfold py_int, Qle, inject_Z. simpl.
  intro Hn. rewrite Z.mul_1_r in Hn.
  assert (Hd : 0 < Z.pos d) by lia.
  rewrite Z.quot_div_nonneg by lia.
  rewrite Z.mul_1_r.
  split; intro Hh.
  - pose proof (Z.mul_div_le n (Z.pos d) Hd). nia.
  - apply Z.div_le_lower_bound; lia.
Qed.

Lemma range_length (n : Z) : length (range n) = Z.to_nat n.
Proof. unfold range. now rewrite length_map, length_seq. Qed.

Lemma In_range (n i : Z) : In i (range n) <-> 0 <= i < n.
Proof.
  unfold range. rewrite in_map_iff. split.
  - intros [k [<- Hk]]. apply in_seq in Hk. lia.
  - intros Hi. exists (Z.to_nat i). split; [lia|]. apply in_seq. lia.
Qed.

(** ** The overlap test *)

Lemma hearts_overlap_sym (a b : Heart.t) :
  hearts_overlap a b = hearts_overlap b a.
Proof.
  unfold hearts_overlap. cbv zeta. f_equal.
  rewrite !Z.gtb_ltb.
  repeat match goal with
         | |- context [?u <? ?v] => destruct (Z.ltb_spec u v)
         end; simpl; try reflexivity; lia.
Qed.

Lemma hearts_overlap_true_iff (a b : Heart.t) :
  hearts_overlap a b = true <->
  box_left b <= box_right a /\ box_left a <= box_right b /\
  box_top b <= box_bottom a /\ box_top a <= box_bottom b.
Proof.
  unfold hearts_overlap, box_right, box_bottom, box_left, box_top. cbv zeta.
  rewrite negb_true_iff, !orb_false_iff, !Z.gtb_ltb, !Z.ltb_ge. tauto.
Qed.

Lemma hearts_overlap_refl_iff (a : Heart.t) :
  hearts_overlap a a = true <-> 0 <= Heart.w a /\ 0 <= Heart.h a.
Proof.
  rewrite hearts_overlap_true_iff. unfold box_right, box_bottom. lia.
Qed.

(** ** The concrete generator meets the contract *)

Lemma lcg_random_range (g : Z) :
  (0 <= fst (lcg_random g))%Q /\ (fst (lcg_random g) < 1)%Q.
Proof.
  unfold lcg_random, Qle, Qlt. simpl.
  pose proof (Z.mod_pos_bound g 1000 ltac:(lia)). lia.
Qed.

Lemma lcg_pick_in {A : Type} `{Default A} (l : list A) (g : Z) :
  l <> [] -> In (fst (lcg_pick l g)) l.
Proof.
  intro Hl. unfold lcg_pick, len. simpl. apply nth_In.
  assert (0 < length l)%nat by (destruct l; [congruence | simpl; lia]).
  pose proof (Z.mod_pos_bound g (Z.of_nat (length l)) ltac:(lia)). lia.
Qed.

#[export] Instance RandomSpec_lcg : RandomSpec Z.
Proof.
  constructor.
  - exact lcg_random_range.
  - intros a b g Hab.
    pose proof (lcg_random_range g) as [H0 H1].
    simpl in *. set (u := Qmake (g mod 1000) 1000) in *.
    assert (Hd : (0 <= b - a)%Q) by lra.
    pose proof (Qmult_le_0_compat _ _ Hd H0) as Hp.
    assert (Hq : (u * (b - a) <= 1 * (b - a))%Q).
    { apply Qmult_le_compat_r; [now apply Qlt_le_weak | exact Hd]. }
    split; lra.
  - intros A d l g Hl. simpl. now apply lcg_pick_in.
Qed.

(** ** Loops over the generator *)

Lemma for_each_app {G A S : Type} (l1 l2 : list A) (body : S -> A -> Rand G S)
    (s : S) (g : G) :
  for_each (l1 ++ l2) body s g =
  let (s', g') := for_each l1 body s g in for_each l2 body s' g'.
Proof.
  revert s g. induction l1 as [|a l1 IH]; intros s g; simpl.
  - reflexivity.
  - unfold bind. destruct (body s a g) as [s1 g1]. apply IH.
Qed.

Lemma map_rand_Forall {G A B : Type} (f : A -> Rand G B) (P : A -> Prop)
    (R : B -> Prop) :
  (forall a g, P a -> R (fst (f a g))) ->
  forall l g, Forall P l -> Forall R (fst (map_rand f l g)).
Proof.
  intros Hf l. induction l as [|a l IH]; intros g Hl; simpl.
  - constructor.
  - inversion Hl as [|? ? Ha Hl']; subst. unfold bind.
    pose proof (Hf a g Ha) as Hb.
    destruct (f a g) as [b g1]. specialize (IH g1 Hl').
    destruct (map_rand f l g1) as [bs g2]. simpl in *.
    constructor; assumption.
Qed.

Lemma map_rand_In {G A B : Type} (f : A -> Rand G B) (l : list A) (g : G)
    (b : B) :
  In b (fst (map_rand f l g)) -> exists a g', In a l /\ b = fst (f a g').
Proof.
  revert g. induction l as [|a l IH]; intros g; simpl.
  - intros [].
  - unfold bind. destruct (f a g) as [b1 g1] eqn:E.
    specialize (IH g1). destruct (map_rand f l g1) as [bs g2]. simpl in *.
    intros [<- | Hin].
    + exists a, g. rewrite E. auto.
    + destruct (IH Hin) as [a' [g' [Ha' Hb]]]. exists a', g'. auto.
Qed.

(** ** The live set without overlap *)

Lemma no_overlap_snoc (hs : list Heart.t) (c : Heart.t) :
  no_overlap hs -> collision c hs = false -> no_overlap (hs ++ [c]).
Proof.
  intros Hno Hc. unfold collision in Hc.
  assert (Hall : forall q, In q hs -> hearts_overlap c q = false).
  { intros q Hq. destruct (hearts_overlap c q) eqn:E; [|reflexivity].
    assert (existsb (fun e => hearts_overlap c e) hs = true)
      by (apply existsb_exists; eauto).
    congruence. }
  intros i j p q Hij Hi Hj.
  destruct (Nat.lt_ge_cases i (length hs)) as [Hli | Hli];
  destruct (Nat.lt_ge_cases j (length hs)) as [Hlj | Hlj].
  - rewrite nth_error_app1 in Hi, Hj by assumption. eapply Hno; eauto.
  - rewrite nth_error_app1 in Hi by assumption.
    rewrite nth_error_app2 in Hj by assumption.
    destruct (j - length hs)%nat as [|k] eqn:Ek; simpl in Hj.
    + inversion Hj; subst q. rewrite hearts_overlap_sym. apply Hall.
      eapply nth_error_In; eauto.
    + destruct k; discriminate.
  - rewrite nth_error_app2 in Hi by assumption.
    rewrite nth_error_app1 in Hj by assumption.
    destruct (i - length hs)%nat as [|k] eqn:Ek; simpl in Hi.
    + inversion Hi; subst p. apply Hall. eapply nth_error_In; eauto.
    + destruct k; discriminate.
  - rewrite nth_error_app2 in Hi, Hj by assumption.
    destruct (i - length hs)%nat as [|k] eqn:Eki; simpl in Hi;
      [|destruct k; discriminate].
    destruct (j - length hs)%nat as [|k] eqn:Ekj; simpl in Hj;
      [|destruct k; discriminate].
    lia.
Qed.

Section SpawnFacts.

Context {G : Type} `{Random G}.

Lemma new_heart_shape (now : Q) (col : Z) (g : G) :
  let c := fst (new_heart now col g) in
  Heart.x c = col /\ Heart.y c = 2.0%Q /\ Heart.h c = 1 /\
  exists ch, Heart.sprite c = [ch] /\ Heart.w c = len ch.
Proof.
  unfold new_heart, bind, ret.
  repeat match goal with
         | |- context [let (_, _) := ?d in _] => destruct d
         end.
  simpl. repeat split; eauto.
Qed.

(** The three ways a column's trial can end: no trial, a candidate dropped
    on a collision, a candidate appended. *)
Lemma spawn_column_cases (now chance : Q) (hs : list Heart.t) (col : Z) (g : G) :
  fst (spawn_column now chance hs col g) = hs \/
  exists g', let c := fst (new_heart now col g') in
    (fst (random g) < chance)%Q /\ collision c hs = false /\
    fst (spawn_column now chance hs col g) = hs ++ [c].
Proof.
  unfold spawn_column, bind, ret.
  destruct (random g) as [u g1]. simpl fst.
  destruct (Qlt_bool u chance) eqn:Eu; [|now left].
  destruct (new_heart now col g1) as [c g2] eqn:Ec.
  destruct (collision c hs) eqn:Ecol; simpl; [now left|].
  right. exists g1. rewrite Ec. simpl.
  repeat split; auto. now apply Qlt_bool_iff.
Qed.

(** What a pass over a list of columns does to the live set: it appends
    candidates, at most one per column, each free of collision with
    everything that was live when it was tested. *)
Lemma spawn_columns_spec (now chance : Q) (cols : list Z) :
  forall (hs : list Heart.t) (g : G),
  exists added,
    fst (for_each cols (spawn_column now chance) hs g) = hs ++ added /\
    (length added <= length cols)%nat /\
    Forall (candidate_of now) added /\
    (no_overlap hs -> no_overlap (hs ++ added)).
Proof.
  induction cols as [|col cols IH]; intros hs g.
  - exists []. simpl. rewrite app_nil_r. repeat split; auto.
  - simpl. unfold bind.
    destruct (spawn_column_cases now chance hs col g) as [Hsame | Hnew].
    + destruct (spawn_column now chance hs col g) as [hs1 g1]. simpl in Hsame.
      subst hs1. destruct (IH hs g1) as [added [H1 [H2 [H3 H4]]]].
      exists added. repeat split; auto.
    + destruct Hnew as [g' [_ [Hcol Hnew]]].
      destruct (spawn_column now chance hs col g) as [hs1 g1]. simpl in Hnew.
      subst hs1. destruct (IH (hs ++ [fst (new_heart now col g')]) g1)
        as [added [H1 [H2 [H3 H4]]]].
      exists (fst (new_heart now col g') :: added).
      rewrite <- app_assoc in H1, H4. simpl in H1, H4.
      repeat split; auto.
      * simpl. lia.
      * constructor; [exists col, g'; reflexivity | assumption].
      * intros Hno. apply H4. now apply no_overlap_snoc.
Qed.

Lemma spawn_none_when_chance_zero (now chance : Q) (cols : list Z) :
  (forall g, (0 <= fst (random g))%Q) -> (chance <= 0)%Q ->
  forall (hs : list Heart.t) (g : G),
    fst (for_each cols (spawn_column now chance) hs g) = hs.
Proof.
  intros Hr Hc. induction cols as [|col cols IH]; intros hs g; simpl.
  - reflexivity.
  - unfold bind.
    destruct (spawn_column_cases now chance hs col g) as [Hsame | Hnew].
    + destruct (spawn_column now chance hs col g) as [hs1 g1]. simpl in Hsame.
      subst hs1. apply IH.
    + destruct Hnew as [g' [Hlt _]]. specialize (Hr g). lra.
Qed.

End SpawnFacts.

(** ** The spawn ramp *)

Lemma spawn_chance_per_col_eq (t : Q) :
  spawn_chance_per_col t =
  py_min target_spawn_chance_per_col
    (target_spawn_chance_per_col * (t / ramp_duration))%Q.
Proof. reflexivity. Qed.

Lemma py_min_cases (a b : Q) :
  ((b < a)%Q /\ py_min a b = b) \/ ((a <= b)%Q /\ py_min a b = a).
Proof.
  unfold py_min. destruct (Qlt_bool b a) eqn:E.
  - left. split; [now apply Qlt_bool_iff | reflexivity].
  - right. split; [now apply Qlt_bool_false_iff | reflexivity].
Qed.

Lemma ramp_fraction (t : Q) : (t / ramp_duration == t * 0.1)%Q.
Proof. unfold ramp_duration. field. Qed.

Lemma spawn_chance_le_target (t : Q) :
  (spawn_chance_per_col t <= target_spawn_chance_per_col)%Q.
Proof.
  rewrite spawn_chance_per_col_eq.
  destruct (py_min_cases target_spawn_chance_per_col
              (target_spawn_chance_per_col * (t / ramp_duration))%Q)
    as [[Hlt ->] | [Hle ->]].
  - now apply Qlt_le_weak.
  - apply Qle_refl.
Qed.

Lemma spawn_chance_at_zero (t : Q) :
  (t == 0)%Q -> (spawn_chance_per_col t == 0)%Q.
Proof.
  intro Ht. rewrite spawn_chance_per_col_eq.
  destruct (py_min_cases target_spawn_chance_per_col
              (target_spawn_chance_per_col * (t / ramp_duration))%Q)
    as [[Hlt ->] | [Hle ->]].
  - rewrite ramp_fraction, Ht. unfold target_spawn_chance_per_col. field.
  - rewrite ramp_fraction, Ht in Hle.
    unfold target_spawn_chance_per_col in Hle. lra.
Qed.

Lemma spawn_chance_after_ramp (t : Q) :
  (ramp_duration <= t)%Q ->
  spawn_chance_per_col t = target_spawn_chance_per_col.
Proof.
  intro Ht. rewrite spawn_chance_per_col_eq.
  destruct (py_min_cases target_spawn_chance_per_col
              (target_spawn_chance_per_col * (t / ramp_duration))%Q)
    as [[Hlt ->] | [Hle ->]]; [|reflexivity].
  rewrite ramp_fraction in Hlt.
  unfold target_spawn_chance_per_col, ramp_duration in *. lra.
Qed.

Lemma spawn_chance_linear (t : Q) :
  (0 <= t)%Q ->
  (spawn_chance_per_col t ==
   target_spawn_chance_per_col * Qmin 1 (t / ramp_duration))%Q.
Proof.
  intro Ht. rewrite spawn_chance_per_col_eq.
  destruct (py_min_cases target_spawn_chance_per_col
              (target_spawn_chance_per_col * (t / ramp_duration))%Q)
    as [[Hlt ->] | [Hle ->]];
  destruct (Q.min_spec 1 (t / ramp_duration)) as [[Hm ->] | [Hm ->]];
  rewrite ?ramp_fraction in *;
  unfold target_spawn_chance_per_col in *; lra.
Qed.

(** ** The particle update *)

Lemma advance_spec {G : Type} `{Random G} (now : Q) (p : Heart.t) (g : G) :
  let q := fst (advance now p g) in
  Heart.x q = Heart.x p /\ Heart.color q = Heart.color p /\
  Heart.speed q = Heart.speed p /\ Heart.size q = Heart.size p /\
  Heart.style q = Heart.style p /\ Heart.sprite q = Heart.sprite p /\
  Heart.w q = Heart.w p /\ Heart.h q = Heart.h p /\
  Heart.y q = (Heart.y p + Heart.speed p)%Q.
Proof.
  unfold advance, bind, ret. simpl.
  destruct (Qle_bool (Heart.twinkle_next p) now).
  - destruct (choice [0; 1; 2] g) as [ph g1].
    destruct (uniform 0.15 0.6 g1) as [d g2]. simpl. tauto.
  - simpl. tauto.
Qed.

Lemma new_heart_speed {G : Type} `{RandomSpec G} (now : Q) (col : Z) (g : G) :
  (0 < Heart.speed (fst (new_heart now col g)))%Q.
Proof.
  unfold new_heart, bind, ret.
  destruct (choices [py "small"; py "medium"] [6; 4] g) as [sz g1].
  destruct (choices [py "filled"; py "outline"] [6; 4] g1) as [sty g2].
  match goal with
  | |- context [let (_, _) := ?d in _] => destruct d as [ch g3]
  end.
  destruct (pystr_eqb sz (py "small")).
  - pose proof (uniform_range base_min_speed (base_min_speed + 0.08)%Q g3)
      as Hu.
    destruct (uniform base_min_speed (base_min_speed + 0.08)%Q g3) as [sp g4].
    repeat match goal with
           | |- context [let (_, _) := ?d in _] => destruct d
           end.
    simpl in *. unfold base_min_speed in Hu.
    destruct Hu as [Hlo _]; lra.
  - pose proof (uniform_range (base_min_speed + 0.06)%Q
                  (base_min_speed + 0.22)%Q g3) as Hu.
    destruct (uniform (base_min_speed + 0.06)%Q (base_min_speed + 0.22)%Q g3)
      as [sp g4].
    repeat match goal with
           | |- context [let (_, _) := ?d in _] => destruct d
           end.
    simpl in *. unfold base_min_speed in Hu.
    destruct Hu as [Hlo _]; lra.
Qed.

Lemma tick_unfold {G : Type} `{Random G} (start now : Q) (width height : Z)
    (hs : list Heart.t) (g : G) :
  fst (tick start now width height hs g) =
  fst (spawn_pass now (spawn_chance_per_col (now - start)) width
         (cull height (fst (step_hearts now hs g)))
         (snd (step_hearts now hs g))).
Proof.
  unfold tick, bind. destruct (step_hearts now hs g) as [st g1]. reflexivity.
Qed.

Lemma cull_In (height : Z) (hs : list Heart.t) (p : Heart.t) :
  In p (cull height hs) <-> In p hs /\ (Heart.y p < inject_Z height)%Q.
Proof.
  unfold cull. rewrite filter_In, Qlt_bool_iff. tauto.
Qed.

(** ** The simulation: overlap, cull, ramp, spawn, velocity *)

(** C4.  The overlap test is symmetric: [hearts_overlap(A, B)] equals
    [hearts_overlap(B, A)] for all particles.  It is reflexive: a particle
    overlaps itself.  The width and height of a particle are the dimensions
    of its sprite, hence not negative, which is all reflexivity needs; every
    particle that the spawn code builds overlaps itself, and so does every
    particle of the live set after any iteration of the main loop, when that
    held before. *)
Theorem overlap_symmetric_and_reflexive {G : Type} `{Random G} :
  (forall a b : Heart.t, hearts_overlap a b = hearts_overlap b a) /\
  (forall a : Heart.t,
     0 <= Heart.w a -> 0 <= Heart.h a -> hearts_overlap a a = true) /\
  (forall (now : Q) (col : Z) (g : G),
     hearts_overlap (fst (new_heart now col g)) (fst (new_heart now col g))
     = true) /\
  (forall (start now : Q) (width height : Z) (hs : list Heart.t) (g : G),
     Forall (fun p => hearts_overlap p p = true) hs ->
     Forall (fun p => hearts_overlap p p = true)
       (fst (tick start now width height hs g))).
Proof.
  assert (Hnew : forall now col (g : G),
            hearts_overlap (fst (new_heart now col g))
              (fst (new_heart now col g)) = true).
  { intros now col g. apply hearts_overlap_refl_iff.
    destruct (new_heart_shape now col g) as [_ [_ [Hh [ch [_ Hw]]]]].
    rewrite Hh, Hw. unfold len. lia. }
  split; [exact hearts_overlap_sym|].
  split; [intros a Hw Hh; now apply hearts_overlap_refl_iff|].
  split; [exact Hnew|].
  intros start now width height hs g Hall.
  rewrite tick_unfold. unfold spawn_pass.
  destruct (spawn_columns_spec now (spawn_chance_per_col (now - start))
              (range width) (cull height (fst (step_hearts now hs g)))
              (snd (step_hearts now hs g))) as [added [-> [_ [Hc _]]]].
  apply Forall_app. split.
  - unfold cull. apply Forall_forall. intros q Hq.
    apply filter_In in Hq. destruct Hq as [Hq _].
    apply map_rand_In in Hq. destruct Hq as [a [g' [Ha ->]]].
    rewrite Forall_forall in Hall. specialize (Hall a Ha).
    apply hearts_overlap_refl_iff in Hall.
    apply hearts_overlap_refl_iff.
    destruct (advance_spec now a g')
      as [_ [_ [_ [_ [_ [_ [Hw [Hh _]]]]]]]].
    rewrite Hw, Hh. exact Hall.
  - eapply Forall_impl; [|exact Hc].
    intros c [col [g' ->]]. apply Hnew.
Qed.

Lemma overlap_symmetric_and_reflexive_witness :
  hearts_overlap (heart_at 4) (heart_at 7)
  = hearts_overlap (heart_at 7) (heart_at 4) /\
  hearts_overlap (heart_at 4) (heart_at 4) = true /\
  Forall (fun p => hearts_overlap p p = true)
    (fst (tick 7 8 20 10 [heart_at 4] 42)).
Proof.
  destruct (@overlap_symmetric_and_reflexive Z Random_lcg)
    as [Hsym [Hrefl [_ Htick]]].
  split; [apply Hsym|]. split.
  - apply Hrefl; intro Hgt; discriminate Hgt.
  - apply Htick. constructor; [|constructor].
    apply Hrefl; intro Hgt; discriminate Hgt.
Defined.

(** C10.  Two particles whose boxes only touch (the left column of [b] is
    the left column of [a] plus the width of [a], same top row) share no
    screen cell and are still reported as overlapping; and a spawn trial in
    a column next to a live one-cell particle of row 2 is rejected, so the
    live set is left unchanged by that column. *)
Theorem touching_boxes_overlap {G : Type} `{RandomSpec G} :
  (forall a b : Heart.t,
     0 <= Heart.w a -> 0 <= Heart.h a -> 0 <= Heart.w b -> 0 <= Heart.h b ->
     box_left b = box_left a + Heart.w a -> box_top a = box_top b ->
     hearts_overlap a b = true /\
     forall r c, ~ (occupies a r c /\ occupies b r c)) /\
  (forall (now chance : Q) (hs : list Heart.t) (col : Z) (g : G) (q : Heart.t),
     In q hs -> Heart.w q = 1 -> Heart.h q = 1 -> box_top q = 2 ->
     Heart.x q = col - 1 \/ Heart.x q = col + 1 ->
     fst (spawn_column now chance hs col g) = hs).
Proof.
  split.
  - intros a b Hwa Hha Hwb Hhb Hl Ht. split.
    + apply hearts_overlap_true_iff. unfold box_right, box_bottom. lia.
    + unfold occupies. intros r c [[_ [_ Hca]] [_ [Hcb _]]]. lia.
  - intros now chance hs col g q Hq Hw Hh Htop Hx.
    destruct (spawn_column_cases now chance hs col g) as [Hsame | Hnew];
      [exact Hsame|].
    destruct Hnew as [g' [_ [Hcol _]]]. exfalso.
    assert (Hov : hearts_overlap (fst (new_heart now col g')) q = true).
    { assert (Hglyph : exists ch, In ch (HEARTS_SMALL ++ HEARTS_MED) /\
                Heart.sprite (fst (new_heart now col g')) = [ch] /\
                Heart.w (fst (new_heart now col g')) = len ch).
      { unfold new_heart, bind, ret.
        destruct (choices [py "small"; py "medium"] [6; 4] g') as [sz g1].
        destruct (choices [py "filled"; py "outline"] [6; 4] g1) as [sty g2].
        assert (Hch : forall pool, pool = HEARTS_SMALL \/ pool = HEARTS_MED ->
                  In (fst (choice pool g2)) (HEARTS_SMALL ++ HEARTS_MED)).
        { intros pool [-> | ->]; apply in_or_app; [left | right];
            apply choice_in; discriminate. }
        destruct (pystr_eqb sz (py "small")).
        - destruct (pystr_eqb sty (py "outline"));
            [pose proof (Hch HEARTS_SMALL (or_introl eq_refl)) as Hin
            |pose proof (Hch HEARTS_MED (or_intror eq_refl)) as Hin];
            match goal with
            | |- context [let (_, _) := choice ?pool g2 in _] =>
                destruct (choice pool g2) as [ch g3]
            end;
            repeat match goal with
                   | |- context [let (_, _) := ?d in _] => destruct d
                   end; simpl in *; eauto.
        - pose proof (Hch HEARTS_MED (or_intror eq_refl)) as Hin.
          destruct (choice HEARTS_MED g2) as [ch g3].
          repeat match goal with
                 | |- context [let (_, _) := ?d in _] => destruct d
                 end; simpl in *; eauto. }
      destruct Hglyph as [ch [Hin [_ Hwc]]].
      assert (Hone : len ch = 1).
      { simpl in Hin.
        repeat (destruct Hin as [<- | Hin]; [reflexivity|]). destruct Hin. }
      destruct (new_heart_shape now col g') as [Hx' [Hy' [Hh' _]]].
      apply hearts_overlap_true_iff.
      unfold box_right, box_bottom, box_left, box_top in *.
      rewrite Hwc, Hone, Hx', Hy', Hh', Hw, Hh, Htop.
      change (py_int 2.0) with 2. change (1 / 2) with 0. lia. }
    unfold collision in Hcol.
    assert (existsb (fun e => hearts_overlap (fst (new_heart now col g')) e) hs
            = true) by (apply existsb_exists; eauto).
    congruence.
Qed.

Lemma touching_boxes_overlap_witness :
  (hearts_overlap (heart_at 4) (heart_at 5) = true /\
   forall r c, ~ (occupies (heart_at 4) r c /\ occupies (heart_at 5) r c)) /\
  fst (spawn_column 0 1 [heart_at 4] 5 42) = [heart_at 4].
Proof.
  destruct (@touching_boxes_overlap Z Random_lcg RandomSpec_lcg) as [Ha Hb].
  split.
  - apply Ha; simpl; try lia; reflexivity.
  - apply (Hb 0%Q 1%Q [heart_at 4] 5 42 (heart_at 4)).
    + left; reflexivity.
    + reflexivity.
    + reflexivity.
    + reflexivity.
    + left; reflexivity.
Defined.

(** C1.  A spawn-planning pass started on a live set without overlap ends
    on a live set without overlap.  The pass only appends to the live set,
    at most one particle per column; every trial either leaves the live
    set as it is (no trial, or a candidate dropped) or appends a candidate
    that collides with nothing live at that moment, the particles accepted
    earlier in the pass included. *)
Theorem spawn_pass_keeps_no_overlap {G : Type} `{Random G}
    (now chance : Q) (width : Z) (hs : list Heart.t) (g : G) :
  no_overlap hs ->
  no_overlap (fst (spawn_pass now chance width hs g)) /\
  (exists added,
     fst (spawn_pass now chance width hs g) = hs ++ added /\
     (length added <= Z.to_nat width)%nat /\
     Forall (candidate_of now) added) /\
  (forall live col g',
     fst (spawn_column now chance live col g') = live \/
     exists c, candidate_of now c /\ collision c live = false /\
       fst (spawn_column now chance live col g') = live ++ [c]).
Proof.
  intro Hno. unfold spawn_pass.
  destruct (spawn_columns_spec now chance (range width) hs g)
    as [added [H1 [H2 [H3 H4]]]].
  repeat split.
  - rewrite H1. now apply H4.
  - exists added. rewrite range_length in H2. auto.
  - intros live col g'.
    destruct (spawn_column_cases now chance live col g') as [Hs | [g2 Hn]];
      [now left | right].
    exists (fst (new_heart now col g2)). destruct Hn as [_ [Hc He]].
    repeat split; auto. now exists col, g2.
Qed.

Lemma no_overlap_single (p : Heart.t) : no_overlap [p].
Proof.
  intros i j a b Hij Hi Hj.
  destruct i as [|i]; destruct j as [|j]; simpl in *;
    try congruence; try (destruct i; discriminate);
    try (destruct j; discriminate).
Qed.

Lemma spawn_pass_keeps_no_overlap_witness :
  no_overlap (fst (spawn_pass 0 1 6 [heart_at 1] 42)).
Proof.
  apply (@spawn_pass_keeps_no_overlap Z Random_lcg 0%Q 1%Q 6 [heart_at 1] 42).
  apply no_overlap_single.
Defined.

(** C2.  With [t] the time since the animation started, the spawn chance
    per column is [target * min(1, t / ramp_duration)] for [t >= 0]; it is
    zero at [t = 0], where a spawn pass adds nothing whatever the generator
    draws; it is at most the target for every [t]; and it is the target
    itself from [t = ramp_duration] on. *)
Theorem spawn_chance_ramp {G : Type} `{RandomSpec G} :
  (forall t : Q, (0 <= t)%Q ->
     (spawn_chance_per_col t ==
      target_spawn_chance_per_col * Qmin 1 (t / ramp_duration))%Q) /\
  (forall t : Q, (t == 0)%Q ->
     (spawn_chance_per_col t == 0)%Q /\
     forall (now : Q) (width : Z) (hs : list Heart.t) (g : G),
       fst (spawn_pass now (spawn_chance_per_col t) width hs g) = hs) /\
  (forall t : Q, (0 <= t)%Q ->
     (spawn_chance_per_col t <= target_spawn_chance_per_col)%Q) /\
  (forall t : Q, (ramp_duration <= t)%Q ->
     spawn_chance_per_col t = target_spawn_chance_per_col).
Proof.
  repeat split.
  - exact spawn_chance_linear.
  - now apply spawn_chance_at_zero.
  - intros now width hs g. unfold spawn_pass.
    apply spawn_none_when_chance_zero.
    + intro g0. apply random_range.
    + rewrite spawn_chance_at_zero by assumption. apply Qle_refl.
  - intros t _. apply spawn_chance_le_target.
  - exact spawn_chance_after_ramp.
Qed.

Lemma spawn_chance_ramp_witness :
  (spawn_chance_per_col 5 ==
   target_spawn_chance_per_col * Qmin 1 (5 / ramp_duration))%Q /\
  fst (spawn_pass 7 (spawn_chance_per_col (7 - 7)) 80 [heart_at 1] 42)
  = [heart_at 1] /\
  (spawn_chance_per_col 5 <= target_spawn_chance_per_col)%Q /\
  spawn_chance_per_col 12 = target_spawn_chance_per_col.
Proof.
  destruct (@spawn_chance_ramp Z Random_lcg RandomSpec_lcg)
    as [Hlin [Hzero [Hle Hramp]]].
  split; [|split; [|split]].
  - apply (Hlin 5%Q). discriminate.
  - apply (Hzero (7 - 7)%Q). reflexivity.
  - apply (Hle 5%Q). discriminate.
  - apply (Hramp 12%Q). discriminate.
Defined.

(** C3.  After the update, a particle of non-negative vertical position
    whose top row has reached the grid height is not in the culled live
    set, nor in the live set at the end of the iteration; a particle whose
    top row is above the grid height is in both. *)
Theorem cull_by_top_row {G : Type} `{Random G}
    (start now : Q) (width height : Z) (hs : list Heart.t) (g : G)
    (p : Heart.t) :
  In p (fst (step_hearts now hs g)) -> (0 <= Heart.y p)%Q ->
  (height <= box_top p ->
     ~ In p (cull height (fst (step_hearts now hs g))) /\
     (2 < height -> ~ In p (fst (tick start now width height hs g)))) /\
  (box_top p < height ->
     In p (cull height (fst (step_hearts now hs g))) /\
     In p (fst (tick start now width height hs g))).
Proof.
  intros Hin Hy.
  pose proof (py_int_ge_iff (Heart.y p) height Hy) as Hfloor.
  fold (box_top p) in Hfloor.
  rewrite tick_unfold. unfold spawn_pass.
  destruct (spawn_columns_spec now (spawn_chance_per_col (now - start))
              (range width) (cull height (fst (step_hearts now hs g)))
              (snd (step_hearts now hs g))) as [added [-> [_ [Hc _]]]].
  split; intro Htop.
  - assert (Hout : ~ In p (cull height (fst (step_hearts now hs g)))).
    { rewrite cull_In. intros [_ Hlt]. apply Hfloor in Htop. lra. }
    split; [exact Hout|].
    intros Hh Hp. apply in_app_or in Hp. destruct Hp as [Hp | Hp]; [tauto|].
    rewrite Forall_forall in Hc. destruct (Hc p Hp) as [col [g' ->]].
    destruct (new_heart_shape now col g') as [_ [Hy2 _]].
    unfold box_top in Htop. rewrite Hy2 in Htop.
    change (py_int 2.0) with 2 in Htop. lia.
  - assert (Hkeep : In p (cull height (fst (step_hearts now hs g)))).
    { rewrite cull_In. split; [exact Hin|].
      apply Qnot_le_lt. intro Hle. apply Hfloor in Hle. lia. }
    split; [exact Hkeep|]. apply in_or_app. now left.
Qed.

Lemma cull_by_top_row_witness :
  In (Heart.step (heart_at 3))
     (fst (tick 0 1 80 24 [heart_at 3] 42)) /\
  ~ In (Heart.step (heart_at 3))
       (cull 2 (fst (step_hearts 1 [heart_at 3] 42))).
Proof.
  pose proof (@cull_by_top_row Z Random_lcg 0%Q 1%Q 80 24 [heart_at 3] 42
                (Heart.step (heart_at 3))) as Hlive.
  pose proof (@cull_by_top_row Z Random_lcg 0%Q 1%Q 80 2 [heart_at 3] 42
                (Heart.step (heart_at 3))) as Hdead.
  assert (Hin : In (Heart.step (heart_at 3))
                  (fst (step_hearts 1 [heart_at 3] 42)))
    by (left; reflexivity).
  assert (Hy : (0 <= Heart.y (Heart.step (heart_at 3)))%Q) by discriminate.
  destruct (Hlive Hin Hy) as [_ Hbelow].
  destruct (Hdead Hin Hy) as [Habove _].
  split.
  - destruct Hbelow as [_ Hkept]; [reflexivity | exact Hkept].
  - destruct Habove as [Hgone _]; [discriminate | exact Hgone].
Defined.

(** C9.  Every particle is built with a velocity above zero; [Heart.step]
    and the update of the main loop change the vertical position (by the
    velocity) and the twinkle state only; so every particle of the live set
    has a velocity above zero after any iteration, when that held before. *)
Theorem velocity_positive_and_constant {G : Type} `{RandomSpec G} :
  (forall (now : Q) (col : Z) (g : G),
     (0 < Heart.speed (fst (new_heart now col g)))%Q) /\
  (forall p : Heart.t,
     Heart.speed (Heart.step p) = Heart.speed p /\
     Heart.y (Heart.step p) = (Heart.y p + Heart.speed p)%Q) /\
  (forall (now : Q) (p : Heart.t) (g : G),
     let q := fst (advance now p g) in
     Heart.x q = Heart.x p /\ Heart.color q = Heart.color p /\
     Heart.speed q = Heart.speed p /\ Heart.size q = Heart.size p /\
     Heart.style q = Heart.style p /\ Heart.sprite q = Heart.sprite p /\
     Heart.w q = Heart.w p /\ Heart.h q = Heart.h p /\
     Heart.y q = (Heart.y p + Heart.speed p)%Q) /\
  (forall (start now : Q) (width height : Z) (hs : list Heart.t) (g : G),
     Forall (fun p => (0 < Heart.speed p)%Q) hs ->
     Forall (fun p => (0 < Heart.speed p)%Q)
       (fst (tick start now width height hs g))).
Proof.
  split; [|split; [|split]].
  - intros now col g. apply new_heart_speed.
  - intro p. split; reflexivity.
  - intros now p g. apply advance_spec.
  - intros start now width height hs g Hall.
    rewrite tick_unfold. unfold spawn_pass.
    destruct (spawn_columns_spec now (spawn_chance_per_col (now - start))
                (range width) (cull height (fst (step_hearts now hs g)))
                (snd (step_hearts now hs g))) as [added [-> [_ [Hc _]]]].
    apply Forall_app. split.
    + unfold cull. apply Forall_forall. intros q Hq.
      apply filter_In in Hq. destruct Hq as [Hq _].
      apply map_rand_In in Hq. destruct Hq as [a [g' [Ha ->]]].
      destruct (advance_spec now a g') as [_ [_ [-> _]]].
      rewrite Forall_forall in Hall. now apply Hall.
    + eapply Forall_impl; [|exact Hc].
      intros c [col [g' ->]]. apply new_heart_speed.
Qed.

Lemma velocity_positive_and_constant_witness :
  (0 < Heart.speed (fst (new_heart 0 3 42%Z)))%Q /\
  Forall (fun p => (0 < Heart.speed p)%Q)
    (fst (tick 0 1 80 24 [heart_at 3] 42%Z)).
Proof.
  destruct (@velocity_positive_and_constant Z Random_lcg RandomSpec_lcg)
    as [Hnew [_ [_ Htick]]].
  split.
  - apply Hnew.
  - apply Htick. constructor; [reflexivity | constructor].
Defined.

(** ** Stripping and trimming *)

Lemma drop_while_nil_iff {A : Type} (f : A -> bool) (l : list A) :
  drop_while f l = [] <-> forallb f l = true.
Proof.
  induction l as [|a l IH]; simpl.
  - tauto.
  - destruct (f a); simpl; [exact IH | split; discriminate].
Qed.

Lemma drop_while_head {A : Type} (f : A -> bool) (l : list A) (a : A)
    (rest : list A) :
  drop_while f l = a :: rest -> f a = false.
Proof.
  induction l as [|b l IH]; simpl; [discriminate|].
  destruct (f b) eqn:E; [exact IH|].
  intro Heq. inversion Heq; subst. exact E.
Qed.

Lemma drop_while_suffix {A : Type} (f : A -> bool) (l : list A) :
  exists pre, l = pre ++ drop_while f l /\ forallb f pre = true.
Proof.
  induction l as [|a l [pre [IH1 IH2]]]; simpl.
  - exists []. auto.
  - destruct (f a) eqn:E.
    + exists (a :: pre). simpl. rewrite E, IH2. split; [congruence | reflexivity].
    + exists []. auto.
Qed.

Lemma forallb_rev {A : Type} (f : A -> bool) (l : list A) :
  forallb f (rev l) = forallb f l.
Proof.
  induction l as [|a l IH]; simpl; [reflexivity|].
  rewrite forallb_app, IH. simpl. rewrite andb_true_r. apply andb_comm.
Qed.

(** What [rstrip] returns is a prefix of its argument, the rest being white
    space, and it does not end in white space. *)
Lemma rstrip_prefix (s : pystr) :
  exists suf, s = rstrip s ++ suf /\ forallb py_isspace suf = true.
Proof.
  unfold rstrip.
  destruct (drop_while_suffix py_isspace (rev s)) as [pre [H1 H2]].
  exists (rev pre). split.
  - rewrite <- rev_app_distr, <- H1. now rewrite rev_involutive.
  - now rewrite forallb_rev.
Qed.

Lemma rstrip_nil_iff (s : pystr) :
  rstrip s = [] <-> forallb py_isspace s = true.
Proof.
  unfold rstrip. rewrite <- forallb_rev, <- drop_while_nil_iff.
  split; intro Hs.
  - apply (f_equal (@rev N)) in Hs. now rewrite rev_involutive in Hs.
  - now rewrite Hs.
Qed.

Lemma rstrip_last_visible (s : pystr) (c : N) (rest : list N) :
  rev (rstrip s) = c :: rest -> py_isspace c = false.
Proof.
  unfold rstrip. rewrite rev_involutive. apply drop_while_head.
Qed.

(** [row.strip() == ""] holds exactly for the rows of white space. *)
Lemma blank_row_iff (s : pystr) :
  blank_row s = true <-> forallb py_isspace s = true.
Proof.
  unfold blank_row, strip, lstrip.
  assert (Heqb : forall t, pystr_eqb t [] = true <-> t = []).
  { intros [|a t]; simpl; split; congruence. }
  rewrite Heqb. split; intro Hs.
  - apply drop_while_nil_iff in Hs.
    destruct (rev (rstrip s)) as [|c rest] eqn:E.
    + apply (f_equal (@rev N)) in E. rewrite rev_involutive in E. simpl in E.
      now apply rstrip_nil_iff.
    + pose proof (rstrip_last_visible s c rest E) as Hc.
      rewrite <- forallb_rev, E in Hs. simpl in Hs. rewrite Hc in Hs.
      discriminate.
  - apply rstrip_nil_iff in Hs. now rewrite Hs.
Qed.

Lemma not_blank_visible (s : pystr) : blank_row s = false -> row_visible s.
Proof.
  intro Hb. unfold row_visible.
  destruct (forallb py_isspace s) eqn:E.
  - apply blank_row_iff in E. congruence.
  - clear Hb. induction s as [|a s IH]; simpl in E; [discriminate|].
    destruct (py_isspace a) eqn:Ea.
    + destruct (IH E) as [c [Hc1 Hc2]]. exists c. simpl. auto.
    + exists a. simpl. auto.
Qed.

Lemma pop_leading_head (rows : list pystr) (r : pystr) :
  hd_error (pop_leading rows) = Some r -> blank_row r = false.
Proof.
  unfold pop_leading. destruct (drop_while blank_row rows) as [|a rest] eqn:E;
    simpl; [discriminate|].
  intro Hr. inversion Hr; subst. eapply drop_while_head; eauto.
Qed.

Lemma pop_trailing_last (rows : list pystr) (r : pystr) :
  hd_error (rev (pop_trailing rows)) = Some r -> blank_row r = false.
Proof.
  unfold pop_trailing. rewrite rev_involutive.
  destruct (drop_while blank_row (rev rows)) as [|a rest] eqn:E;
    simpl; [discriminate|].
  intro Hr. inversion Hr; subst. eapply drop_while_head; eauto.
Qed.

Lemma pop_trailing_prefix (rows : list pystr) :
  exists suf, rows = pop_trailing rows ++ suf.
Proof.
  unfold pop_trailing.
  destruct (drop_while_suffix blank_row (rev rows)) as [pre [H1 _]].
  exists (rev pre). rewrite <- rev_app_distr, <- H1.
  now rewrite rev_involutive.
Qed.

Lemma pop_trailing_head (rows : list pystr) (r : pystr) :
  hd_error (pop_trailing rows) = Some r -> hd_error rows = Some r.
Proof.
  destruct (pop_trailing_prefix rows) as [suf Hs].
  destruct (pop_trailing rows) as [|a rest]; simpl; [discriminate|].
  intro Hr. rewrite Hs. exact Hr.
Qed.

Lemma drop_while_idem {A : Type} (f : A -> bool) (l : list A) :
  drop_while f (drop_while f l) = drop_while f l.
Proof.
  induction l as [|a l IH]; simpl; [reflexivity|].
  destruct (f a) eqn:E; [exact IH|]. simpl. now rewrite E.
Qed.

Lemma rstrip_idem (s : pystr) : rstrip (rstrip s) = rstrip s.
Proof.
  unfold rstrip. rewrite rev_involutive. now rewrite drop_while_idem.
Qed.

Lemma rev_repeat {A : Type} (a : A) (k : nat) : rev (repeat a k) = repeat a k.
Proof.
  induction k as [|k IH]; simpl; [reflexivity|].
  rewrite IH. clear IH. induction k as [|k IH]; simpl; [reflexivity|].
  now rewrite IH.
Qed.

Lemma rstrip_padding (s : pystr) (k : nat) :
  rstrip (s ++ repeat space k) = rstrip s.
Proof.
  unfold rstrip. rewrite rev_app_distr, rev_repeat. f_equal.
  induction k as [|k IH]; simpl; [reflexivity | exact IH].
Qed.

(** ** Loops that may raise *)

Lemma for_opt_invariant {A S : Type} (P : S -> Prop) (l : list A)
    (body : S -> A -> option S) :
  (forall s a s1, In a l -> P s -> body s a = Some s1 -> P s1) ->
  forall s s', P s -> for_opt l body s = Some s' -> P s'.
Proof.
  induction l as [|a l IH]; intros Hb s s' Hs; simpl.
  - intro Heq. inversion Heq; subst. exact Hs.
  - destruct (body s a) as [s1|] eqn:E; [|discriminate].
    apply IH.
    + intros s0 a0 s2 Ha0. apply Hb. now right.
    + eapply Hb; eauto. now left.
Qed.

Lemma for_opt_total {A S : Type} (l : list A) (body : S -> A -> option S) :
  (forall s a, In a l -> exists s1, body s a = Some s1) ->
  forall s, exists s', for_opt l body s = Some s'.
Proof.
  induction l as [|a l IH]; intros Hb s; simpl.
  - eauto.
  - destruct (Hb s a (or_introl eq_refl)) as [s1 ->].
    apply IH. intros s0 a0 Ha0. apply Hb. now right.
Qed.

Lemma for_opt_raises {A S : Type} (l : list A) (body : S -> A -> option S)
    (a : A) :
  In a l -> (forall s, body s a = None) -> forall s, for_opt l body s = None.
Proof.
  induction l as [|b l IH]; intros Ha Hb s; simpl; [destruct Ha|].
  destruct Ha as [-> | Ha].
  - now rewrite Hb.
  - destruct (body s b); [now apply IH | reflexivity].
Qed.

Lemma getitem_in_range {A : Type} (l : list A) (i : Z) :
  0 <= i < len l ->
  exists a, getitem l i = Some a /\ nth_error l (Z.to_nat i) = Some a.
Proof.
  intros Hi. unfold getitem.
  destruct (Z.ltb_spec i 0) as [Hneg|_]; [lia|].
  destruct (Z.leb_spec 0 i) as [_|Hneg]; [|lia].
  destruct (Z.ltb_spec i (len l)) as [_|Hbig]; [|lia]. simpl.
  destruct (nth_error l (Z.to_nat i)) as [a|] eqn:E; [eauto|].
  apply nth_error_None in E. unfold len in Hi. lia.
Qed.

Lemma getitem_beyond {A : Type} (l : list A) (i : Z) :
  len l <= i -> getitem l i = None.
Proof.
  intros Hi. unfold getitem. unfold len in *.
  destruct (Z.ltb_spec i 0) as [Hneg|_]; [lia|].
  destruct (Z.ltb_spec i (Z.of_nat (length l))) as [Hbig|_]; [lia|].
  now rewrite andb_false_r.
Qed.

(** ** The widest row *)

Lemma fold_left_max_spec (l : list Z) (a : Z) :
  a <= fold_left Z.max l a /\
  (forall z, In z l -> z <= fold_left Z.max l a) /\
  In (fold_left Z.max l a) (a :: l).
Proof.
  revert a. induction l as [|b l IH]; intro a; simpl.
  - split; [lia|]. split; [tauto | auto].
  - destruct (IH (Z.max a b)) as [H1 [H2 H3]].
    split; [lia|]. split.
    + intros z [<- | Hz]; [lia | now apply H2].
    + destruct H3 as [H3 | H3]; [|tauto].
      destruct (Z.max_spec a b) as [[_ Hm] | [_ Hm]]; rewrite Hm in *; auto.
Qed.

Lemma max_default_ge (l : list Z) (d z : Z) :
  In z l -> z <= max_default l d.
Proof.
  destruct l as [|a l]; simpl; [tauto|].
  destruct (fold_left_max_spec l a) as [H1 [H2 _]].
  intros [<- | Hz]; auto.
Qed.

Lemma max_default_attained (l : list Z) (d : Z) :
  l <> [] -> In (max_default l d) l.
Proof.
  destruct l as [|a l]; simpl; [congruence|].
  intros _. apply fold_left_max_spec.
Qed.

(** ** Sprites *)

Lemma len_app {A : Type} (l1 l2 : list A) : len (l1 ++ l2) = len l1 + len l2.
Proof. unfold len. rewrite length_app. lia. Qed.

Lemma len_pad_row (n : Z) (r : pystr) : len r <= n -> len (pad_row n r) = n.
Proof.
  intro Hr. unfold pad_row. rewrite len_app. unfold len at 2.
  rewrite repeat_length. lia.
Qed.

Lemma pad_row_visible (n : Z) (r : pystr) :
  row_visible r -> row_visible (pad_row n r).
Proof.
  intros [c [Hc1 Hc2]]. exists c. split; [|exact Hc2].
  unfold pad_row. apply in_or_app. now left.
Qed.

Lemma pop_leading_incl (rows : list pystr) (r : pystr) :
  In r (pop_leading rows) -> In r rows.
Proof.
  unfold pop_leading.
  destruct (drop_while_suffix blank_row rows) as [pre [H1 _]].
  intro Hr. rewrite H1. apply in_or_app. now right.
Qed.

Lemma pop_trailing_incl (rows : list pystr) (r : pystr) :
  In r (pop_trailing rows) -> In r rows.
Proof.
  destruct (pop_trailing_prefix rows) as [suf Hs].
  intro Hr. rewrite Hs. apply in_or_app. now left.
Qed.

(** Trimming blank rows at both ends and padding to the widest row gives a
    well-formed sprite, when the rows were right-stripped. *)
Lemma trim_and_pad_well_formed (rows : list pystr) :
  Forall (fun r => rstrip r = r) rows ->
  sprite_well_formed
    (map (pad_row (max_default (map len (pop_trailing (pop_leading rows))) 0))
         (pop_trailing (pop_leading rows))).
Proof.
  intro Hstripped.
  set (t := pop_trailing (pop_leading rows)).
  set (n := max_default (map len t) 0).
  assert (Hle : forall r, In r t -> len r <= n).
  { intros r Hr. apply max_default_ge. now apply in_map. }
  assert (Hin : forall r, In r t -> rstrip r = r).
  { intros r Hr. rewrite Forall_forall in Hstripped. apply Hstripped.
    apply pop_leading_incl. now apply pop_trailing_incl. }
  split; [|split].
  - exists n. split.
    + apply Forall_forall. intros r' Hr'. apply in_map_iff in Hr'.
      destruct Hr' as [r [<- Hr]]. apply len_pad_row. now apply Hle.
    + intro Hne. assert (Ht : map len t <> []).
      { destruct t; [exfalso; now apply Hne | discriminate]. }
      pose proof (max_default_attained (map len t) 0 Ht) as Hmax.
      fold n in Hmax. apply in_map_iff in Hmax. destruct Hmax as [r [Hlen Hr]].
      apply Exists_exists. exists (pad_row n r). split; [now apply in_map|].
      unfold pad_row. rewrite rstrip_padding, (Hin r Hr). exact Hlen.
  - intros r' Hr'. destruct t as [|r0 t'] eqn:Et; simpl in Hr'; [discriminate|].
    inversion Hr'; subst r'. apply pad_row_visible, not_blank_visible.
    apply (pop_leading_head rows). apply pop_trailing_head.
    fold t. now rewrite Et.
  - intros r' Hr'. rewrite <- map_rev in Hr'.
    destruct (rev t) as [|r0 t'] eqn:Et; simpl in Hr'; [discriminate|].
    inversion Hr'; subst r'. apply pad_row_visible, not_blank_visible.
    apply (pop_trailing_last (pop_leading rows)). fold t. now rewrite Et.
Qed.

Lemma sprite_row_stripped (mask : list (list Q)) (style : pystr) (w r : Z)
    (row : pystr) :
  sprite_row mask style w r = Some row -> rstrip row = row.
Proof.
  unfold sprite_row.
  match goal with |- context [for_opt ?l ?b ?s] => destruct (for_opt l b s) end;
    [|discriminate].
  intro Heq. inversion Heq. apply rstrip_idem.
Qed.

Lemma mask_to_sprite_well_formed (mask : list (list Q)) (style : pystr)
    (sprite : list pystr) :
  mask_to_sprite mask style = Some sprite -> sprite_well_formed sprite.
Proof.
  unfold mask_to_sprite. cbv zeta.
  match goal with
  | |- context [for_opt ?l ?b ?s] => destruct (for_opt l b s) as [rows|] eqn:E
  end; [|discriminate].
  intro Heq. inversion Heq; subst sprite. apply trim_and_pad_well_formed.
  revert E. apply for_opt_invariant; [|constructor].
  intros rows0 r rows1 _ Hrows0.
  destruct (sprite_row mask style _ r) as [row|] eqn:Er; [|discriminate].
  intro Heq1. inversion Heq1; subst rows1.
  apply Forall_app. split; [exact Hrows0|].
  constructor; [|constructor]. eapply sprite_row_stripped; eauto.
Qed.

Lemma sprite_row_total (mask : list (list Q)) (style : pystr) (w r : Z)
    (line : list Q) :
  nth_error mask (Z.to_nat r) = Some line -> 0 <= r < len mask ->
  w <= len line -> exists row, sprite_row mask style w r = Some row.
Proof.
  intros Hline Hr Hw. unfold sprite_row.
  destruct (for_opt_total (range w)
              (fun line_chars c =>
                 match getitem mask r with
                 | Some line =>
                     match getitem line c with
                     | Some cov =>
                         Some (line_chars ++ [char_from_coverage cov style])
                     | None => None
                     end
                 | None => None
                 end)) with (s := @nil N) as [chars ->]; [|eauto].
  intros s c Hc. apply In_range in Hc.
  destruct (getitem_in_range mask r Hr) as [line' [-> Hn]].
  assert (line' = line) by congruence. subst line'.
  destruct (getitem_in_range line c ltac:(lia)) as [cov [-> _]]. eauto.
Qed.

Lemma sprite_row_raises (mask : list (list Q)) (style : pystr) (w r : Z)
    (line : list Q) :
  nth_error mask (Z.to_nat r) = Some line -> 0 <= r < len mask ->
  len line < w -> sprite_row mask style w r = None.
Proof.
  intros Hline Hr Hw. unfold sprite_row.
  rewrite (for_opt_raises (range w) _ (len line)); [reflexivity| |].
  - apply In_range. unfold len in *. lia.
  - intro s. destruct (getitem_in_range mask r Hr) as [line' [-> Hn]].
    assert (line' = line) by congruence. subst line'.
    rewrite getitem_beyond; [reflexivity | lia].
Qed.

Lemma mask_to_sprite_total_iff (mask : list (list Q)) (style : pystr) :
  (exists sprite, mask_to_sprite mask style = Some sprite) <->
  rows_reach_first mask.
Proof.
  unfold mask_to_sprite, rows_reach_first. cbv zeta.
  set (w := match mask with [] => 0 | line :: _ => len line end).
  assert (Hw : w = Z.of_nat
                     match mask with [] => O | first :: _ => length first end).
  { unfold w. destruct mask; reflexivity. }
  split.
  - intros [sprite Hs] line Hin.
    destruct (Nat.le_gt_cases
                match mask with [] => O | first :: _ => length first end
                (length line)) as [Hle | Hgt]; [exact Hle | exfalso].
    apply In_nth_error in Hin. destruct Hin as [k Hk].
    assert (Hklt : (k < length mask)%nat)
      by (apply nth_error_Some; congruence).
    rewrite (for_opt_raises (range (len mask)) _ (Z.of_nat k)) in Hs;
      [discriminate| |].
    + apply In_range. unfold len. lia.
    + intro s. rewrite (sprite_row_raises mask style w (Z.of_nat k) line);
        [reflexivity | now rewrite Nat2Z.id | unfold len; lia
        | unfold len; lia].
  - intro Hreach.
    destruct (for_opt_total (range (len mask))
                (fun rows r =>
                   match sprite_row mask style w r with
                   | Some row => Some (rows ++ [row])
                   | None => None
                   end)) with (s := @nil pystr) as [rows ->]; [|eauto].
    intros s r Hr. apply In_range in Hr.
    destruct (getitem_in_range mask r Hr) as [line [_ Hn]].
    destruct (sprite_row_total mask style w r line Hn Hr) as [row ->];
      [|eauto].
    apply nth_error_In in Hn. specialize (Hreach line Hn).
    unfold len. lia.
Qed.

Lemma heart_mask_shape (width height : Z) :
  length (heart_mask width height) = Z.to_nat height /\
  forall line, In line (heart_mask width height) ->
    length line = Z.to_nat width.
Proof.
  unfold heart_mask. split.
  - now rewrite length_map, range_length.
  - intros line Hin. apply in_map_iff in Hin. destruct Hin as [r [<- _]].
    now rewrite length_map, range_length.
Qed.

Lemma heart_mask_rows_reach_first (width height : Z) :
  rows_reach_first (heart_mask width height).
Proof.
  intros line Hin.
  destruct (heart_mask_shape width height) as [_ Hrows].
  rewrite (Hrows line Hin).
  destruct (heart_mask width height) as [|first rest] eqn:E; [lia|].
  rewrite (Hrows first); [lia | now left].
Qed.

(** ** The rasterizer: what it returns and when it raises *)

(** X1.  [mask_to_sprite] raises (an index out of range) exactly when some row of
    the mask is shorter than the first row; rows longer than the first are
    read up to the width of the first. *)
Theorem mask_to_sprite_raises_iff_short_row (mask : list (list Q))
    (style : pystr) :
  mask_to_sprite mask style = None <-> ~ rows_reach_first mask.
Proof.
  split.
  - intros Hnone Hreach.
    apply (mask_to_sprite_total_iff mask style) in Hreach.
    destruct Hreach as [sprite Hs]. rewrite Hnone in Hs. discriminate.
  - intro Hno. destruct (mask_to_sprite mask style) as [sprite|] eqn:E;
      [|reflexivity].
    exfalso. apply Hno. apply (mask_to_sprite_total_iff mask style). eauto.
Qed.

(** X2.  Whatever the mask and the style, a sprite returned by [mask_to_sprite]
    has rows of one common length, reached by some row without padding, and
    its first and last rows are not blank. *)
Theorem mask_to_sprite_is_tight (mask : list (list Q)) (style : pystr)
    (sprite : list pystr) :
  mask_to_sprite mask style = Some sprite -> sprite_well_formed sprite.
Proof.
  unfold mask_to_sprite. cbv zeta.
  match goal with
  | |- context [for_opt ?l ?b ?s] => destruct (for_opt l b s) as [rows|] eqn:E
  end; [|discriminate].
  intro Heq. inversion Heq; subst sprite. apply trim_and_pad_well_formed.
  revert E. apply for_opt_invariant; [|constructor].
  intros rows0 r rows1 _ Hrows0.
  destruct (sprite_row mask style _ r) as [row|] eqn:Er; [|discriminate].
  intro Heq1. inversion Heq1; subst rows1.
  apply Forall_app. split; [exact Hrows0|].
  constructor; [|constructor]. eapply sprite_row_stripped; eauto.
Qed.

Lemma mask_to_sprite_is_tight_witness :
  sprite_well_formed
    [[fill_char; mid_char; space]; [space; space; space];
     [space; fill_char; fill_char]].
Proof.
  apply (mask_to_sprite_is_tight
           [[0; 0; 0; 0]; [0.7; 0.5; 0; 0]; [0; 0.1; 0; 0]; [0; 1; 0.9; 0];
            [0.2; 0; 0; 0]]%Q (py "filled")).
  reflexivity.
Defined.

(** X3.  [make_heart_sprite] never raises, and for every size and style (the
    three size classes, filled or outline) its sprite has rows of one
    common length and no blank first or last row. *)
Theorem make_heart_sprite_well_formed (size style : pystr) :
  exists sprite,
    make_heart_sprite size style = Some sprite /\ sprite_well_formed sprite.
Proof.
  unfold make_heart_sprite.
  destruct (if pystr_eqb size (py "small") then (9, 8)
            else if pystr_eqb size (py "medium") then (13, 11) else (17, 15))
    as [w h].
  destruct (proj2 (mask_to_sprite_total_iff (heart_mask w h) style)
              (heart_mask_rows_reach_first w h)) as [sprite Hs].
  exists sprite. split; [exact Hs|].
  eapply mask_to_sprite_well_formed; eauto.
Qed.

(** The rows that [mask_to_sprite] trims and pads are right-stripped. *)
Lemma mask_to_sprite_rows (mask : list (list Q)) (style : pystr)
    (sprite : list pystr) :
  mask_to_sprite mask style = Some sprite ->
  exists rows,
    Forall (fun r => rstrip r = r) rows /\
    sprite
    = map (pad_row (max_default (map len (pop_trailing (pop_leading rows))) 0))
          (pop_trailing (pop_leading rows)).
Proof.
  unfold mask_to_sprite. cbv zeta.
  match goal with
  | |- context [for_opt ?l ?b ?s] => destruct (for_opt l b s) as [rows|] eqn:E
  end; [|discriminate].
  intro Heq. inversion Heq; subst sprite. exists rows. split; [|reflexivity].
  revert E. apply for_opt_invariant; [|constructor].
  intros rows0 r rows1 _ Hrows0.
  destruct (sprite_row mask style _ r) as [row|] eqn:Er; [|discriminate].
  intro Heq1. inversion Heq1; subst rows1.
  apply Forall_app. split; [exact Hrows0|].
  constructor; [|constructor]. eapply sprite_row_stripped; eauto.
Qed.

Lemma trim_and_pad_padded (rows : list pystr) :
  Forall (fun r => rstrip r = r) rows ->
  Forall (padded_to (max_default (map len (pop_trailing (pop_leading rows))) 0))
    (map (pad_row (max_default (map len (pop_trailing (pop_leading rows))) 0))
         (pop_trailing (pop_leading rows))).
Proof.
  intro Hstripped.
  set (t := pop_trailing (pop_leading rows)).
  set (n := max_default (map len t) 0).
  apply Forall_forall. intros r' Hr'. apply in_map_iff in Hr'.
  destruct Hr' as [r [<- Hr]].
  assert (Hle : len r <= n) by (apply max_default_ge; now apply in_map).
  assert (Hs : rstrip r = r).
  { rewrite Forall_forall in Hstripped. apply Hstripped.
    apply pop_leading_incl. now apply pop_trailing_incl. }
  split; [now apply len_pad_row|].
  unfold pad_row. now rewrite rstrip_padding, Hs.
Qed.

(** C5.  For every size class and every style (the dimension pairs 9x8,
    13x11 and 17x15, filled or outline: any other size string is the large
    class, any other style string is filled), the rasterizer returns a
    sprite whose first row and last row are not fully transparent, and
    whose rows all have the same length [n]: each row is its right-stripped
    text followed by the spaces that bring it to [n], and [n] is the length
    of the widest stripped row. *)
Theorem heart_sprites_trimmed_and_padded (size style : pystr) :
  exists sprite n,
    make_heart_sprite size style = Some sprite /\
    (forall r, hd_error sprite = Some r -> row_visible r) /\
    (forall r, hd_error (rev sprite) = Some r -> row_visible r) /\
    Forall (padded_to n) sprite /\
    (sprite <> [] -> Exists (fun r => len (rstrip r) = n) sprite).
Proof.
  unfold make_heart_sprite.
  destruct (if pystr_eqb size (py "small") then (9, 8)
            else if pystr_eqb size (py "medium") then (13, 11) else (17, 15))
    as [w h].
  destruct (proj2 (mask_to_sprite_total_iff (heart_mask w h) style)
              (heart_mask_rows_reach_first w h)) as [sprite Hs].
  destruct (mask_to_sprite_rows _ _ _ Hs) as [rows [Hstripped Hsprite]].
  pose proof (trim_and_pad_well_formed rows Hstripped) as Hwf.
  pose proof (trim_and_pad_padded rows Hstripped) as Hpad.
  rewrite <- Hsprite in Hwf, Hpad.
  destruct Hwf as [[n' [Hlen Hfull]] [Hfirst Hlast]].
  exists sprite, (max_default (map len (pop_trailing (pop_leading rows))) 0).
  split; [exact Hs|]. split; [exact Hfirst|]. split; [exact Hlast|].
  split; [exact Hpad|].
  intro Hne. specialize (Hfull Hne).
  destruct sprite as [|r0 rest]; [now elim Hne|].
  assert (Hn : n' = max_default (map len (pop_trailing (pop_leading rows))) 0).
  { inversion Hlen as [|? ? H0 _]; subst.
    inversion Hpad as [|? ? [Hp0 _] _]; subst. congruence. }
  now rewrite <- Hn.
Qed.

(** ** Coverage *)

Lemma count_fold_spec {A : Type} (f : A -> bool) (l : list A) (n : Z) :
  fold_left (fun count a => if f a then count + 1 else count) l n
  = n + len (filter f l).
Proof.
  revert n. induction l as [|a l IH]; intro n; simpl.
  - unfold len. simpl. lia.
  - rewrite IH. destruct (f a); unfold len; simpl length; lia.
Qed.

Lemma nested_count_bounds {A B : Type} (f : A -> B -> bool) (l1 : list A)
    (l2 : list B) (n : Z) :
  let total :=
    fold_left
      (fun count a =>
         fold_left (fun count b => if f a b then count + 1 else count) l2 count)
      l1 n in
  n <= total <= n + len l1 * len l2 /\
  (forall a b, In a l1 -> In b l2 -> f a b = true -> n < total).
Proof.
  revert n. induction l1 as [|a l1 IH]; intro n; cbv zeta; simpl fold_left.
  - split; [unfold len; simpl; lia | intros a b []].
  - rewrite count_fold_spec.
    destruct (IH (n + len (filter (f a) l2))) as [[H1 H2] H3].
    assert (Hf : 0 <= len (filter (f a) l2) <= len l2).
    { unfold len. pose proof (filter_length_le (f a) l2). lia. }
    split.
    + change (len (a :: l1)) with (Z.of_nat (S (length l1))).
      rewrite Nat2Z.inj_succ, Z.mul_succ_l. fold (len l1). lia.
    + intros a0 b [Ha0 | Ha0] Hb Hab.
      * subst a0.
        assert (0 < len (filter (f a) l2)).
        { assert (Hin : In b (filter (f a) l2)) by (apply filter_In; auto).
          unfold len. destruct (filter (f a) l2); [destruct Hin|].
          simpl length. lia. }
        lia.
      * specialize (H3 a0 b Ha0 Hb Hab). lia.
Qed.

Lemma len_range (n : Z) : 0 <= n -> len (range n) = n.
Proof. intro Hn. unfold len. rewrite range_length. lia. Qed.

Lemma inside_count_bounds (width height row col : Z) :
  let ss := if width <=? 9 then 4 else 3 in
  0 <= inside_count width height row col <= ss * ss /\
  (forall sr sc, 0 <= sr < ss -> 0 <= sc < ss ->
     sample_inside width height row col sr sc = true ->
     0 < inside_count width height row col).
Proof.
  cbv zeta. unfold inside_count.
  set (ss := if width <=? 9 then 4 else 3).
  assert (Hss : 0 <= ss) by (unfold ss; destruct (width <=? 9); lia).
  destruct (nested_count_bounds (sample_inside width height row col)
              (range ss) (range ss) 0) as [Hb Hpos].
  cbv zeta in Hb, Hpos. rewrite !len_range in Hb by assumption.
  split; [lia|].
  intros sr sc Hsr Hsc Hin. apply (Hpos sr sc); [| |exact Hin];
    now apply In_range.
Qed.

Lemma coverage_in_unit_interval (width height row col : Z) :
  (0 <= cell_coverage width height row col)%Q /\
  (cell_coverage width height row col <= 1)%Q.
Proof.
  unfold cell_coverage.
  destruct (inside_count_bounds width height row col) as [Hb _].
  cbv zeta in Hb.
  set (ss := if width <=? 9 then 4 else 3) in *.
  set (n := inside_count width height row col) in *.
  assert (Hss : 0 < ss * ss) by (unfold ss; destruct (width <=? 9); lia).
  assert (Hd : (0 < inject_Z (ss * ss))%Q)
    by (rewrite (Zlt_Qlt 0 (ss * ss)) in Hss; exact Hss).
  split.
  - apply Qle_shift_div_l; [exact Hd|]. rewrite Qmult_0_l.
    rewrite (Zle_Qle 0 n) in Hb. tauto.
  - apply Qle_shift_div_r; [exact Hd|]. rewrite Qmult_1_l.
    rewrite <- Zle_Qle. lia.
Qed.

Lemma coverage_positive (width height row col : Z) :
  0 < inside_count width height row col ->
  (0 < cell_coverage width height row col)%Q.
Proof.
  intro Hn. unfold cell_coverage.
  assert (Hss : 0 < (if width <=? 9 then 4 else 3)
                  * (if width <=? 9 then 4 else 3))
    by (destruct (width <=? 9); lia).
  apply Qlt_shift_div_l.
  - rewrite (Zlt_Qlt 0 _) in Hss. exact Hss.
  - rewrite Qmult_0_l. rewrite (Zlt_Qlt 0 _) in Hn. exact Hn.
Qed.

Lemma nth_error_range (n i : Z) :
  0 <= i < n -> nth_error (range n) (Z.to_nat i) = Some i.
Proof.
  intro Hi. unfold range.
  rewrite nth_error_map, nth_error_seq.
  destruct (Nat.ltb_spec (Z.to_nat i) (Z.to_nat n)) as [_|Hbad]; [|lia].
  simpl. f_equal. lia.
Qed.

Lemma heart_mask_cell (width height row col : Z) :
  0 <= row < height -> 0 <= col < width ->
  exists line,
    nth_error (heart_mask width height) (Z.to_nat row) = Some line /\
    nth_error line (Z.to_nat col) = Some (cell_coverage width height row col).
Proof.
  intros Hr Hc. unfold heart_mask.
  exists (map (fun col => cell_coverage width height row col) (range width)).
  split.
  - now rewrite nth_error_map, nth_error_range.
  - now rewrite nth_error_map, nth_error_range.
Qed.

(** ** The centre of the shape *)

Lemma sq_nonneg (q : Q) : (0 <= q * q)%Q.
Proof. nra. Qed.

Lemma abs_from_square (y : Q) :
  (y * y <= 1 # 4)%Q -> (- (1 # 2) <= y)%Q /\ (y <= 1 # 2)%Q.
Proof.
  intro Hy.
  pose proof (sq_nonneg (y + (1 # 2))) as H1.
  pose proof (sq_nonneg (y - (1 # 2))) as H2.
  assert (E1 : ((y + (1 # 2)) * (y + (1 # 2)) == y * y + y + (1 # 4))%Q)
    by ring.
  assert (E2 : ((y - (1 # 2)) * (y - (1 # 2)) == y * y - y + (1 # 4))%Q)
    by ring.
  rewrite E1 in H1. rewrite E2 in H2. split; lra.
Qed.

(** Every point of the square [|x| <= 1/2, |y| <= 1/2] satisfies the inside
    test, whatever the (non-negative) threshold. *)
Lemma heart_inside_small (x y th : Q) :
  (x * x <= 1 # 4)%Q -> (y * y <= 1 # 4)%Q -> (0 <= th)%Q ->
  heart_inside x y th = true.
Proof.
  intros Hx Hy Hth. unfold heart_inside. cbv zeta. apply Qle_bool_iff.
  destruct (abs_from_square y Hy) as [Hy1 Hy2].
  assert (Ha : (0 <= x * x)%Q) by apply sq_nonneg.
  assert (Hb : (0 <= y * y)%Q) by apply sq_nonneg.
  assert (Hp' : (x * x * (y * y * y) == (x * x) * (y * y) * y)%Q) by ring.
  rewrite Hp'.
  set (a := (x * x)%Q) in *. set (b := (y * y)%Q) in *.
  assert (Hab : (0 <= a * b)%Q) by (apply Qmult_le_0_compat; assumption).
  assert (Hab2 : (a * b <= (1 # 4) * (1 # 4))%Q).
  { apply Qmult_le_compat_nonneg; split; assumption. }
  set (ab := (a * b)%Q) in *.
  assert (Hp : (- (1 # 32) <= ab * y)%Q).
  { assert (0 <= ab * (y + (1 # 2)))%Q by (apply Qmult_le_0_compat; lra).
    assert (ab * (y + (1 # 2)) == ab * y + ab * (1 # 2))%Q by ring. lra. }
  set (v := (a + b - 1.0)%Q) in *.
  assert (Hv1 : (v <= - (1 # 2))%Q) by (unfold v; lra).
  assert (Hv0 : (- (1) <= v)%Q) by (unfold v; lra).
  assert (Hvv : ((1 # 4) <= v * v)%Q).
  { assert (0 <= (- v - (1 # 2)) * (- v + (1 # 2)))%Q
      by (apply Qmult_le_0_compat; lra).
    assert ((- v - (1 # 2)) * (- v + (1 # 2)) == v * v - (1 # 4))%Q by ring.
    lra. }
  assert (Hv3 : (v * v * v <= - (1 # 8))%Q).
  { assert (0 <= (v * v - (1 # 4)) * (- v))%Q
      by (apply Qmult_le_0_compat; lra).
    assert ((v * v - (1 # 4)) * (- v) == - (v * v * v) + (1 # 4) * v)%Q
      by ring.
    lra. }
  lra.
Qed.

Lemma quotient_small (N D : Q) :
  (4 <= D)%Q -> (- (7 # 4) <= N)%Q -> (N <= 7 # 4)%Q ->
  (- (7 # 16) <= N / D)%Q /\ (N / D <= 7 # 16)%Q.
Proof.
  intros HD HN1 HN2.
  assert (HD0 : ~ (D == 0)%Q) by lra.
  set (q := (N / D)%Q).
  assert (Hq : (q * D == N)%Q) by (unfold q; field; exact HD0).
  split.
  - destruct (Qlt_le_dec (q + (7 # 16)) 0) as [Hneg|Hok]; [exfalso | lra].
    assert (0 <= (- q - (7 # 16)) * (D - 4))%Q
      by (apply Qmult_le_0_compat; lra).
    assert ((- q - (7 # 16)) * (D - 4)
            == - (q * D) + 4 * q - (7 # 16) * D + (7 # 4))%Q by ring.
    lra.
  - destruct (Qlt_le_dec ((7 # 16) - q) 0) as [Hneg|Hok]; [exfalso | lra].
    assert (0 <= (q - (7 # 16)) * (D - 4))%Q
      by (apply Qmult_le_0_compat; lra).
    assert ((q - (7 # 16)) * (D - 4)
            == q * D - 4 * q - (7 # 16) * D + (7 # 4))%Q by ring.
    lra.
Qed.

Lemma scaled_square_small (q k : Q) :
  (- (7 # 16) <= q)%Q -> (q <= 7 # 16)%Q -> (0 <= k)%Q -> (k <= 1.121)%Q ->
  (q * k * (q * k) <= 1 # 4)%Q.
Proof.
  intros Hq1 Hq2 Hk1 Hk2.
  set (z := (q * k)%Q).
  assert (Hz1 : (z <= 1 # 2)%Q).
  { unfold z. destruct (Qlt_le_dec q 0) as [Hneg|Hpos].
    - assert (0 <= (- q) * k)%Q by (apply Qmult_le_0_compat; lra).
      assert ((- q) * k == - (q * k))%Q by ring. lra.
    - assert (q * k <= (7 # 16) * 1.121)%Q
        by (apply Qmult_le_compat_nonneg; split; lra).
      lra. }
  assert (Hz2 : (- (1 # 2) <= z)%Q).
  { unfold z. destruct (Qlt_le_dec q 0) as [Hneg|Hpos].
    - assert ((- q) * k <= (7 # 16) * 1.121)%Q
        by (apply Qmult_le_compat_nonneg; split; lra).
      assert ((- q) * k == - (q * k))%Q by ring. lra.
    - assert (0 <= q * k)%Q by (apply Qmult_le_0_compat; lra). lra. }
  assert (0 <= ((1 # 2) - z) * ((1 # 2) + z))%Q
    by (apply Qmult_le_0_compat; lra).
  assert (((1 # 2) - z) * ((1 # 2) + z) == (1 # 4) - z * z)%Q by ring.
  lra.
Qed.

(** The first sub-sample of a cell next to the middle of an axis of at least
    five cells lies within half a unit of the centre of the frame. *)
Lemma axis_offset_small (P W inv k : Q) :
  (5 <= W)%Q -> (W - 3 <= 2 * P)%Q -> (2 * P <= W)%Q ->
  ((1 # 4) <= inv)%Q -> (inv <= 1 # 3)%Q -> (0 <= k)%Q -> (k <= 1.121)%Q ->
  let u := ((P + (inject_Z 0 + 0.5) * inv) / py_max 1.0 (W - 1.0))%Q in
  ((-1.0 + 2.0 * u) * k * ((-1.0 + 2.0 * u) * k) <= 1 # 4)%Q /\
  ((1.0 - 2.0 * u) * k * ((1.0 - 2.0 * u) * k) <= 1 # 4)%Q.
Proof.
  intros HW HP1 HP2 Hi1 Hi2 Hk1 Hk2.
  assert (Hmax : py_max 1.0 (W - 1.0) = (W - 1.0)%Q).
  { unfold py_max.
    assert (Hlt : Qlt_bool 1.0 (W - 1.0) = true) by (apply Qlt_bool_iff; lra).
    now rewrite Hlt. }
  rewrite Hmax. cbv zeta.
  set (D := (W - 1.0)%Q).
  assert (HD : (4 <= D)%Q) by (unfold D; lra).
  assert (HD0 : ~ (D == 0)%Q) by lra.
  set (N := (2 * P + inv - D)%Q).
  assert (E1 : (-1.0 + 2.0 * ((P + (inject_Z 0 + 0.5) * inv) / D) == N / D)%Q)
    by (unfold N; field; exact HD0).
  assert (E2 : (1.0 - 2.0 * ((P + (inject_Z 0 + 0.5) * inv) / D)
               == - (N / D))%Q)
    by (unfold N; field; exact HD0).
  destruct (quotient_small N D HD) as [Hq1 Hq2];
    [unfold N, D; lra | unfold N, D; lra |].
  split.
  - rewrite E1. now apply scaled_square_small.
  - rewrite E2. apply scaled_square_small; lra.
Qed.

Lemma inject_Z_bounds (n i : Z) :
  5 <= n -> n - 3 <= 2 * i <= n ->
  (5 <= inject_Z n)%Q /\ (inject_Z n - 3 <= 2 * inject_Z i)%Q /\
  (2 * inject_Z i <= inject_Z n)%Q.
Proof.
  intros Hn Hi.
  assert (H5 : (inject_Z 5 <= inject_Z n)%Q) by (rewrite <- Zle_Qle; lia).
  assert (Hlo : (inject_Z (n + -3) <= inject_Z (2 * i))%Q)
    by (rewrite <- Zle_Qle; lia).
  assert (Hhi : (inject_Z (2 * i) <= inject_Z n)%Q)
    by (rewrite <- Zle_Qle; lia).
  rewrite inject_Z_plus, inject_Z_mult in Hlo. rewrite inject_Z_mult in Hhi.
  change (inject_Z 5) with 5%Q in H5.
  change (inject_Z 2) with 2%Q in Hlo, Hhi.
  change (inject_Z (-3)) with (-3)%Q in Hlo.
  repeat split; lra.
Qed.

Lemma sample_inside_centre (width height row col : Z) :
  5 <= width -> 5 <= height ->
  height - 3 <= 2 * row <= height -> width - 3 <= 2 * col <= width ->
  sample_inside width height row col 0 0 = true.
Proof.
  intros Hw Hh Hr Hc. unfold sample_inside. cbv zeta.
  destruct (inject_Z_bounds width col Hw Hc) as [HW [HC1 HC2]].
  destruct (inject_Z_bounds height row Hh Hr) as [HH [HR1 HR2]].
  assert (Hinv : ((1 # 4) <= 1.0 / inject_Z (if width <=? 9 then 4 else 3))%Q
                 /\ (1.0 / inject_Z (if width <=? 9 then 4 else 3) <= 1 # 3)%Q).
  { destruct (width <=? 9); split; apply Qle_bool_iff; reflexivity. }
  destruct Hinv as [Hi1 Hi2].
  assert (Hkx : (0 <= (if width <=? 9 then 1.18 else 1.12)
                      * (if width <=? 7 then 0.90 else 0.95))%Q
                /\ ((if width <=? 9 then 1.18 else 1.12)
                    * (if width <=? 7 then 0.90 else 0.95) <= 1.121)%Q).
  { destruct (width <=? 9); destruct (width <=? 7); split;
      apply Qle_bool_iff; reflexivity. }
  assert (Hky : (0 <= 1.0 * (if width <=? 7 then 0.90 else 0.95))%Q
                /\ (1.0 * (if width <=? 7 then 0.90 else 0.95) <= 1.121)%Q).
  { destruct (width <=? 7); split; apply Qle_bool_iff; reflexivity. }
  destruct Hkx as [Hkx1 Hkx2]. destruct Hky as [Hky1 Hky2].
  pose proof (axis_offset_small (inject_Z col) (inject_Z width) _ _
                HW HC1 HC2 Hi1 Hi2 Hkx1 Hkx2) as Hx.
  pose proof (axis_offset_small (inject_Z row) (inject_Z height) _ _
                HH HR1 HR2 Hi1 Hi2 Hky1 Hky2) as Hy.
  cbv zeta in Hx, Hy. destruct Hx as [Hx _]. destruct Hy as [_ Hy].
  apply heart_inside_small.
  - exact Hx.
  - exact Hy.
  - destruct (width <=? 7); apply Qle_bool_iff; reflexivity.
Qed.

(** ** The coverage mask *)

(** X4.  [heart_mask(width, height)] has [height] rows of [width] cells (none for
    a size that is not positive), and every coverage lies between 0 and 1. *)
Theorem heart_mask_is_a_coverage_grid (width height : Z) :
  length (heart_mask width height) = Z.to_nat height /\
  (forall line, In line (heart_mask width height) ->
     length line = Z.to_nat width /\
     forall cov, In cov line -> (0 <= cov)%Q /\ (cov <= 1)%Q).
Proof.
  destruct (heart_mask_shape width height) as [Hrows Hcols].
  split; [exact Hrows|].
  intros line Hin. split; [now apply Hcols|].
  intros cov Hcov. unfold heart_mask in Hin.
  apply in_map_iff in Hin. destruct Hin as [r [<- _]].
  apply in_map_iff in Hcov. destruct Hcov as [c [<- _]].
  apply coverage_in_unit_interval.
Qed.

(** X5.  For a target of at least 5 by 5 cells, the cells next to the middle of
    the grid (row [r] with [height - 3 <= 2 r <= height], column [c] with
    [width - 3 <= 2 c <= width]; the cell that contains the centre of the
    frame, [((height-1)//2, (width-1)//2)], is one of them) have a coverage
    above zero in the mask. *)
Theorem heart_mask_covers_centre (width height row col : Z) :
  5 <= width -> 5 <= height ->
  height - 3 <= 2 * row <= height -> width - 3 <= 2 * col <= width ->
  exists line cov,
    nth_error (heart_mask width height) (Z.to_nat row) = Some line /\
    nth_error line (Z.to_nat col) = Some cov /\ (0 < cov)%Q.
Proof.
  intros Hw Hh Hr Hc.
  destruct (heart_mask_cell width height row col) as [line [Hl Hcov]];
    [lia | lia |].
  exists line, (cell_coverage width height row col).
  split; [exact Hl|]. split; [exact Hcov|].
  apply coverage_positive.
  destruct (inside_count_bounds width height row col) as [_ Hpos].
  apply (Hpos 0 0).
  - destruct (width <=? 9); lia.
  - destruct (width <=? 9); lia.
  - now apply sample_inside_centre.
Qed.

Lemma heart_mask_covers_centre_witness :
  exists line cov,
    nth_error (heart_mask 9 8) (Z.to_nat ((8 - 1) / 2)) = Some line /\
    nth_error line (Z.to_nat ((9 - 1) / 2)) = Some cov /\ (0 < cov)%Q.
Proof.
  apply (heart_mask_covers_centre 9 8 ((8 - 1) / 2) ((9 - 1) / 2)).
  - lia.
  - lia.
  - simpl; lia.
  - simpl; lia.
Defined.

(** C8.  For every target of at least 5 by 5 cells, the cells nearest the
    centre of the shape have a coverage above zero in the mask.  The centre
    of the curve, [x = y = 0], is the middle of the frame; the cells next
    to it are the rows [r] with [height - 3 <= 2 r <= height] and the
    columns [c] with [width - 3 <= 2 c <= width], among them the cell
    [((height-1)//2, (width-1)//2)] that contains the centre and the cell
    [(height//2, width//2)] in the middle of the indices. *)
Theorem centre_cell_has_coverage (width height : Z) :
  5 <= width -> 5 <= height ->
  (near_centre height ((height - 1) / 2) /\ near_centre height (height / 2) /\
   near_centre width ((width - 1) / 2) /\ near_centre width (width / 2)) /\
  (forall row col, near_centre height row -> near_centre width col ->
     exists line,
       getitem (heart_mask width height) row = Some line /\
       getitem line col = Some (cell_coverage width height row col) /\
       (0 < cell_coverage width height row col)%Q).
Proof.
  intros Hw Hh. split.
  - unfold near_centre.
    pose proof (Z.div_mod (height - 1) 2 ltac:(lia)).
    pose proof (Z.mod_pos_bound (height - 1) 2 ltac:(lia)).
    pose proof (Z.div_mod height 2 ltac:(lia)).
    pose proof (Z.mod_pos_bound height 2 ltac:(lia)).
    pose proof (Z.div_mod (width - 1) 2 ltac:(lia)).
    pose proof (Z.mod_pos_bound (width - 1) 2 ltac:(lia)).
    pose proof (Z.div_mod width 2 ltac:(lia)).
    pose proof (Z.mod_pos_bound width 2 ltac:(lia)).
    lia.
  - intros row col Hr Hc. unfold near_centre in Hr, Hc.
    destruct (heart_mask_cell width height row col) as [line [Hl Hcov]];
      [lia | lia |].
    destruct (heart_mask_shape width height) as [Hrows Hcols].
    destruct (getitem_in_range (heart_mask width height) row)
      as [line' [Hg Hn]]; [unfold len; rewrite Hrows; lia|].
    assert (Hsame : line' = line) by congruence. subst line'.
    exists line. split; [exact Hg|].
    destruct (getitem_in_range line col) as [cov [Hgc Hnc]].
    { unfold len. rewrite (Hcols line); [lia|].
      eapply nth_error_In; eauto. }
    split; [rewrite Hgc, <- Hnc; exact Hcov|].
    apply coverage_positive.
    destruct (inside_count_bounds width height row col) as [_ Hpos].
    apply (Hpos 0 0).
    + destruct (width <=? 9); lia.
    + destruct (width <=? 9); lia.
    + now apply sample_inside_centre.
Qed.

Lemma centre_cell_has_coverage_witness :
  exists line,
    getitem (heart_mask 5 5) 2 = Some line /\
    getitem line 2 = Some (cell_coverage 5 5 2 2) /\
    (0 < cell_coverage 5 5 2 2)%Q.
Proof.
  destruct (centre_cell_has_coverage 5 5) as [_ Hcell]; [lia | lia |].
  apply Hcell; unfold near_centre; lia.
Defined.

(** ** Painted cells and the overlap test *)

(** X6.  The overlap test never misses a shared cell: two particles that both
    cover some screen cell are reported as overlapping.  Hence particles
    that do not overlap paint disjoint cells. *)
Theorem shared_cell_implies_overlap (a b : Heart.t) (r c : Z) :
  occupies a r c -> occupies b r c -> hearts_overlap a b = true.
Proof.
  unfold occupies. intros [Har Hac] [Hbr Hbc].
  apply hearts_overlap_true_iff. unfold box_right, box_bottom. lia.
Qed.

Lemma shared_cell_implies_overlap_witness :
  hearts_overlap (heart_at 4) (heart_at 4) = true.
Proof.
  apply (shared_cell_implies_overlap (heart_at 4) (heart_at 4) 2 4).
  - unfold occupies. vm_compute.
    repeat split; try reflexivity; intro Hgt; discriminate Hgt.
  - unfold occupies. vm_compute.
    repeat split; try reflexivity; intro Hgt; discriminate Hgt.
Defined.

(** ** The centred text *)

Lemma slice_to_nonneg {A : Type} (l : list A) (n : Z) :
  0 <= n -> slice_to l n = firstn (Z.to_nat n) l.
Proof.
  intro Hn. unfold slice_to.
  destruct (Z.ltb_spec n 0); [lia | reflexivity].
Qed.

Lemma len_slice_to {A : Type} (l : list A) (n : Z) :
  0 <= n -> len (slice_to l n) = Z.min n (len l).
Proof.
  intro Hn. rewrite slice_to_nonneg by assumption.
  unfold len. rewrite length_firstn. lia.
Qed.

Lemma center_text_fits (text : pystr) (width : Z) :
  len text < width ->
  center_text text width
  = repeat space (Z.to_nat ((width - len text) / 2)) ++ text /\
  len (center_text text width) <= width.
Proof.
  intro Hlt. unfold center_text.
  destruct (Z.geb_spec (len text) width) as [Hge|_]; [lia|].
  split; [reflexivity|].
  unfold len in *. rewrite length_app, repeat_length.
  set (n := Z.of_nat (length text)) in *.
  pose proof (Z.div_mod (width - n) 2 ltac:(lia)) as Hdm.
  pose proof (Z.mod_pos_bound (width - n) 2 ltac:(lia)) as Hmod.
  assert (0 <= (width - n) / 2) by (apply Z.div_pos; lia).
  lia.
Qed.

Lemma center_text_cut (text : pystr) (width : Z) :
  0 <= width <= len text ->
  center_text text width = firstn (Z.to_nat width) text /\
  len (center_text text width) = width.
Proof.
  intros [H0 Hle]. unfold center_text.
  destruct (Z.geb_spec (len text) width) as [_|Hlt]; [|lia].
  rewrite slice_to_nonneg by assumption. split; [reflexivity|].
  unfold len in *. rewrite length_firstn. lia.
Qed.

(** X7.  [center_text]: a text shorter than the width is kept whole behind
    [(width - len(text)) // 2] blanks, which leaves a right margin equal to
    the left one or one cell wider; a text at least as long as a
    non-negative width is cut to its first [width] characters; and for a
    negative width the slice drops the last [-width] characters. *)
Theorem center_text_layout (text : pystr) (width : Z) :
  (len text < width ->
     center_text text width
     = repeat space (Z.to_nat ((width - len text) / 2)) ++ text /\
     let left := (width - len text) / 2 in
     let right := width - len (center_text text width) in
     0 <= left /\ left <= right <= left + 1) /\
  (0 <= width <= len text ->
     center_text text width = firstn (Z.to_nat width) text /\
     len (center_text text width) = width) /\
  (width < 0 ->
     center_text text width = firstn (Z.to_nat (len text + width)) text).
Proof.
  unfold center_text. split; [|split].
  - intro Hlt. destruct (Z.geb_spec (len text) width) as [Hge|_]; [lia|].
    split; [reflexivity|]. cbv zeta.
    unfold len in *. rewrite length_app, repeat_length.
    set (n := Z.of_nat (length text)) in *.
    pose proof (Z.div_mod (width - n) 2 ltac:(lia)) as Hdm.
    pose proof (Z.mod_pos_bound (width - n) 2 ltac:(lia)) as Hmod.
    assert (0 <= (width - n) / 2) by (apply Z.div_pos; lia).
    lia.
  - intros [H0 Hle]. destruct (Z.geb_spec (len text) width) as [_|Hlt]; [|lia].
    rewrite slice_to_nonneg by assumption. split; [reflexivity|].
    unfold len in *. rewrite length_firstn. lia.
  - intro Hneg. assert (0 <= len text) by (unfold len; lia).
    destruct (Z.geb_spec (len text) width) as [_|Hlt]; [|lia].
    unfold slice_to. destruct (Z.ltb_spec width 0); [reflexivity | lia].
Qed.

(** ** Indexing and updating lists *)

Lemma length_update {A : Type} (n : nat) (v : A) (l : list A) :
  length (update n v l) = length l.
Proof.
  revert n. induction l as [|a l IH]; intros [|n]; simpl; auto.
Qed.

Lemma nth_error_update_other {A : Type} (n i : nat) (v : A) (l : list A) :
  i <> n -> nth_error (update n v l) i = nth_error l i.
Proof.
  revert n i. induction l as [|a l IH]; intros [|n] [|i] Hi; simpl; auto.
  congruence.
Qed.

Lemma update_id {A : Type} (n : nat) (v : A) (l : list A) :
  nth_error l n = Some v -> update n v l = l.
Proof.
  revert n. induction l as [|a l IH]; intros [|n]; simpl; try discriminate.
  - intro Heq. inversion Heq. reflexivity.
  - intro Hn. now rewrite IH.
Qed.

Lemma update_update {A : Type} (n : nat) (u v : A) (l : list A) :
  update n v (update n u l) = update n v l.
Proof.
  revert n. induction l as [|a l IH]; intros [|n]; simpl; auto.
  now rewrite IH.
Qed.

Lemma nth_error_update_same {A : Type} (n : nat) (v : A) (l : list A) :
  (n < length l)%nat -> nth_error (update n v l) n = Some v.
Proof.
  revert n. induction l as [|a l IH]; intros [|n] Hn; simpl in *;
    try lia; auto.
  apply IH. lia.
Qed.

Lemma firstn_update_succ {A : Type} (n : nat) (v : A) (l : list A) :
  (n < length l)%nat -> firstn (S n) (update n v l) = firstn n l ++ [v].
Proof.
  revert n. induction l as [|a l IH]; intros [|n] Hn; simpl in *;
    try lia; auto.
  f_equal. apply IH. lia.
Qed.

Lemma skipn_update {A : Type} (n m : nat) (v : A) (l : list A) :
  (n < m)%nat -> skipn m (update n v l) = skipn m l.
Proof.
  revert n m. induction l as [|a l IH]; intros [|n] [|m] Hnm; simpl;
    try lia; auto.
  apply IH. lia.
Qed.

Lemma getitem_nonneg {A : Type} (l : list A) (i : Z) :
  0 <= i -> getitem l i = nth_error l (Z.to_nat i).
Proof.
  intro Hi. unfold getitem.
  destruct (Z.ltb_spec i 0) as [|_]; [lia|].
  destruct (Z.leb_spec 0 i) as [_|]; [|lia].
  destruct (Z.ltb_spec i (len l)) as [Hlt|Hge]; simpl; [reflexivity|].
  symmetry. apply nth_error_None. unfold len in Hge. lia.
Qed.

Lemma setitem_nonneg {A : Type} (l : list A) (i : Z) (v : A) :
  0 <= i ->
  setitem l i v =
  if i <? len l then Some (update (Z.to_nat i) v l) else None.
Proof.
  intro Hi. unfold setitem.
  destruct (Z.ltb_spec i 0) as [|_]; [lia|].
  destruct (Z.leb_spec 0 i) as [_|]; [|lia]. reflexivity.
Qed.

(** [buffer[r][c] = v] for indices that are not negative: it raises unless
    the row and the column exist, and otherwise replaces that one cell. *)
Lemma set_cell_nonneg (buffer : screen) (r c : Z) (v : pystr) :
  0 <= r -> 0 <= c ->
  set_cell buffer r c v =
  match nth_error buffer (Z.to_nat r) with
  | Some row =>
      if c <? len row
      then Some (update (Z.to_nat r) (update (Z.to_nat c) v row) buffer)
      else None
  | None => None
  end.
Proof.
  intros Hr Hc. unfold set_cell. rewrite getitem_nonneg by assumption.
  destruct (nth_error buffer (Z.to_nat r)) as [row|] eqn:E; [|reflexivity].
  rewrite setitem_nonneg by assumption.
  destruct (c <? len row); [|reflexivity].
  rewrite setitem_nonneg by assumption.
  destruct (Z.ltb_spec r (len buffer)) as [_|Hge]; [reflexivity|].
  assert (nth_error buffer (Z.to_nat r) = None)
    by (apply nth_error_None; unfold len in Hge; lia).
  congruence.
Qed.

Lemma screen_dims_update (width height : Z) (buffer : screen) (n : nat)
    (row : list pystr) :
  screen_dims width height buffer -> length row = Z.to_nat width ->
  screen_dims width height (update n row buffer).
Proof.
  intros [Hlen Hrows] Hrow. split; [now rewrite length_update|].
  clear Hlen. revert n. induction Hrows as [|a l Ha Hl IH]; intros [|n]; simpl;
    constructor; auto.
Qed.

Lemma screen_dims_row (width height : Z) (buffer : screen) (n : nat)
    (row : list pystr) :
  screen_dims width height buffer -> nth_error buffer n = Some row ->
  length row = Z.to_nat width.
Proof.
  intros [_ Hrows] Hn. rewrite Forall_forall in Hrows. apply Hrows.
  eapply nth_error_In; eauto.
Qed.

(** ** Text written over a row *)

Lemma range_succ (n : nat) :
  range (Z.of_nat (S n)) = 0 :: map Z.succ (range (Z.of_nat n)).
Proof.
  unfold range. rewrite !Nat2Z.id. simpl. f_equal.
  rewrite <- seq_shift, !map_map. apply map_ext. intro a. lia.
Qed.

Lemma overlay_from (line : nat) (text : pystr) :
  forall (k : nat) (b : screen) (old : list pystr),
    nth_error b line = Some old -> (k + length text <= length old)%nat ->
    for_opt (combine (map (fun i => Z.of_nat k + i) (range (len text))) text)
      (fun buffer ich => set_cell buffer (Z.of_nat line) (fst ich) [snd ich])
      b
    = Some (update line
              (firstn k old ++ map (fun ch => [ch]) text
               ++ skipn (k + length text) old) b).
Proof.
  induction text as [|a t IH]; intros k b old Hold Hlen.
  - simpl. rewrite Nat.add_0_r, firstn_skipn. now rewrite update_id.
  - change (len (a :: t)) with (Z.of_nat (S (length t))).
    rewrite range_succ. simpl map. simpl combine. simpl for_opt.
    simpl in Hlen.
    rewrite set_cell_nonneg by lia. rewrite Nat2Z.id, Hold.
    destruct (Z.ltb_spec (Z.of_nat k + 0) (len old)) as [_|Hbad];
      [|unfold len in Hbad; lia].
    replace (Z.to_nat (Z.of_nat k + 0)) with k by lia.
    rewrite map_map.
    rewrite (map_ext (fun x => Z.of_nat k + Z.succ x)
               (fun i => Z.of_nat (S k) + i)) by (intro; lia).
    fold (len t).
    assert (Hline : (line < length b)%nat)
      by (apply nth_error_Some; congruence).
    rewrite (IH (S k) _ (update k [a] old));
      [|now apply nth_error_update_same | rewrite length_update; lia].
    rewrite update_update, firstn_update_succ by lia.
    rewrite skipn_update by lia.
    rewrite <- app_assoc. simpl.
    now replace (k + S (length t))%nat with (S (k + length t)) by lia.
Qed.

Lemma skipn_repeat {A : Type} (a : A) (n m : nat) :
  skipn m (repeat a n) = repeat a (n - m).
Proof.
  revert m. induction n as [|n IH]; intros [|m]; simpl; auto.
Qed.

(** Writing a text that fits over a blank row of an existing line gives the
    row that shows the text. *)
Lemma overlay_blank_row (width height : Z) (b : screen) (line : nat)
    (text : pystr) :
  nth_error b line = Some (repeat [space] (Z.to_nat width)) ->
  len text <= width ->
  overlay b (Z.of_nat line) text
  = Some (update line (text_row width text) b).
Proof.
  intros Hrow Hfit. unfold overlay.
  rewrite <- (map_id (range (len text))).
  rewrite (map_ext (fun x => x) (fun i => Z.of_nat 0 + i)) by (intro; lia).
  rewrite (overlay_from line text 0 b _ Hrow).
  - simpl. unfold text_row. now rewrite skipn_repeat.
  - rewrite repeat_length. unfold len in Hfit. lia.
Qed.

(** ** Particles on the screen *)

Lemma for_opt_total_inv {A S : Type} (P : S -> Prop) (l : list A)
    (body : S -> A -> option S) :
  (forall s a, In a l -> P s -> exists s1, body s a = Some s1 /\ P s1) ->
  forall s, P s -> exists s', for_opt l body s = Some s' /\ P s'.
Proof.
  induction l as [|a l IH]; intros Hb s Hs; simpl.
  - eauto.
  - destruct (Hb s a (or_introl eq_refl) Hs) as [s1 [-> Hs1]].
    apply IH; [|exact Hs1]. intros s0 a0 Ha0. apply Hb. now right.
Qed.

Lemma set_cell_below_hud (width height : Z) (b b' : screen) (r c : Z)
    (v : pystr) :
  2 <= r -> 0 <= c -> screen_dims width height b ->
  set_cell b r c v = Some b' ->
  screen_dims width height b' /\ hud_rows_of b' = hud_rows_of b.
Proof.
  intros Hr Hc Hdims. rewrite set_cell_nonneg by lia.
  destruct (nth_error b (Z.to_nat r)) as [row|] eqn:E; [|discriminate].
  destruct (c <? len row); [|discriminate].
  intro Heq. inversion Heq; subst b'. split.
  - apply screen_dims_update; [exact Hdims|].
    rewrite length_update. eapply screen_dims_row; eauto.
  - unfold hud_rows_of. rewrite !nth_error_update_other by lia. reflexivity.
Qed.

Lemma set_cell_on_screen (width height : Z) (b : screen) (r c : Z)
    (v : pystr) :
  screen_dims width height b -> 0 <= r < height -> 0 <= c < width ->
  exists b', set_cell b r c v = Some b'.
Proof.
  intros Hdims Hr Hc. rewrite set_cell_nonneg by lia.
  destruct (nth_error b (Z.to_nat r)) as [row|] eqn:E.
  - pose proof (screen_dims_row _ _ _ _ _ Hdims E) as Hrow.
    destruct (Z.ltb_spec c (len row)) as [_|Hbad]; [eauto|].
    unfold len in Hbad. lia.
  - apply nth_error_None in E. destruct Hdims as [Hlen _]. lia.
Qed.

Lemma draw_heart_keeps_hud (width height : Z) (b b' : screen) (p : Heart.t) :
  screen_dims width height b -> draw_heart width height b p = Some b' ->
  screen_dims width height b' /\ hud_rows_of b' = hud_rows_of b.
Proof.
  intros Hdims. unfold draw_heart. cbv zeta.
  destruct (py_int (Heart.y p) >=? height).
  { intro Heq. inversion Heq; subst. auto. }
  intro Hrun.
  revert Hrun. apply for_opt_invariant with
    (P := fun s => screen_dims width height s /\ hud_rows_of s = hud_rows_of b);
    [|auto].
  intros s r s1 Hr [Hs1 Hs2].
  destruct (Z.ltb_spec (py_int (Heart.y p) + r) 2) as [Hlow|Hok]; simpl.
  { intro Heq. inversion Heq; subst. auto. }
  destruct (py_int (Heart.y p) + r >=? height).
  { intro Heq. inversion Heq; subst. auto. }
  destruct (getitem (Heart.sprite p) r) as [row_str|]; [|discriminate].
  apply for_opt_invariant with
    (P := fun s => screen_dims width height s /\ hud_rows_of s = hud_rows_of b);
    [|auto].
  intros s0 c s2 Hc [Hs01 Hs02].
  destruct (getitem row_str c) as [ch|]; [|discriminate].
  destruct (N.eqb ch space).
  { intro Heq. inversion Heq; subst. auto. }
  destruct (Z.leb_spec 0 (Heart.x p - Heart.w p / 2 + c)) as [Hc0|Hneg]; simpl.
  - destruct (Heart.x p - Heart.w p / 2 + c <? width).
    + intro Hset.
      destruct (set_cell_below_hud width height s0 s2 _ _ _ Hok Hc0 Hs01 Hset)
        as [Hd Hh].
      split; [exact Hd | congruence].
    + intro Heq. inversion Heq; subst. auto.
  - intro Heq. inversion Heq; subst. auto.
Qed.

Lemma draw_heart_total (width height : Z) (b : screen) (p : Heart.t) :
  screen_dims width height b -> drawable p ->
  exists b', draw_heart width height b p = Some b'.
Proof.
  intros Hdims Hp. unfold draw_heart. cbv zeta.
  destruct (py_int (Heart.y p) >=? height); [eauto|].
  match goal with
  | |- exists b', for_opt ?l ?body ?s0 = Some b' =>
      assert (Hbody : forall s a, In a l -> screen_dims width height s ->
                exists s1, body s a = Some s1 /\ screen_dims width height s1);
      [|destruct (for_opt_total_inv (screen_dims width height) l body Hbody
                    s0 Hdims) as [b' [Hb' _]]; eauto]
  end.
  intros s r Hr Hs. apply In_range in Hr.
  destruct (Z.ltb_spec (py_int (Heart.y p) + r) 2) as [Hlow|Hok]; simpl;
    [eauto|].
  destruct (Z.geb_spec (py_int (Heart.y p) + r) height) as [Hge|Hlt];
    [eauto|].
  destruct (Hp r Hr) as [row_str [Hrow Hwide]].
  rewrite getitem_nonneg by lia. rewrite Hrow.
  apply for_opt_total_inv; [|exact Hs].
  intros s0 c Hc Hs0. apply In_range in Hc.
  destruct (getitem_in_range row_str c ltac:(lia)) as [ch [-> _]].
  destruct (N.eqb ch space); [eauto|].
  destruct (Z.leb_spec 0 (Heart.x p - Heart.w p / 2 + c)) as [Hc0|Hneg]; simpl;
    [|eauto].
  destruct (Z.ltb_spec (Heart.x p - Heart.w p / 2 + c) width) as [Hcw|Hcw];
    [|eauto].
  destruct (set_cell_on_screen width height s0
              (py_int (Heart.y p) + r) (Heart.x p - Heart.w p / 2 + c)
              (( if Heart.twinkle_phase p =? 1 then BOLD
                 else if Heart.twinkle_phase p =? 2 then FAINT else [])
               ++ Heart.color p ++ [ch] ++ RESET) Hs0) as [s1 Hset];
    [lia | lia |].
  exists s1. split; [exact Hset|].
  eapply set_cell_below_hud; eauto.
Qed.

(** ** The frame buffer *)

Lemma blank_screen_dims (width height : Z) :
  screen_dims width height
    (map (fun _ : Z => repeat [space] (Z.to_nat width)) (range height)).
Proof.
  split.
  - now rewrite length_map, range_length.
  - apply Forall_forall. intros row Hrow. apply in_map_iff in Hrow.
    destruct Hrow as [_ [<- _]]. apply repeat_length.
Qed.

Lemma blank_screen_row (width height i : Z) :
  0 <= i < height ->
  nth_error (map (fun _ : Z => repeat [space] (Z.to_nat width)) (range height))
    (Z.to_nat i) = Some (repeat [space] (Z.to_nat width)).
Proof.
  intro Hi. now rewrite nth_error_map, nth_error_range.
Qed.

Lemma hearts_keep_hud (width height : Z) (hs : list Heart.t) (b b' : screen) :
  screen_dims width height b ->
  for_opt hs (draw_heart width height) b = Some b' ->
  screen_dims width height b' /\ hud_rows_of b' = hud_rows_of b.
Proof.
  intro Hdims.
  apply for_opt_invariant with
    (P := fun s => screen_dims width height s /\ hud_rows_of s = hud_rows_of b);
    [|auto].
  intros s p s1 _ [Hs1 Hs2] Hdraw.
  destruct (draw_heart_keeps_hud width height s s1 p Hs1 Hdraw) as [Hd Hh].
  split; [exact Hd | congruence].
Qed.

Lemma hearts_total (width height : Z) (hs : list Heart.t) (b : screen) :
  screen_dims width height b -> Forall drawable hs ->
  exists b', for_opt hs (draw_heart width height) b = Some b'.
Proof.
  intros Hdims Hall.
  destruct (for_opt_total_inv (screen_dims width height) hs
              (draw_heart width height)) with (s := b) as [b' [Hb' _]];
    [|exact Hdims | eauto].
  intros s p Hp Hs. rewrite Forall_forall in Hall.
  destruct (draw_heart_total width height s p Hs (Hall p Hp)) as [s1 Hs1].
  exists s1. split; [exact Hs1|].
  eapply draw_heart_keeps_hud; eauto.
Qed.

Lemma length_text_row (width : Z) (text : pystr) :
  len text <= width -> length (text_row width text) = Z.to_nat width.
Proof.
  intro Hfit. unfold text_row, len in *.
  rewrite length_app, length_map, repeat_length. lia.
Qed.

Lemma len_hud_text (width : Z) : 0 <= width -> len (hud_text width) <= width.
Proof. intro Hw. unfold hud_text. rewrite len_slice_to by assumption. lia. Qed.

Lemma len_message_text (msg : option pystr) (width : Z) :
  0 <= width -> len (message_text msg width) <= width.
Proof.
  intro Hw. unfold message_text.
  destruct msg as [[|c m]|]; try (unfold len; simpl; lia).
  rewrite len_slice_to by assumption. lia.
Qed.

(** Once the particles are drawn, the two overlays always succeed on a
    screen of at least two rows, and replace rows 0 and 1. *)
Lemma frame_buffer_after_hearts (hs : list Heart.t) (msg : option pystr)
    (width height : Z) (b1 : screen) :
  0 <= width -> 2 <= height ->
  for_opt hs (draw_heart width height)
    (map (fun _ : Z => repeat [space] (Z.to_nat width)) (range height))
  = Some b1 ->
  frame_buffer hs msg width height
  = Some (update 1 (text_row width (message_text msg width))
            (update 0 (text_row width (hud_text width)) b1)).
Proof.
  intros Hw Hh Hdraw.
  destruct (hearts_keep_hud width height hs _ b1
              (blank_screen_dims width height) Hdraw) as [Hdims Hhud].
  unfold hud_rows_of in Hhud.
  pose proof (blank_screen_row width height 0 ltac:(lia)) as R0.
  pose proof (blank_screen_row width height 1 ltac:(lia)) as R1.
  change (Z.to_nat 0) with 0%nat in R0. change (Z.to_nat 1) with 1%nat in R1.
  inversion Hhud as [[Hsame0 Hsame1]].
  pose proof (eq_trans Hsame0 R0) as Hrow0.
  pose proof (eq_trans Hsame1 R1) as Hrow1.
  unfold frame_buffer. cbv zeta. rewrite Hdraw.
  change (slice_to
            (if len title + 22 <? width
             then (ESC :: py "[96m") ++ title ++ RESET
                  ++ py "  |  Press Ctrl+C to exit"
             else py "Press Ctrl+C to exit") width)
    with (hud_text width).
  change (overlay b1 0 (hud_text width))
    with (overlay b1 (Z.of_nat 0) (hud_text width)).
  rewrite (overlay_blank_row width height b1 0 (hud_text width) Hrow0
             (len_hud_text width Hw)).
  assert (Hrow1' : nth_error (update 0 (text_row width (hud_text width)) b1) 1
                   = Some (repeat [space] (Z.to_nat width)))
    by (rewrite nth_error_update_other by lia; exact Hrow1).
  destruct msg as [[|c m]|].
  - simpl message_text. f_equal. symmetry. apply update_id.
    unfold text_row. simpl. now rewrite Nat.sub_0_r.
  - change (message_text (Some (c :: m)) width)
      with (slice_to (center_text ((ESC :: py "[95m") ++ (c :: m) ++ RESET)
                        width) width).
    match goal with
    | |- overlay ?b2 1 ?t = _ =>
        change (overlay b2 1 t) with (overlay b2 (Z.of_nat 1) t)
    end.
    erewrite (overlay_blank_row width height);
      [reflexivity | exact Hrow1'
      | exact (len_message_text (Some (c :: m)) width Hw)].
  - simpl message_text. f_equal. symmetry. apply update_id.
    unfold text_row. simpl. now rewrite Nat.sub_0_r.
Qed.

Lemma frame_buffer_rows (hs : list Heart.t) (msg : option pystr)
    (width height : Z) (buffer : screen) :
  0 <= width -> 2 <= height ->
  frame_buffer hs msg width height = Some buffer ->
  screen_dims width height buffer /\
  nth_error buffer 0 = Some (text_row width (hud_text width)) /\
  nth_error buffer 1 = Some (text_row width (message_text msg width)).
Proof.
  intros Hw Hh Hbuf.
  destruct (for_opt hs (draw_heart width height)
              (map (fun _ : Z => repeat [space] (Z.to_nat width))
                 (range height))) as [b1|] eqn:Hdraw.
  - assert (Hb : buffer
                 = update 1 (text_row width (message_text msg width))
                     (update 0 (text_row width (hud_text width)) b1)).
    { rewrite (frame_buffer_after_hearts hs msg width height b1 Hw Hh Hdraw)
        in Hbuf. congruence. }
    rewrite Hb. clear Hb Hbuf.
    destruct (hearts_keep_hud width height hs _ b1
                (blank_screen_dims width height) Hdraw) as [Hdims _].
    assert (Hlen : length b1 = Z.to_nat height) by apply Hdims.
    split; [|split].
    + apply screen_dims_update;
        [apply screen_dims_update; [exact Hdims|] |];
        apply length_text_row;
        [now apply len_hud_text | now apply len_message_text].
    + rewrite nth_error_update_other by lia.
      apply nth_error_update_same. lia.
    + apply nth_error_update_same. rewrite length_update. lia.
  - unfold frame_buffer in Hbuf. cbv zeta in Hbuf. rewrite Hdraw in Hbuf.
    discriminate.
Qed.

(** X8.  Whatever particles are drawn, a frame that [draw_frame] builds for a
    screen of at least two rows has [height] rows of [width] cells; its
    row 0 shows the title text and its row 1 the message text, each from
    column 0 on and followed by blanks only: no particle is drawn into
    these two rows. *)
Theorem frame_buffer_reserved_rows (hs : list Heart.t) (msg : option pystr)
    (width height : Z) (buffer : screen) :
  0 <= width -> 2 <= height ->
  frame_buffer hs msg width height = Some buffer ->
  screen_dims width height buffer /\
  nth_error buffer 0 = Some (text_row width (hud_text width)) /\
  nth_error buffer 1 = Some (text_row width (message_text msg width)) /\
  exists blank, frame_buffer [] msg width height = Some blank /\
    nth_error blank 0 = nth_error buffer 0 /\
    nth_error blank 1 = nth_error buffer 1.
Proof.
  intros Hw Hh Hbuf.
  destruct (frame_buffer_rows hs msg width height buffer Hw Hh Hbuf)
    as [Hd [H0 H1]].
  split; [exact Hd|]. split; [exact H0|]. split; [exact H1|].
  destruct (frame_buffer [] msg width height) as [blank|] eqn:Hblank.
  - exists blank.
    destruct (frame_buffer_rows [] msg width height blank Hw Hh Hblank)
      as [_ [B0 B1]].
    split; [reflexivity|]. split; congruence.
  - rewrite (frame_buffer_after_hearts [] msg width height _ Hw Hh eq_refl)
      in Hblank. discriminate.
Qed.

Lemma frame_buffer_reserved_rows_witness :
  match frame_buffer [heart_at 4] (Some (py "Hi")) 20 10 with
  | Some buffer =>
      nth_error buffer 1 = Some (text_row 20 (message_text (Some (py "Hi")) 20))
  | None => False
  end.
Proof.
  destruct (frame_buffer [heart_at 4] (Some (py "Hi")) 20 10) as [buffer|]
    eqn:Hbuf.
  - apply (frame_buffer_reserved_rows [heart_at 4] (Some (py "Hi")) 20 10
             buffer); [lia | lia | exact Hbuf].
  - vm_compute in Hbuf. discriminate Hbuf.
Defined.

(** X9.  Where the message goes.  The width is compared with the length of the
    message plus the 9 characters of its colour code and reset.  When the
    coloured text fits, row 1 holds [(width - (len(msg) + 9)) // 2] blanks,
    then the 5 cells of the colour code, the message, and the 4 cells of
    the reset; otherwise row 1 holds the first [width] characters of the
    coloured text, so at most [width - 5] characters of the message. *)
Theorem message_row_layout (hs : list Heart.t) (m : pystr)
    (width height : Z) (buffer : screen) :
  m <> [] -> 0 <= width -> 2 <= height ->
  frame_buffer hs (Some m) width height = Some buffer ->
  len (msg_colored m) = len m + 9 /\
  (len m + 9 < width ->
     nth_error buffer 1 =
     Some (text_row width
             (repeat space (Z.to_nat ((width - (len m + 9)) / 2))
              ++ (ESC :: py "[95m") ++ m ++ RESET))) /\
  (width <= len m + 9 ->
     nth_error buffer 1 =
     Some (map (fun ch => [ch])
             (firstn (Z.to_nat width) ((ESC :: py "[95m") ++ m ++ RESET)))).
Proof.
  intros Hm Hw Hh Hbuf.
  destruct (frame_buffer_rows hs (Some m) width height buffer Hw Hh Hbuf)
    as [_ [_ Hrow]].
  assert (Hlen : len (msg_colored m) = len m + 9).
  { unfold msg_colored, len. simpl length. rewrite length_app. simpl length.
    lia. }
  assert (Htext : message_text (Some m) width
                  = slice_to (center_text (msg_colored m) width) width)
    by (destruct m; [congruence | reflexivity]).
  rewrite Htext in Hrow. clear Htext.
  split; [exact Hlen|]. split.
  - intro Hlt.
    destruct (center_text_fits (msg_colored m) width) as [Hcentered Hfit];
      [lia|].
    rewrite slice_to_nonneg in Hrow by assumption.
    rewrite firstn_all2 in Hrow by (unfold len in *; lia).
    rewrite Hrow, Hcentered, Hlen. reflexivity.
  - intro Hge.
    destruct (center_text_cut (msg_colored m) width) as [Hfirst Hwidth]; [lia|].
    rewrite Hfirst in Hrow. rewrite slice_to_nonneg in Hrow by assumption.
    rewrite firstn_firstn, Nat.min_id in Hrow. rewrite Hrow.
    unfold text_row. rewrite <- Hfirst.
    replace (Z.to_nat width - length (center_text (msg_colored m) width))%nat
      with 0%nat by (unfold len in Hwidth; lia).
    simpl. rewrite app_nil_r. now rewrite Hfirst.
Qed.

Lemma message_row_layout_witness :
  match frame_buffer [] (Some (py "Compiling feelings...")) 80 24 with
  | Some buffer =>
      nth_error buffer 1 =
      Some (text_row 80
              (repeat space (Z.to_nat ((80 - (21 + 9)) / 2))
               ++ (ESC :: py "[95m") ++ py "Compiling feelings..." ++ RESET))
  | None => False
  end.
Proof.
  destruct (frame_buffer [] (Some (py "Compiling feelings...")) 80 24)
    as [buffer|] eqn:Hbuf.
  - apply (message_row_layout [] (py "Compiling feelings...") 80 24 buffer);
      [discriminate | lia | lia | exact Hbuf | simpl; lia].
  - vm_compute in Hbuf. discriminate Hbuf.
Defined.

Lemma message_row_text (hs : list Heart.t) (m : pystr) (width height : Z)
    (buffer : screen) :
  m <> [] -> 0 <= width -> 2 <= height ->
  frame_buffer hs (Some m) width height = Some buffer ->
  len (msg_colored m) = len m + 9 /\
  nth_error buffer 1
  = Some (text_row width
            (firstn (Z.to_nat width) (center_text (msg_colored m) width))).
Proof.
  intros Hm Hw Hh Hbuf.
  destruct (frame_buffer_rows hs (Some m) width height buffer Hw Hh Hbuf)
    as [_ [_ Hrow]].
  split.
  - unfold msg_colored, len. simpl length. rewrite length_app. simpl length.
    lia.
  - assert (Htext : message_text (Some m) width
                    = slice_to (center_text (msg_colored m) width) width)
      by (destruct m; [congruence | reflexivity]).
    rewrite Htext, slice_to_nonneg in Hrow by assumption. exact Hrow.
Qed.

(** C7.  Where [draw_frame] puts a message that is not empty.  The text
    that [center_text] centres and cuts is the message with its colour
    code before it and its reset after it, 9 characters that take no
    column on the screen.  So when the coloured text fits
    ([len(msg) + 9 < width]), the message goes behind
    [pad = (width - len(msg) - 9) // 2] blanks and the 5 cells of the
    colour code: the terminal shows its first glyph at column [pad], which
    is 4 or 5 columns to the left of [(width - len(msg)) // 2].  And when
    [width <= len(msg) + 9] the coloured text is cut to [width]
    characters: for [width <= len(msg) + 5] these are the colour code and
    the first [width - 5] glyphs of the message, without the reset. *)
Theorem message_centred_with_its_colour_code (hs : list Heart.t) (m : pystr)
    (width height : Z) (buffer : screen) :
  m <> [] -> 0 <= width -> 2 <= height ->
  frame_buffer hs (Some m) width height = Some buffer ->
  let pad := (width - (len m + 9)) / 2 in
  (len m + 9 < width ->
     nth_error buffer 1
     = Some (text_row width
               (repeat space (Z.to_nat pad)
                ++ (ESC :: py "[95m") ++ m ++ RESET)) /\
     0 <= pad /\ pad + 4 <= (width - len m) / 2 <= pad + 5) /\
  (width <= len m + 9 ->
     nth_error buffer 1
     = Some (map (fun ch => [ch])
               (firstn (Z.to_nat width) ((ESC :: py "[95m") ++ m ++ RESET)))) /\
  (5 <= width <= len m + 5 ->
     nth_error buffer 1
     = Some (map (fun ch => [ch])
               ((ESC :: py "[95m") ++ firstn (Z.to_nat (width - 5)) m))).
Proof.
  intros Hm Hw Hh Hbuf. cbv zeta.
  destruct (message_row_text hs m width height buffer Hm Hw Hh Hbuf)
    as [Hlen Hrow].
  assert (Hcut : width <= len m + 9 ->
            nth_error buffer 1
            = Some (map (fun ch => [ch])
                      (firstn (Z.to_nat width)
                         ((ESC :: py "[95m") ++ m ++ RESET)))).
  { intro Hge.
    destruct (center_text_cut (msg_colored m) width) as [Hfirst Hwidth]; [lia|].
    rewrite Hfirst, firstn_firstn, Nat.min_id in Hrow. rewrite Hrow.
    unfold text_row. rewrite <- Hfirst.
    replace (Z.to_nat width - length (center_text (msg_colored m) width))%nat
      with 0%nat by (unfold len in Hwidth; lia).
    simpl. rewrite app_nil_r. now rewrite Hfirst. }
  split; [|split].
  - intro Hlt.
    destruct (center_text_fits (msg_colored m) width) as [Hcentered Hfit];
      [lia|].
    rewrite firstn_all2 in Hrow by (unfold len in *; lia).
    rewrite Hcentered, Hlen in Hrow. split; [exact Hrow|].
    pose proof (Z.div_mod (width - (len m + 9)) 2 ltac:(lia)).
    pose proof (Z.mod_pos_bound (width - (len m + 9)) 2 ltac:(lia)).
    pose proof (Z.div_mod (width - len m) 2 ltac:(lia)).
    pose proof (Z.mod_pos_bound (width - len m) 2 ltac:(lia)).
    lia.
  - exact Hcut.
  - intros [H5 Hle]. rewrite Hcut by lia. do 2 f_equal.
    change ((ESC :: py "[95m") ++ m ++ RESET)
      with ((ESC :: py "[95m") ++ (m ++ RESET)).
    rewrite firstn_app.
    rewrite (firstn_all2 (ESC :: py "[95m")) by (simpl; lia).
    f_equal.
    replace (Z.to_nat width - length (ESC :: py "[95m"))%nat
      with (Z.to_nat (width - 5)) by (simpl; lia).
    rewrite firstn_app.
    replace (Z.to_nat (width - 5) - length m)%nat with 0%nat
      by (unfold len in Hle; lia).
    simpl. now rewrite app_nil_r.
Qed.

Lemma message_centred_with_its_colour_code_witness :
  match frame_buffer [] (Some (py "Compiling feelings...")) 80 24 with
  | Some buffer =>
      nth_error buffer 1
      = Some (text_row 80
                (repeat space 25
                 ++ (ESC :: py "[95m") ++ py "Compiling feelings..." ++ RESET))
      /\ (80 - len (py "Compiling feelings...")) / 2 = 29
  | None => False
  end /\
  match frame_buffer [] (Some (py "Loading love language pack...")) 20 10 with
  | Some buffer =>
      nth_error buffer 1
      = Some (map (fun ch => [ch]) ((ESC :: py "[95m") ++ py "Loading love la"))
  | None => False
  end.
Proof.
  split.
  - destruct (frame_buffer [] (Some (py "Compiling feelings...")) 80 24)
      as [buffer|] eqn:Hbuf.
    + destruct (message_centred_with_its_colour_code []
                  (py "Compiling feelings...") 80 24 buffer)
        as [Hfit _]; [discriminate | lia | lia | exact Hbuf |].
      destruct Hfit as [Hrow _]; [simpl; lia|].
      split; [exact Hrow | reflexivity].
    + vm_compute in Hbuf. discriminate Hbuf.
  - destruct (frame_buffer [] (Some (py "Loading love language pack...")) 20 10)
      as [buffer|] eqn:Hbuf.
    + destruct (message_centred_with_its_colour_code []
                  (py "Loading love language pack...") 20 10 buffer)
        as [_ [_ Hcut]]; [discriminate | lia | lia | exact Hbuf |].
      apply Hcut. simpl; lia.
    + vm_compute in Hbuf. discriminate Hbuf.
Defined.

(** ** Particles that can always be drawn *)

Lemma new_heart_drawable {G : Type} `{Random G} (now : Q) (col : Z) (g : G) :
  drawable (fst (new_heart now col g)).
Proof.
  destruct (new_heart_shape now col g) as [_ [_ [Hh [ch [Hs Hw]]]]].
  intros r Hr. rewrite Hh in Hr. assert (r = 0) by lia. subst r.
  exists ch. rewrite Hs, Hw. split; [reflexivity | lia].
Qed.

Lemma advance_drawable {G : Type} `{Random G} (now : Q) (p : Heart.t) (g : G) :
  drawable p -> drawable (fst (advance now p g)).
Proof.
  intro Hp.
  destruct (advance_spec now p g) as [_ [_ [_ [_ [_ [Hs [Hw [Hh _]]]]]]]].
  intros r Hr. rewrite Hh in Hr. destruct (Hp r Hr) as [row [Hrow Hwide]].
  exists row. rewrite Hs, Hw. auto.
Qed.

Lemma tick_drawable {G : Type} `{Random G} (start now : Q) (width height : Z)
    (hs : list Heart.t) (g : G) :
  Forall drawable hs ->
  Forall drawable (fst (tick start now width height hs g)).
Proof.
  intro Hall. rewrite tick_unfold. unfold spawn_pass.
  destruct (spawn_columns_spec now (spawn_chance_per_col (now - start))
              (range width) (cull height (fst (step_hearts now hs g)))
              (snd (step_hearts now hs g))) as [added [-> [_ [Hc _]]]].
  apply Forall_app. split.
  - unfold cull. apply Forall_forall. intros q Hq.
    apply filter_In in Hq. destruct Hq as [Hq _].
    apply map_rand_In in Hq. destruct Hq as [a [g' [Ha ->]]].
    apply advance_drawable. rewrite Forall_forall in Hall. now apply Hall.
  - eapply Forall_impl; [|exact Hc].
    intros c [col [g' ->]]. apply new_heart_drawable.
Qed.

(** X10.  [draw_frame] never raises for particles whose sprite has the rows and
    columns that their height and width announce, whatever the terminal
    size reported and whatever the message: it clears the screen, writes
    one text and flushes.  The particles of the live set are of that kind
    after every iteration of the main loop. *)
Theorem draw_frame_never_raises {G : Type} `{Random G} :
  (forall (hs : list Heart.t) (msg : option pystr) (columns lines : Z),
     Forall drawable hs ->
     exists text,
       draw_frame hs msg columns lines
       = Some [Write (CSI ++ py "H" ++ CSI ++ py "2J"); Write text; Flush]) /\
  (forall (start now : Q) (width height : Z) (hs : list Heart.t) (g : G),
     Forall drawable hs ->
     Forall drawable (fst (tick start now width height hs g))).
Proof.
  split.
  - intros hs msg columns lines Hall. unfold draw_frame, get_size.
    destruct (hearts_total (Z.max 20 columns) (Z.max 10 lines) hs _
                (blank_screen_dims (Z.max 20 columns) (Z.max 10 lines)) Hall)
      as [b1 Hb1].
    assert (Hw : 0 <= Z.max 20 columns) by lia.
    assert (Hh : 2 <= Z.max 10 lines) by lia.
    rewrite (frame_buffer_after_hearts hs msg _ _ b1 Hw Hh Hb1).
    eauto.
  - intros start now width height hs g. apply tick_drawable.
Qed.

Lemma draw_frame_never_raises_witness :
  exists text,
    draw_frame (fst (tick 7 8 20 10 [heart_at 4] 42)) None 3 2
    = Some [Write (CSI ++ py "H" ++ CSI ++ py "2J"); Write text; Flush].
Proof.
  destruct (@draw_frame_never_raises Z Random_lcg) as [Hdraw Htick].
  apply Hdraw. apply Htick.
  constructor; [|constructor].
  intros r Hr. simpl in Hr. assert (r = 0) by lia. subst r.
  exists [0x2665%N].
  split; [reflexivity | vm_compute; intro Hgt; discriminate Hgt].
Defined.

Lemma center_text_layout_witness :
  center_text (py "abc") 10 = repeat space 3 ++ py "abc" /\
  center_text (py "abcdef") 4 = py "abcd".
Proof.
  destruct (center_text_layout (py "abc") 10) as [Hfit _].
  destruct (center_text_layout (py "abcdef") 4) as [_ [Hcut _]].
  split.
  - apply Hfit. reflexivity.
  - apply Hcut. split; intro Hgt; discriminate Hgt.
Defined.

(** ** The guard around the animation *)

Lemma teardown_count_app (t1 t2 : list event) :
  teardown_count (t1 ++ t2) = (teardown_count t1 + teardown_count t2)%nat.
Proof.
  unfold teardown_count. now rewrite filter_app, length_app.
Qed.

Lemma pystr_eqb_eq (a b : pystr) : pystr_eqb a b = true -> a = b.
Proof.
  revert b. induction a as [|c a IH]; intros [|d b]; simpl; try discriminate.
  - reflexivity.
  - intro Hcd. apply andb_true_iff in Hcd. destruct Hcd as [Hc Ha].
    apply N.eqb_eq in Hc. subst d. f_equal. now apply IH.
Qed.

Lemma join_has_separator (sep a b : pystr) (rest : list pystr) (c : N) :
  In c sep -> In c (join sep (a :: b :: rest)).
Proof.
  intro Hc. simpl. apply in_or_app. right. apply in_or_app. now left.
Qed.

Lemma firstn_no_teardown (k : nat) (events : list event) :
  teardown_count events = 0%nat -> teardown_count (firstn k events) = 0%nat.
Proof.
  unfold teardown_count. revert k.
  induction events as [|e events IH]; intros [|k]; simpl; auto.
  destruct (is_teardown_write e); simpl; [discriminate | apply IH].
Qed.

(** A frame never contains the teardown sequence as one of its writes. *)
Lemma draw_frame_no_teardown (hs : list Heart.t) (msg : option pystr)
    (columns lines : Z) (events : list event) :
  draw_frame hs msg columns lines = Some events ->
  teardown_count events = 0%nat.
Proof.
  unfold draw_frame, get_size.
  destruct (frame_buffer hs msg (Z.max 20 columns) (Z.max 10 lines))
    as [buffer|] eqn:Hbuf; [|discriminate].
  intro Heq. injection Heq as <-.
  assert (Hw : 0 <= Z.max 20 columns) by lia.
  assert (Hh : 2 <= Z.max 10 lines) by lia.
  destruct (frame_buffer_rows hs msg _ _ buffer Hw Hh Hbuf) as [[Hlen _] _].
  destruct buffer as [|r0 [|r1 rest]]; simpl in Hlen; try lia.
  assert (Htext : is_teardown_write
                    (Write (join [newline]
                              (map (join []) (r0 :: r1 :: rest)))) = false).
  { unfold is_teardown_write.
    destruct (pystr_eqb (join [newline] (map (join []) (r0 :: r1 :: rest)))
                (SHOW_CURSOR ++ ALT_SCREEN_OFF)) eqn:E; [|reflexivity].
    apply pystr_eqb_eq in E. exfalso.
    assert (Hin : In newline (SHOW_CURSOR ++ ALT_SCREEN_OFF)).
    { rewrite <- E. simpl map. apply join_has_separator. now left. }
    vm_compute in Hin.
    repeat (destruct Hin as [Hin | Hin]; [discriminate Hin|]). exact Hin. }
  unfold teardown_count. cbn [filter]. rewrite Htext.
  change (is_teardown_write (Write (CSI ++ py "H" ++ CSI ++ py "2J")))
    with false.
  reflexivity.
Qed.

Lemma emit_no_teardown {A : Type} (frame : option (list event))
    (fault : option (nat * exn)) (next : A) :
  (forall events, frame = Some events -> teardown_count events = 0%nat) ->
  teardown_count (fst (emit frame fault next)) = 0%nat.
Proof.
  intro Hframe. unfold emit. destruct frame as [events|]; [|reflexivity].
  destruct fault as [[k e]|]; simpl.
  - apply firstn_no_teardown. now apply Hframe.
  - now apply Hframe.
Qed.

Lemma intro_loop_no_teardown (env : run_env) (fuel : nat) :
  forall i msg_index last trace out,
    intro_loop fuel env i msg_index last = Some (trace, out) ->
    teardown_count trace = 0%nat.
Proof.
  induction fuel as [|fuel IH]; intros i msg_index last trace out; simpl;
    [discriminate|].
  destruct (Qle_bool intro_total (env_now (intro_ticks env i) - intro_start env)).
  { intro Heq. injection Heq as <- <-. reflexivity. }
  destruct (getitem MESSAGES (msg_index mod len MESSAGES)) as [m|].
  2: { intro Heq. injection Heq as <- <-. reflexivity. }
  match goal with
  | |- context [emit ?f ?flt tt] =>
      pose proof (emit_no_teardown f flt tt) as Hemit;
      destruct (emit f flt tt) as [events [u|x]]
  end.
  - match goal with
    | |- context [intro_loop fuel env ?i' ?mi ?l] =>
        specialize (IH i' mi l); destruct (intro_loop fuel env i' mi l)
          as [[rest out']|]
    end; [|discriminate].
    intro Heq. injection Heq as <- <-. rewrite teardown_count_app.
    rewrite (IH rest out' eq_refl). simpl in Hemit. rewrite Hemit; [lia|].
    intros ev Hev. eapply draw_frame_no_teardown; eauto.
  - intro Heq. injection Heq as <- <-. simpl in Hemit. apply Hemit.
    intros ev Hev. eapply draw_frame_no_teardown; eauto.
Qed.

Section LoopFacts.

Context {G : Type} `{Random G}.

(** An iteration of the main loop ends as [emit] says, for some frame that
    [draw_frame] built. *)
Lemma main_iteration_emits (start : Q) (e : tick_env) (st : anim_state)
    (g : G) :
  exists hs msg st',
    fst (main_iteration start e st g)
    = emit (draw_frame hs msg (fst (env_draw_size e)) (snd (env_draw_size e)))
        (env_fault e) st'.
Proof.
  unfold main_iteration, bind, ret, get_size.
  destruct (tick start (env_now e) (Z.max 20 (fst (env_size e)))
              (Z.max 10 (snd (env_size e))) (hearts st) g) as [live g1].
  destruct (Qle_bool (next_msg_time st) (env_t e)).
  - destruct (choice MESSAGES g1) as [m g2].
    destruct (uniform 0.8 2.2 g2) as [d g3]. simpl. eauto.
  - simpl. eauto.
Qed.

Lemma main_iteration_no_teardown (start : Q) (e : tick_env) (st : anim_state)
    (g : G) :
  teardown_count (fst (fst (main_iteration start e st g))) = 0%nat.
Proof.
  destruct (main_iteration_emits start e st g) as [hs [msg [st' ->]]].
  apply emit_no_teardown. intros ev Hev.
  eapply draw_frame_no_teardown; eauto.
Qed.

Lemma main_iteration_fault (start : Q) (e : tick_env) (st : anim_state)
    (g : G) (k : nat) (x : exn) :
  env_fault e = Some (k, x) ->
  exists trace y, fst (main_iteration start e st g) = (trace, Raised y).
Proof.
  intro Hfault.
  destruct (main_iteration_emits start e st g) as [hs [msg [st' ->]]].
  unfold emit. rewrite Hfault.
  destruct (draw_frame hs msg _ _); eauto.
Qed.

Lemma main_loop_no_teardown (env : run_env) (fuel : nat) :
  forall i st g trace out,
    main_loop fuel env i st g = Some (trace, out) ->
    teardown_count trace = 0%nat /\ exists x, out = Raised x.
Proof.
  induction fuel as [|fuel IH]; intros i st g trace out; simpl;
    [discriminate|].
  pose proof (main_iteration_no_teardown (anim_start env) (main_ticks env i)
                st g) as Hit.
  destruct (main_iteration (anim_start env) (main_ticks env i) st g)
    as [[events [st'|x]] g'].
  - specialize (IH (S i) st' g').
    destruct (main_loop fuel env (S i) st' g') as [[rest out']|];
      [|discriminate].
    intro Heq. injection Heq as <- <-.
    destruct (IH rest out' eq_refl) as [Hrest Hout].
    split; [|exact Hout]. rewrite teardown_count_app. simpl in Hit. lia.
  - intro Heq. injection Heq as <- <-. simpl in Hit. eauto.
Qed.

(** An exception injected into iteration [i + n] ends the main loop started
    at iteration [i], within [n + 1] iterations. *)
Lemma main_loop_ends (env : run_env) (k : nat) (x : exn) (n : nat) :
  forall i st g,
    env_fault (main_ticks env (i + n)) = Some (k, x) ->
    exists trace y, main_loop (S n) env i st g = Some (trace, Raised y).
Proof.
  induction n as [|n IH]; intros i st g Hfault.
  - rewrite Nat.add_0_r in Hfault. simpl.
    destruct (main_iteration_fault (anim_start env) (main_ticks env i) st g
                k x Hfault) as [trace [y Hit]].
    destruct (main_iteration (anim_start env) (main_ticks env i) st g)
      as [[events out] g']. simpl in Hit. injection Hit as -> ->. eauto.
  - change (main_loop (S (S n)) env i st g)
      with (match main_iteration (anim_start env) (main_ticks env i) st g with
            | ((events, Normal st'), g') =>
                match main_loop (S n) env (S i) st' g' with
                | Some (rest, out) => Some (events ++ rest, out)
                | None => None
                end
            | ((events, Raised x), _) => Some (events, Raised x)
            end).
    destruct (main_iteration (anim_start env) (main_ticks env i) st g)
      as [[events [st'|y]] g']; [|eauto].
    destruct (IH (S i) st' g') as [rest [y Hrest]].
    + now replace (S i + n)%nat with (i + S n)%nat by lia.
    + rewrite Hrest. eauto.
Qed.

Lemma main_loop_more_fuel (env : run_env) (fuel : nat) :
  forall extra i st g r,
    main_loop fuel env i st g = Some r ->
    main_loop (fuel + extra) env i st g = Some r.
Proof.
  induction fuel as [|fuel IH]; intros extra i st g r; simpl; [discriminate|].
  destruct (main_iteration (anim_start env) (main_ticks env i) st g)
    as [[events [st'|y]] g']; [|auto].
  destruct (main_loop fuel env (S i) st' g') as [[rest out]|] eqn:E;
    [|discriminate].
  rewrite (IH extra _ _ _ _ E). auto.
Qed.

End LoopFacts.

Lemma intro_loop_more_fuel (env : run_env) (fuel : nat) :
  forall extra i msg_index last r,
    intro_loop fuel env i msg_index last = Some r ->
    intro_loop (fuel + extra) env i msg_index last = Some r.
Proof.
  induction fuel as [|fuel IH]; intros extra i msg_index last r; simpl;
    [discriminate|].
  destruct (Qle_bool intro_total (env_now (intro_ticks env i) - intro_start env));
    [auto|].
  destruct (getitem MESSAGES (msg_index mod len MESSAGES)) as [m|]; [|auto].
  match goal with
  | |- context [emit ?f ?flt tt] => destruct (emit f flt tt) as [events [u|x]]
  end; [|auto].
  match goal with
  | |- context [intro_loop fuel env ?i' ?mi ?l] =>
      destruct (intro_loop fuel env i' mi l) as [[rest out]|] eqn:E
  end; [|discriminate].
  rewrite (IH extra _ _ _ _ E). auto.
Qed.

Lemma animation_no_teardown {G : Type} `{Random G} (fuel : nat)
    (env : run_env) (g : G) (trace : list event) (out : outcome unit) :
  animation fuel env g = Some (trace, out) -> teardown_count trace = 0%nat.
Proof.
  unfold animation.
  destruct (intro_loop fuel env 0 0 (intro_start env)) as [[events [u|x]]|]
    eqn:Hintro; [| |discriminate].
  - pose proof (intro_loop_no_teardown env fuel _ _ _ _ _ Hintro) as Hev.
    destruct (main_loop fuel env 0 _ g) as [[rest out']|] eqn:Hmain;
      [|discriminate].
    intro Heq. injection Heq as <- <-. rewrite teardown_count_app.
    destruct (main_loop_no_teardown env fuel _ _ _ _ _ Hmain) as [Hrest _].
    lia.
  - intro Heq. injection Heq as <- <-.
    eapply intro_loop_no_teardown; eauto.
Qed.

Lemma attempt_setup_no_teardown (fault : option (nat * exn)) :
  teardown_count (fst (attempt setup fault)) = 0%nat.
Proof.
  destruct fault as [[k e]|]; simpl; [|reflexivity].
  now apply firstn_no_teardown.
Qed.

Lemma handle_no_teardown {A : Type} (genv : guard_env) (out : outcome A) :
  teardown_count (fst (handle genv out)) = 0%nat.
Proof.
  unfold handle. destruct out as [a|[| |name]]; try reflexivity.
  unfold attempt. destruct (handler_fault genv) as [[k e]|]; simpl;
    [|reflexivity].
  now apply firstn_no_teardown.
Qed.

Lemma attempt_teardown_count (genv : guard_env) :
  teardown_count (fst (attempt teardown (finally_fault genv)))
  = (if teardown_written genv then 1 else 0)%nat.
Proof.
  unfold teardown_written, attempt.
  destruct (finally_fault genv) as [[[|[|k]] e]|]; simpl;
    rewrite ?firstn_nil; reflexivity.
Qed.

Lemma attempt_teardown_shape (genv : guard_env) :
  teardown_written genv = true ->
  exists rest,
    fst (attempt teardown (finally_fault genv))
    = Write (SHOW_CURSOR ++ ALT_SCREEN_OFF) :: rest /\
    (rest = [] \/ rest = [Flush]).
Proof.
  unfold teardown_written, attempt.
  destruct (finally_fault genv) as [[[|[|k]] e]|]; unfold teardown; simpl;
    rewrite ?firstn_nil; try discriminate; intros _;
    eexists; (split; [reflexivity|]); auto.
Qed.

Lemma protect_trace {A : Type} (genv : guard_env) (trace : list event)
    (out : outcome A) :
  protect genv (trace, out)
  = (trace ++ fst (handle genv out)
     ++ fst (attempt teardown (finally_fault genv)),
     match snd (attempt teardown (finally_fault genv)) with
     | Some e => Some e
     | None => snd (handle genv out)
     end).
Proof.
  unfold protect. destruct (handle genv out) as [handled pending].
  destruct (attempt teardown (finally_fault genv)) as [final raised].
  reflexivity.
Qed.

(** The two ways a run of [main] ends: in the setup, or through the
    [finally] block. *)
Lemma main_shape {G : Type} `{Random G} (fuel : nat) (env : run_env)
    (genv : guard_env) (g : G) (trace : list event) (pending : option exn) :
  main fuel env genv g = Some (trace, pending) ->
  match setup_fault genv with
  | Some (k, e) => trace = firstn k setup /\ pending = Some e
  | None =>
      exists frames out,
        animation fuel env g = Some (frames, out) /\
        trace = setup ++ frames ++ fst (handle genv out)
                ++ fst (attempt teardown (finally_fault genv)) /\
        pending = match snd (attempt teardown (finally_fault genv)) with
                  | Some e => Some e
                  | None => snd (handle genv out)
                  end
  end.
Proof.
  unfold main, attempt at 1. destruct (setup_fault genv) as [[k e]|].
  - intro Heq. injection Heq as <- <-. auto.
  - destruct (animation fuel env g) as [[frames out]|]; [|discriminate].
    rewrite protect_trace. intro Heq. injection Heq as <- <-.
    exists frames, out. auto.
Qed.

(** ** The run as a whole *)

(** C6.  On every exit path of the animation (its end, an interrupt at any
    point of any iteration, or any other exception raised in an iteration)
    the [finally] block runs once, after the frames and the handler, in
    which no teardown is written: the teardown sequence is written exactly
    once, as the last write, whenever the device accepts that write, and
    never twice.  The same holds of the guard around any body, a body that
    ends normally included. *)
Theorem teardown_once_on_every_loop_exit {G : Type} `{Random G} (fuel : nat)
    (env : run_env) (genv : guard_env) (g : G) (trace : list event)
    (pending : option exn) :
  main fuel env genv g = Some (trace, pending) ->
  (teardown_count trace <= 1)%nat /\
  (setup_fault genv = None ->
     exists body,
       trace = setup ++ body ++ fst (attempt teardown (finally_fault genv)) /\
       teardown_count body = 0%nat) /\
  (setup_fault genv = None -> teardown_written genv = true ->
     teardown_count trace = 1%nat /\
     exists body rest,
       trace = setup ++ body
               ++ Write (SHOW_CURSOR ++ ALT_SCREEN_OFF) :: rest /\
       teardown_count body = 0%nat /\ (rest = [] \/ rest = [Flush])) /\
  (forall (A : Type) (frames : list event) (out : outcome A),
     teardown_written genv = true ->
     teardown_count (fst (protect genv (frames, out)))
     = S (teardown_count frames)).
Proof.
  intro Hrun. pose proof (main_shape fuel env genv g trace pending Hrun) as Hs.
  split; [|split; [|split]].
  - destruct (setup_fault genv) as [[k e]|].
    + destruct Hs as [-> _].
      pose proof (attempt_setup_no_teardown (Some (k, e))) as Hz.
      simpl in Hz. rewrite Hz. lia.
    + destruct Hs as [frames [out [Hanim [-> _]]]].
      rewrite !teardown_count_app.
      rewrite (animation_no_teardown fuel env g frames out Hanim).
      rewrite handle_no_teardown, attempt_teardown_count.
      change (teardown_count setup) with 0%nat.
      destruct (teardown_written genv); lia.
  - intro Hsetup. rewrite Hsetup in Hs.
    destruct Hs as [frames [out [Hanim [-> _]]]].
    exists (frames ++ fst (handle genv out)).
    split; [now rewrite <- app_assoc|].
    rewrite teardown_count_app, handle_no_teardown.
    rewrite (animation_no_teardown fuel env g frames out Hanim). reflexivity.
  - intros Hsetup Hwritten. rewrite Hsetup in Hs.
    destruct Hs as [frames [out [Hanim [-> _]]]].
    pose proof (animation_no_teardown fuel env g frames out Hanim) as Hframes.
    split.
    + rewrite !teardown_count_app, Hframes, handle_no_teardown,
        attempt_teardown_count, Hwritten. reflexivity.
    + destruct (attempt_teardown_shape genv Hwritten) as [rest [-> Hrest]].
      exists (frames ++ fst (handle genv out)), rest.
      split; [now rewrite <- app_assoc|]. split; [|exact Hrest].
      rewrite teardown_count_app, Hframes, handle_no_teardown. reflexivity.
  - intros A frames out Hwritten. rewrite protect_trace. simpl fst.
    rewrite !teardown_count_app, handle_no_teardown, attempt_teardown_count,
      Hwritten. lia.
Qed.

Lemma teardown_once_on_every_loop_exit_witness :
  match main 4 (short_run 2) quiet_guard 42 with
  | Some (trace, pending) => teardown_count trace = 1%nat
  | None => False
  end.
Proof.
  destruct (main 4 (short_run 2) quiet_guard 42) as [[trace pending]|] eqn:Hrun.
  - destruct (@teardown_once_on_every_loop_exit Z Random_lcg 4%nat
                (short_run 2) quiet_guard 42 trace pending Hrun)
      as [_ [_ [Honce _]]].
    apply Honce; reflexivity.
  - vm_compute in Hrun. discriminate Hrun.
Defined.

(** X11.  What the guard does not cover.  An exception in the setup, which
    precedes the [try], ends [main] with nothing but a part of the setup
    written: no teardown.  When the device refuses the write of the
    [finally] block, no teardown is written either and that exception
    leaves [main].  A [KeyboardInterrupt] leaves [main] only when it is
    raised in the setup, in the handler or in the [finally] block: an
    interrupt raised inside the loops never does. *)
Theorem main_outside_the_guard {G : Type} `{Random G} (fuel : nat)
    (env : run_env) (genv : guard_env) (g : G) (trace : list event)
    (pending : option exn) :
  main fuel env genv g = Some (trace, pending) ->
  (forall k e, setup_fault genv = Some (k, e) ->
     trace = firstn k setup /\ pending = Some e /\
     teardown_count trace = 0%nat) /\
  (setup_fault genv = None -> teardown_written genv = false ->
     teardown_count trace = 0%nat /\ exists e, pending = Some e) /\
  (pending = Some KeyboardInterrupt -> interrupt_outside genv).
Proof.
  intro Hrun. pose proof (main_shape fuel env genv g trace pending Hrun) as Hs.
  split; [|split].
  - intros k e Hsetup. rewrite Hsetup in Hs. destruct Hs as [-> ->].
    split; [reflexivity|]. split; [reflexivity|].
    exact (attempt_setup_no_teardown (Some (k, e))).
  - intros Hsetup Hrefused. rewrite Hsetup in Hs.
    destruct Hs as [frames [out [Hanim [-> ->]]]]. split.
    + rewrite !teardown_count_app.
      rewrite (animation_no_teardown fuel env g frames out Hanim).
      rewrite handle_no_teardown, attempt_teardown_count, Hrefused.
      reflexivity.
    + unfold teardown_written in Hrefused. unfold attempt.
      destruct (finally_fault genv) as [[[|k] e]|]; try discriminate.
      simpl. eauto.
  - intro Hki. unfold interrupt_outside.
    destruct (setup_fault genv) as [[k e]|] eqn:Hsetup.
    + destruct Hs as [_ ->]. injection Hki as ->. exists k. auto.
    + destruct Hs as [frames [out [_ [_ ->]]]]. unfold attempt in Hki.
      destruct (finally_fault genv) as [[k e]|] eqn:Hfinal; simpl in Hki.
      * injection Hki as ->. exists k. auto.
      * unfold handle, attempt in Hki.
        destruct out as [a|[| |name]]; simpl in Hki; try discriminate.
        destruct (handler_fault genv) as [[k e]|] eqn:Hhandler; simpl in Hki;
          [|discriminate].
        injection Hki as ->. exists k. auto.
Qed.

Lemma main_outside_the_guard_witness :
  match main 4 (short_run 2)
          {| setup_fault := Some (1%nat, KeyboardInterrupt);
             handler_fault := None; finally_fault := None |} 42 with
  | Some (trace, pending) =>
      trace = firstn 1 setup /\ pending = Some KeyboardInterrupt /\
      teardown_count trace = 0%nat
  | None => False
  end.
Proof.
  destruct (main 4 (short_run 2)
              {| setup_fault := Some (1%nat, KeyboardInterrupt);
                 handler_fault := None; finally_fault := None |} 42)
    as [[trace pending]|] eqn:Hrun.
  - destruct (@main_outside_the_guard Z Random_lcg 4%nat (short_run 2) _ 42
                trace pending Hrun) as [Hsetup _].
    apply Hsetup. reflexivity.
  - vm_compute in Hrun. discriminate Hrun.
Defined.

Section Termination.

Context {G : Type} `{Random G}.

Lemma draw_frame_shape (hs : list Heart.t) (msg : option pystr)
    (columns lines : Z) :
  Forall drawable hs ->
  exists text, draw_frame hs msg columns lines = Some (frame_events text).
Proof.
  intro Hall. unfold draw_frame, get_size, frame_events.
  destruct (hearts_total (Z.max 20 columns) (Z.max 10 lines) hs _
              (blank_screen_dims (Z.max 20 columns) (Z.max 10 lines)) Hall)
    as [b1 Hb1].
  assert (Hw : 0 <= Z.max 20 columns) by lia.
  assert (Hh : 2 <= Z.max 10 lines) by lia.
  rewrite (frame_buffer_after_hearts hs msg _ _ b1 Hw Hh Hb1). eauto.
Qed.

(** With a drawable live set, an iteration builds one frame and ends as the
    environment decides: normally without a fault, by the injected exception
    otherwise, with the part of the frame emitted before it. *)
Lemma main_iteration_outcome (start : Q) (e : tick_env) (st : anim_state)
    (g : G) :
  Forall drawable (hearts st) ->
  exists text st',
    Forall drawable (hearts st') /\
    frame_text_at e text /\
    fst (main_iteration start e st g)
    = (match env_fault e with
       | Some (k, _) => firstn k (frame_events text)
       | None => frame_events text
       end,
       match env_fault e with
       | Some (_, x) => Raised x
       | None => Normal st'
       end).
Proof.
  intro Hall. unfold main_iteration, bind, ret, get_size.
  pose proof (tick_drawable start (env_now e) (Z.max 20 (fst (env_size e)))
                (Z.max 10 (snd (env_size e))) (hearts st) g Hall) as Hlive.
  destruct (tick start (env_now e) (Z.max 20 (fst (env_size e)))
              (Z.max 10 (snd (env_size e))) (hearts st) g) as [live g1].
  simpl in Hlive.
  destruct (Qle_bool (next_msg_time st) (env_t e)).
  - destruct (choice MESSAGES g1) as [m g2].
    destruct (uniform 0.8 2.2 g2) as [d g3]. simpl.
    destruct (draw_frame_shape live (Some m) (fst (env_draw_size e))
                (snd (env_draw_size e)) Hlive) as [text Htext].
    rewrite Htext.
    exists text,
      {| hearts := live;
         next_msg_time := (env_t e + msg_duration + d)%Q;
         current_msg := Some m |}.
    split; [exact Hlive|]. split; [exists live, (Some m); auto|].
    unfold emit. destruct (env_fault e) as [[k x]|]; reflexivity.
  - simpl.
    destruct (draw_frame_shape live (current_msg st) (fst (env_draw_size e))
                (snd (env_draw_size e)) Hlive) as [text Htext].
    rewrite Htext.
    exists text,
      {| hearts := live;
         next_msg_time := next_msg_time st;
         current_msg := current_msg st |}.
    split; [exact Hlive|]. split; [exists live, (current_msg st); auto|].
    unfold emit. destruct (env_fault e) as [[k x]|]; reflexivity.
Qed.

(** The main loop up to the first fault: [n] whole frames, then the part of
    the frame of iteration [i + n] that precedes the exception. *)
Lemma main_loop_first_fault (env : run_env) (k : nat) (x : exn) (n : nat) :
  forall i st g,
    Forall drawable (hearts st) ->
    (forall j, (j < n)%nat -> env_fault (main_ticks env (i + j)) = None) ->
    env_fault (main_ticks env (i + n)) = Some (k, x) ->
    exists texts last,
      length texts = n /\
      frames_from env i (texts ++ [last]) /\
      main_loop (S n) env i st g
      = Some (flat_map frame_events texts ++ firstn k (frame_events last),
              Raised x).
Proof.
  induction n as [|n IH]; intros i st g Hall Hquiet Hfault.
  - rewrite Nat.add_0_r in Hfault. simpl.
    destruct (main_iteration_outcome (anim_start env) (main_ticks env i) st g
                Hall) as [text [st' [_ [Htext Hit]]]].
    rewrite Hfault in Hit.
    destruct (main_iteration (anim_start env) (main_ticks env i) st g)
      as [[ev out] g']. simpl in Hit. injection Hit as -> ->.
    exists [], text. simpl. auto.
  - change (main_loop (S (S n)) env i st g)
      with (match main_iteration (anim_start env) (main_ticks env i) st g with
            | ((events, Normal st'), g') =>
                match main_loop (S n) env (S i) st' g' with
                | Some (rest, out) => Some (events ++ rest, out)
                | None => None
                end
            | ((events, Raised x), _) => Some (events, Raised x)
            end).
    destruct (main_iteration_outcome (anim_start env) (main_ticks env i) st g
                Hall) as [text [st' [Hall' [Htext Hit]]]].
    assert (Hnone : env_fault (main_ticks env i) = None).
    { specialize (Hquiet 0%nat ltac:(lia)).
      now rewrite Nat.add_0_r in Hquiet. }
    rewrite Hnone in Hit.
    destruct (main_iteration (anim_start env) (main_ticks env i) st g)
      as [[ev out] g']. simpl in Hit. injection Hit as -> ->.
    destruct (IH (S i) st' g' Hall') as [texts [last [Hlen [Hfrom Hrest]]]].
    + intros j Hj. replace (S i + j)%nat with (i + S j)%nat by lia.
      apply Hquiet. lia.
    + now replace (S i + n)%nat with (i + S n)%nat by lia.
    + rewrite Hrest. exists (text :: texts), last.
      split; [simpl; now rewrite Hlen|]. split; [simpl; auto|].
      change (flat_map frame_events (text :: texts))
        with (frame_events text ++ flat_map frame_events texts).
      now rewrite <- app_assoc.
Qed.

End Termination.

(** X12.  Once the intro is over and the setup was written, the first
    exception that reaches the main loop, at iteration [n], ends the run:
    with enough fuel, [main] returns.  Its trace is the setup, the frames
    of the intro, the whole frames of the iterations [0 .. n-1] (each the
    three events of a frame that [draw_frame] builds on the terminal of
    its tick), the first [k] events of the frame of iteration [n], what
    the handler writes, and what the [finally] block writes.  With a
    handler and a [finally] block that complete, an interrupt is swallowed
    after the exit message, and any other exception leaves [main] after
    the teardown; an exception of the handler or of the [finally] block
    leaves [main] instead. *)
Theorem first_exception_ends_run {G : Type} `{Random G} (env : run_env)
    (genv : guard_env) (g : G) (n k : nat) (x : exn) (fuel0 : nat)
    (intro_trace : list event) :
  setup_fault genv = None ->
  intro_loop fuel0 env 0 0 (intro_start env) = Some (intro_trace, Normal tt) ->
  (forall j, (j < n)%nat -> env_fault (main_ticks env j) = None) ->
  env_fault (main_ticks env n) = Some (k, x) ->
  exists texts last,
    length texts = n /\
    frames_from env 0 (texts ++ [last]) /\
    main (fuel0 + S n) env genv g
    = Some (setup ++ intro_trace
            ++ (flat_map frame_events texts ++ firstn k (frame_events last))
            ++ fst (handle genv (@Raised unit x))
            ++ fst (attempt teardown (finally_fault genv)),
            match snd (attempt teardown (finally_fault genv)) with
            | Some e => Some e
            | None => snd (handle genv (@Raised unit x))
            end) /\
    (handler_fault genv = None -> finally_fault genv = None ->
     main (fuel0 + S n) env genv g
     = Some (setup ++ intro_trace
             ++ (flat_map frame_events texts ++ firstn k (frame_events last))
             ++ match x with
                | KeyboardInterrupt => [Write exit_message]
                | _ => []
                end
             ++ teardown,
             match x with
             | KeyboardInterrupt => None
             | _ => Some x
             end)).
Proof.
  intros Hsetup Hintro Hquiet Hfault.
  destruct (main_loop_first_fault env k x n 0
              {| hearts := []; next_msg_time := 0.0; current_msg := None |} g)
    as [texts [last [Hlen [Hfrom Hframes]]]];
    [constructor | exact Hquiet | exact Hfault |].
  exists texts, last. split; [exact Hlen|]. split; [exact Hfrom|].
  assert (Hmain :
    main (fuel0 + S n) env genv g
    = Some (setup ++ intro_trace
            ++ (flat_map frame_events texts ++ firstn k (frame_events last))
            ++ fst (handle genv (@Raised unit x))
            ++ fst (attempt teardown (finally_fault genv)),
            match snd (attempt teardown (finally_fault genv)) with
            | Some e => Some e
            | None => snd (handle genv (@Raised unit x))
            end)).
  { unfold main, animation. rewrite Hsetup. unfold attempt at 1.
    rewrite (intro_loop_more_fuel env fuel0 (S n) _ _ _ _ Hintro).
    replace (fuel0 + S n)%nat with (S n + fuel0)%nat by lia.
    rewrite (main_loop_more_fuel env (S n) fuel0 _ _ _ _ Hframes).
    rewrite protect_trace. now rewrite <- app_assoc. }
  split; [exact Hmain|].
  intros Hhandler Hfinally. rewrite Hmain.
  unfold handle, attempt. rewrite Hhandler, Hfinally.
  destruct x; reflexivity.
Qed.

Lemma first_exception_ends_run_witness :
  exists texts last,
    length texts = 2%nat /\
    frames_from (short_run 2) 0 (texts ++ [last]) /\
    main (1 + 3) (short_run 2) mute_handler 42
    = Some (setup ++ []
            ++ (flat_map frame_events texts ++ firstn 3 (frame_events last))
            ++ [] ++ teardown,
            Some (OtherError "UnicodeEncodeError")).
Proof.
  destruct (@first_exception_ends_run Z Random_lcg (short_run 2) mute_handler
              42 2%nat 3%nat KeyboardInterrupt 1%nat [])
    as [texts [last [Hlen [Hfrom [Hmain _]]]]].
  - reflexivity.
  - reflexivity.
  - intros j Hj. destruct j as [|[|j]]; [reflexivity | reflexivity | lia].
  - reflexivity.
  - exists texts, last. split; [exact Hlen|]. split; [exact Hfrom|].
    exact Hmain.
Defined.

(** ** What the spawn pass adds *)

Lemma choice_fst_in {G : Type} `{RandomSpec G} {A : Type} `{Default A}
    (l : list A) (g : G) : l <> [] -> In (fst (choice l g)) l.
Proof. apply choice_in. Qed.

(** The fields of a candidate, under the contract of the generator. *)
Lemma new_heart_fields {G : Type} `{RandomSpec G} (now : Q) (col : Z) (g : G) :
  let c := fst (new_heart now col g) in
  Heart.x c = col /\ Heart.y c = 2.0%Q /\ Heart.h c = 1 /\ Heart.w c = 1 /\
  (exists ch, In ch (HEARTS_SMALL ++ HEARTS_MED) /\ Heart.sprite c = [ch]) /\
  In (Heart.color c) PINKS /\ In (Heart.twinkle_phase c) [0; 1; 2] /\
  (0.06 <= Heart.speed c)%Q /\ (Heart.speed c <= 0.28)%Q /\
  (now + 0.1 <= Heart.twinkle_next c)%Q /\
  (Heart.twinkle_next c <= now + 0.7)%Q.
Proof.
  unfold new_heart, bind, ret.
  destruct (choices [py "small"; py "medium"] [6; 4] g) as [sz g1].
  destruct (choices [py "filled"; py "outline"] [6; 4] g1) as [sty g2].
  cbv zeta.
  assert (Hglyph : forall pool,
            pool = HEARTS_SMALL \/ pool = HEARTS_MED ->
            In (fst (choice pool g2)) (HEARTS_SMALL ++ HEARTS_MED)).
  { intros pool [-> | ->]; apply in_or_app; [left | right];
      apply choice_in; discriminate. }
  assert (Hone : forall ch, In ch (HEARTS_SMALL ++ HEARTS_MED) -> len ch = 1).
  { intros ch Hin.
    destruct Hin as [<- | [<- | [<- | [<- | []]]]]; reflexivity. }
  destruct (pystr_eqb sz (py "small"));
    [destruct (pystr_eqb sty (py "outline"))|].
  all: match goal with
       | |- context [choice ?pool ?gg] =>
           pose proof (Hglyph pool ltac:(auto)) as Hin;
           destruct (choice pool gg) as [ch g3]; simpl in Hin
       end.
  all: match goal with
       | |- context [uniform ?lo ?hi ?gg] =>
           pose proof (uniform_range lo hi gg) as Hsp;
           destruct (uniform lo hi gg) as [sp g4]; simpl in Hsp
       end.
  all: match goal with
       | |- context [choice PINKS ?gg] =>
           pose proof (choice_in _ _ PINKS gg ltac:(discriminate)) as Hcolor;
           destruct (choice PINKS gg) as [color g5]; simpl in Hcolor
       end.
  all: match goal with
       | |- context [choice [0; 1; 2] ?gg] =>
           pose proof (choice_in _ _ [0; 1; 2] gg ltac:(discriminate))
             as Hphase;
           destruct (choice [0; 1; 2] gg) as [phase g6]; simpl in Hphase
       end.
  all: match goal with
       | |- context [uniform 0.1 0.7 ?gg] =>
           pose proof (uniform_range 0.1 0.7 gg ltac:(lra)) as Hdelay;
           destruct (uniform 0.1 0.7 gg) as [delay g7]; simpl in Hdelay
       end.
  all: unfold base_min_speed in Hsp;
       destruct Hsp as [Hsp1 Hsp2]; [lra|].
  all: pose proof (Hone ch Hin) as Hw.
  all: simpl; repeat split; auto; try lra.
  all: exists ch; split; [exact Hin | reflexivity].
Qed.

Lemma spawn_columns_in_order {G : Type} `{Random G} (now chance : Q)
    (cols : list Z) :
  forall (hs : list Heart.t) (g : G),
  exists added,
    fst (for_each cols (spawn_column now chance) hs g) = hs ++ added /\
    Forall (fun c => In (Heart.x c) cols /\ candidate_of now c) added /\
    (StronglySorted Z.lt cols ->
     StronglySorted Z.lt (map Heart.x added)).
Proof.
  induction cols as [|col cols IH]; intros hs g.
  - exists []. simpl. rewrite app_nil_r.
    split; [reflexivity|]. split; [constructor | intros _; constructor].
  - simpl. unfold bind.
    destruct (spawn_column_cases now chance hs col g) as [Hsame | Hnew].
    + destruct (spawn_column now chance hs col g) as [hs1 g1]. simpl in Hsame.
      subst hs1. destruct (IH hs g1) as [added [H1 [H2 H3]]].
      exists added. split; [exact H1|]. split.
      * eapply Forall_impl; [|exact H2]. intros c [Hc1 Hc2].
        split; [now right | exact Hc2].
      * intro Hs. apply H3. now inversion Hs.
    + destruct Hnew as [g' [_ [_ Hnew]]].
      destruct (spawn_column now chance hs col g) as [hs1 g1]. simpl in Hnew.
      subst hs1.
      destruct (IH (hs ++ [fst (new_heart now col g')]) g1)
        as [added [H1 [H2 H3]]].
      exists (fst (new_heart now col g') :: added).
      rewrite <- app_assoc in H1. simpl in H1.
      split; [exact H1|].
      destruct (new_heart_shape now col g') as [Hx _].
      split.
      * constructor.
        -- split; [left; now rewrite Hx | now exists col, g'].
        -- eapply Forall_impl; [|exact H2]. intros c [Hc1 Hc2].
           split; [now right | exact Hc2].
      * intro Hs. inversion Hs as [|? ? Hs' Hlt]; subst. simpl.
        constructor; [now apply H3|].
        rewrite Hx. apply Forall_forall. intros z Hz.
        apply in_map_iff in Hz. destruct Hz as [c [<- Hc]].
        rewrite Forall_forall in H2, Hlt. apply Hlt. now apply H2.
Qed.

Lemma range_sorted (n : Z) : StronglySorted Z.lt (range n).
Proof.
  unfold range. generalize 0%nat.
  induction (Z.to_nat n) as [|k IH]; intro start; simpl; constructor.
  - apply IH.
  - apply Forall_forall. intros z Hz. apply in_map_iff in Hz.
    destruct Hz as [i [<- Hi]]. apply in_seq in Hi. lia.
Qed.

(** X13.  Under the contract of the generator, every particle that a spawn pass
    adds is a single glyph of the pools, one cell wide and high, at row 2
    of a column of the screen, with a colour of the palette, a twinkle
    phase in 0..2 rechecked 0.1 to 0.7 later, and a speed between 0.06 and
    0.28; the particles are added from left to right, at most one per
    column. *)
Theorem spawn_pass_adds_single_glyphs {G : Type} `{RandomSpec G}
    (now chance : Q) (width : Z) (hs : list Heart.t) (g : G) :
  exists added,
    fst (spawn_pass now chance width hs g) = hs ++ added /\
    StronglySorted Z.lt (map Heart.x added) /\
    Forall (fun c =>
              0 <= Heart.x c < width /\ Heart.y c = 2.0%Q /\
              Heart.h c = 1 /\ Heart.w c = 1 /\
              (exists ch, In ch (HEARTS_SMALL ++ HEARTS_MED) /\
                          Heart.sprite c = [ch]) /\
              In (Heart.color c) PINKS /\
              In (Heart.twinkle_phase c) [0; 1; 2] /\
              (0.06 <= Heart.speed c)%Q /\ (Heart.speed c <= 0.28)%Q /\
              (now + 0.1 <= Heart.twinkle_next c)%Q /\
              (Heart.twinkle_next c <= now + 0.7)%Q) added.
Proof.
  unfold spawn_pass.
  destruct (spawn_columns_in_order now chance (range width) hs g)
    as [added [H1 [H2 H3]]].
  exists added. split; [exact H1|]. split; [apply H3, range_sorted|].
  eapply Forall_impl; [|exact H2].
  intros c [Hcol [col [g' Hc]]].
  apply In_range in Hcol. subst c.
  destruct (new_heart_fields now col g') as [Hx Hrest].
  split; [exact Hcol | exact Hrest].
Qed.

Lemma spawn_pass_adds_single_glyphs_witness :
  exists added,
    fst (spawn_pass 8 1 6 [] 42) = [] ++ added /\
    StronglySorted Z.lt (map Heart.x added) /\
    Forall (fun c => 0 <= Heart.x c < 6 /\ Heart.y c = 2.0%Q) added.
Proof.
  destruct (@spawn_pass_adds_single_glyphs Z Random_lcg RandomSpec_lcg
              8%Q 1%Q 6 [] 42) as [added [H1 [H2 H3]]].
  exists added. split; [exact H1|]. split; [exact H2|].
  eapply Forall_impl; [|exact H3]. intros c Hc. cbv beta in Hc |- *.
  destruct Hc as [Hcol [Hrow _]]. split; [exact Hcol | exact Hrow].
Defined.

(** X14.  On a screen of more than two rows, every particle of the live set at
    the end of an iteration is above the bottom of the screen: the cull
    removed the others, and new particles start at row 2. *)
Theorem tick_keeps_particles_on_screen {G : Type} `{Random G}
    (start now : Q) (width height : Z) (hs : list Heart.t) (g : G) :
  2 < height ->
  Forall (fun p => (Heart.y p < inject_Z height)%Q)
    (fst (tick start now width height hs g)).
Proof.
  intro Hh. rewrite tick_unfold. unfold spawn_pass.
  destruct (spawn_columns_spec now (spawn_chance_per_col (now - start))
              (range width) (cull height (fst (step_hearts now hs g)))
              (snd (step_hearts now hs g))) as [added [-> [_ [Hc _]]]].
  apply Forall_app. split.
  - apply Forall_forall. intros p Hp. apply cull_In in Hp. tauto.
  - eapply Forall_impl; [|exact Hc].
    intros c [col [g' ->]].
    destruct (new_heart_shape now col g') as [_ [-> _]].
    assert (Hq : (inject_Z 3 <= inject_Z height)%Q)
      by (rewrite <- Zle_Qle; lia).
    change (inject_Z 3) with 3%Q in Hq. lra.
Qed.

Lemma tick_keeps_particles_on_screen_witness :
  Forall (fun p => (Heart.y p < inject_Z 10)%Q)
    (fst (tick 7 8 20 10 [heart_at 4] 42)).
Proof.
  apply (@tick_keeps_particles_on_screen Z Random_lcg 7%Q 8%Q 20 10
           [heart_at 4] 42).
  reflexivity.
Defined.

(** ** Falling *)

Lemma py_int_le (q : Q) : (0 <= q)%Q -> (inject_Z (py_int q) <= q)%Q.
Proof.
  intro Hq. apply (py_int_ge_iff q (py_int q) Hq). lia.
Qed.

Lemma py_int_monotone (a b : Q) :
  (0 <= a)%Q -> (a <= b)%Q -> py_int a <= py_int b.
Proof.
  intros Ha Hab. apply py_int_ge_iff; [lra|].
  pose proof (py_int_le a Ha). lra.
Qed.

Lemma iter_step_fields (n : nat) (p : Heart.t) :
  (0 <= Heart.speed p)%Q ->
  let q := Nat.iter n Heart.step p in
  Heart.speed q = Heart.speed p /\ Heart.x q = Heart.x p /\
  Heart.w q = Heart.w p /\ Heart.h q = Heart.h p /\
  (Heart.y p <= Heart.y q)%Q.
Proof.
  intro Hs. cbv zeta. induction n as [|n [IHs [IHx [IHw [IHh IHy]]]]].
  - simpl. repeat split; auto. apply Qle_refl.
  - simpl Nat.iter. unfold Heart.step at 1 3 5 7 9.
    simpl Heart.speed. simpl Heart.x. simpl Heart.w. simpl Heart.h.
    simpl Heart.y. repeat split; auto.
    rewrite IHs. lra.
Qed.

(** X15.  Particles only fall.  For a particle on the screen ([y >= 0]) with
    a speed that is not negative, any number of calls of [Heart.step]
    leaves the speed, the column and the size of the box unchanged, never
    decreases the vertical position, and never decreases the top row
    [int(y)]. *)
Theorem particles_only_fall (p : Heart.t) (n : nat) :
  (0 <= Heart.y p)%Q -> (0 <= Heart.speed p)%Q ->
  let q := Nat.iter n Heart.step p in
  (Heart.y p <= Heart.y q)%Q /\
  Heart.speed q = Heart.speed p /\
  box_left q = box_left p /\ Heart.w q = Heart.w p /\
  Heart.h q = Heart.h p /\
  box_top p <= box_top q.
Proof.
  intros Hy Hs. cbv zeta.
  destruct (iter_step_fields n p Hs) as [Hspeed [Hx [Hw [Hh Hpos]]]].
  split; [exact Hpos|]. split; [exact Hspeed|].
  split; [unfold box_left; now rewrite Hx, Hw|].
  split; [exact Hw|]. split; [exact Hh|].
  unfold box_top. now apply py_int_monotone.
Qed.

Lemma particles_only_fall_witness :
  (Heart.y falling_heart <= Heart.y (Nat.iter 10 Heart.step falling_heart))%Q /\
  box_top falling_heart <= box_top (Nat.iter 10 Heart.step falling_heart).
Proof.
  destruct (particles_only_fall falling_heart 10)
    as [Hy [_ [_ [_ [_ Htop]]]]].
  - discriminate.
  - discriminate.
  - split; [exact Hy | exact Htop].
Defined.

(** ** The intro *)

Lemma intro_message_exists (msg_index : Z) :
  exists m, getitem MESSAGES (msg_index mod len MESSAGES) = Some m.
Proof.
  destruct (getitem_in_range MESSAGES (msg_index mod len MESSAGES))
    as [m [Hm _]]; [|eauto].
  apply Z.mod_pos_bound. reflexivity.
Qed.

Lemma intro_loop_runs (env : run_env) (n : nat) :
  forall i msg_index last,
    (forall j, (j < n)%nat ->
       (env_now (intro_ticks env (i + j)) - intro_start env < intro_total)%Q /\
       env_fault (intro_ticks env (i + j)) = None) ->
    (intro_total <= env_now (intro_ticks env (i + n)) - intro_start env)%Q ->
    exists trace,
      intro_loop (S n) env i msg_index last = Some (trace, Normal tt) /\
      length trace = (3 * n)%nat.
Proof.
  induction n as [|n IH]; intros i msg_index last Hquiet Hend.
  - rewrite Nat.add_0_r in Hend. apply Qle_bool_iff in Hend.
    simpl. rewrite Hend. exists []. auto.
  - destruct (Hquiet 0%nat ltac:(lia)) as [Hnow Hfault].
    rewrite Nat.add_0_r in Hnow, Hfault.
    assert (Hgo : Qle_bool intro_total
                    (env_now (intro_ticks env i) - intro_start env) = false).
    { destruct (Qle_bool intro_total
                  (env_now (intro_ticks env i) - intro_start env)) eqn:E;
        [|reflexivity].
      apply Qle_bool_iff in E. exfalso. exact (Qlt_not_le _ _ Hnow E). }
    destruct (intro_message_exists msg_index) as [m Hm].
    destruct (draw_frame_shape []
                (Some (m ++ repeat 46%N
                         (Z.to_nat
                            (py_int
                               (py_fmod
                                  ((env_now (intro_ticks env i)
                                    - intro_start env) * 3) 4)))))
                (fst (env_draw_size (intro_ticks env i)))
                (snd (env_draw_size (intro_ticks env i)))
                ltac:(constructor)) as [text Hframe].
    destruct (IH (S i)
                (msg_index
                 + (if Qlt_bool 0.6 (env_now (intro_ticks env i) - last)
                    then 1 else 0))
                (env_now (intro_ticks env i))) as [rest [Hrest Hlen]].
    + intros j Hj. replace (S i + j)%nat with (i + S j)%nat by lia.
      apply Hquiet. lia.
    + now replace (S i + n)%nat with (i + S n)%nat by lia.
    + exists ([Write (CSI ++ py "H" ++ CSI ++ py "2J"); Write text; Flush]
              ++ rest).
      split; [|rewrite length_app, Hlen; simpl; lia].
      change (intro_loop (S (S n)) env i msg_index last)
        with (let e := intro_ticks env i in
              let now := env_now e in
              if Qle_bool intro_total (now - intro_start env) then
                Some ([], Normal tt)
              else
                let dots :=
                  repeat 46%N
                    (Z.to_nat
                       (py_int (py_fmod ((now - intro_start env) * 3) 4))) in
                match getitem MESSAGES (msg_index mod len MESSAGES) with
                | None => Some ([], Raised IndexError)
                | Some m =>
                    let intro_msg := m ++ dots in
                    let msg_index :=
                      msg_index
                      + (if Qlt_bool 0.6 (now - last) then 1 else 0) in
                    let last := now in
                    let frame :=
                      draw_frame [] (Some intro_msg) (fst (env_draw_size e))
                        (snd (env_draw_size e)) in
                    match emit frame (env_fault e) tt with
                    | (events, Normal _) =>
                        match intro_loop (S n) env (S i) msg_index last with
                        | Some (rest, out) => Some (events ++ rest, out)
                        | None => None
                        end
                    | (events, Raised x) => Some (events, Raised x)
                    end
                end).
      cbv zeta. rewrite Hgo, Hm, Hframe, Hfault. unfold emit.
      rewrite Hrest. reflexivity.
Qed.

(** X16.  The intro draws one frame per iteration while the clock is less than 7
    seconds past its start, and ends normally (its [break]) at the first
    reading that is 7 seconds past or more, when no exception reaches it:
    the message lookup and the drawing never raise on their own. *)
Theorem intro_ends_at_seven_seconds (env : run_env) (n : nat) :
  (forall j, (j < n)%nat ->
     (env_now (intro_ticks env j) - intro_start env < 7)%Q /\
     env_fault (intro_ticks env j) = None) ->
  (7 <= env_now (intro_ticks env n) - intro_start env)%Q ->
  exists trace,
    intro_loop (S n) env 0 0 (intro_start env) = Some (trace, Normal tt) /\
    length trace = (3 * n)%nat /\ teardown_count trace = 0%nat.
Proof.
  intros Hquiet Hend.
  destruct (intro_loop_runs env n 0 0 (intro_start env)) as [trace [Hrun Hlen]].
  - intros j Hj. simpl. destruct (Hquiet j Hj) as [Hnow Hfault].
    split; [unfold intro_total; lra | exact Hfault].
  - simpl. unfold intro_total. lra.
  - exists trace. split; [exact Hrun|]. split; [exact Hlen|].
    eapply intro_loop_no_teardown; eauto.
Qed.

Lemma intro_ends_at_seven_seconds_witness :
  exists trace,
    intro_loop 3 coarse_clock 0 0 (intro_start coarse_clock)
    = Some (trace, Normal tt) /\
    length trace = (3 * 2)%nat /\ teardown_count trace = 0%nat.
Proof.
  apply (intro_ends_at_seven_seconds coarse_clock 2).
  - intros j Hj. destruct j as [|[|j]]; [split; reflexivity
                                        | split; reflexivity | lia].
  - discriminate.
Defined.

(** ** The rotating message *)


